(** * The IGRF geomagnetic field model of [cgv/model/igrf/igrf_model.py]

    A shallow embedding of the class [igrfModel]: the parser of the embedded
    coefficient table ([read_coefficients]), the epoch selection with Schmidt
    normalisation ([set_year]), the spherical harmonic evaluations
    ([spherical], [_spherical0], [_spherical1], [_spherical2],
    [_spherical3]) and the coordinate front ends ([convert_coordinates],
    [geographic], [cartesian], [fdi]).

    Conventions of the embedding:
    - a NumPy [float64] is a real number of the Standard Library (the usual
      idealisation: no rounding, no infinities); requested epochs are
      rationals, the keys of the coefficient dictionary are integers;
    - a two-dimensional NumPy array is a list of rows; operations that NumPy
      refuses (shapes that do not broadcast, an index out of range) return
      [None];
    - a Python exception is [None] in the option monad; [print] appends a
      structured message to the returned output;
    - [self.gcoeff] and [self.hcoeff] are references: either an array the
      model owns or an alias of an array stored in [self.coefficients]. *)

From Stdlib Require Import Reals ZArith QArith Qminmax Qreals String Ascii Bool List.
From Stdlib Require Import Lia Lqa Lra.
Import ListNotations.

Set Implicit Arguments.

(** ** Exceptions: the option monad *)

Definition bind {A B : Type} (x : option A) (k : A -> option B) : option B :=
  match x with
  | Some a => k a
  | None => None
  end.

Notation "x <- e ;; k" := (bind e (fun x => k))
  (at level 61, e at next level, right associativity).

Fixpoint mapM {A B : Type} (f : A -> option B) (l : list A) : option (list B) :=
  match l with
  | [] => Some []
  | a :: l' => b <- f a ;; bs <- mapM f l' ;; Some (b :: bs)
  end.

Fixpoint foldM {A S : Type} (f : S -> A -> option S) (l : list A) (s : S) : option S :=
  match l with
  | [] => Some s
  | a :: l' => s' <- f s a ;; foldM f l' s'
  end.

(** ** NumPy arrays *)

Module np.

Abbreviation vector := (list R).
Abbreviation ndarray := (list (list R)).

Definition zeros (rows cols : nat) : ndarray := repeat (repeat 0%R cols) rows.

Definition arange (k : nat) : list nat := seq 0 k.

(** [shape a] for a rectangular array. *)
Definition rect (rows cols : nat) (a : ndarray) : Prop :=
  length a = rows /\ Forall (fun row => length row = cols) a.

Definition rectb (rows cols : nat) (a : ndarray) : bool :=
  (length a =? rows) && forallb (fun row => length row =? cols) a.

(** One axis of NumPy broadcasting: equal lengths pair up, a length of one
    is stretched, anything else is a [ValueError]. *)
Definition broadcast {A B C : Type} (f : A -> B -> option C)
    (xs : list A) (ys : list B) : option (list C) :=
  if length xs =? length ys then mapM (fun p => f (fst p) (snd p)) (combine xs ys)
  else match xs, ys with
       | [x], _ => mapM (f x) ys
       | _, [y] => mapM (fun x => f x y) xs
       | _, _ => None
       end.

Definition ew1 (f : R -> R -> R) : vector -> vector -> option vector :=
  broadcast (fun x y => Some (f x y)).

Definition ew2 (f : R -> R -> R) : ndarray -> ndarray -> option ndarray :=
  broadcast (ew1 f).

Definition add := ew2 Rplus.
Definition sub := ew2 Rminus.
Definition mul := ew2 Rmult.

(** [s * a] for a scalar [s]. *)
Definition scale (s : R) (a : ndarray) : ndarray := map (map (Rmult s)) a.

Definition shape_eqb (a b : ndarray) : bool :=
  (length a =? length b) && forallb (fun p => length (fst p) =? length (snd p)) (combine a b).

(** In-place operators [a += b], [a *= b]: the result must have the shape
    of [a]. *)
Definition inplace (op : ndarray -> ndarray -> option ndarray) (a b : ndarray)
    : option ndarray :=
  r <- op a b ;; if shape_eqb r a then Some r else None.

Definition iadd := inplace add.
Definition imul := inplace mul.

(** [a[i,j]] and [a[i,j] = v]; an index out of range is an [IndexError]. *)
Definition getitem (a : ndarray) (i j : nat) : option R :=
  row <- nth_error a i ;; nth_error row j.

Fixpoint put {A : Type} (i : nat) (v : A) (l : list A) : option (list A) :=
  match l, i with
  | [], _ => None
  | _ :: l', O => Some (v :: l')
  | x :: l', S i' => r <- put i' v l' ;; Some (x :: r)
  end.

Definition setitem (a : ndarray) (i j : nat) (v : R) : option ndarray :=
  row <- nth_error a i ;; row' <- put j v row ;; put i row' a.

(** [a[0:k, 0:k]]: slices never fail, they stop at the end of the axis. *)
Definition slice2 (k : nat) (a : ndarray) : ndarray := firstn k (map (firstn k) a).

(** [v[0:k]] *)
Definition slice1 {A : Type} (k : nat) (v : list A) : list A := firstn k v.

(** [x.dot(y)] for two vectors. *)
Definition dot (x y : vector) : option R :=
  if length x =? length y
  then Some (fold_right Rplus 0%R (map (fun p => (fst p * snd p)%R) (combine x y)))
  else None.

(** Transposition of a rectangular array: column [j] of [a], for each [j]. *)
Definition column (j : nat) (a : ndarray) : option vector :=
  mapM (fun row => nth_error row j) a.

Definition T (a : ndarray) : option ndarray :=
  match a with
  | [] => Some []
  | row :: _ => mapM (fun j => column j a) (arange (length row))
  end.

(** [a.T.dot(v)]: one dot product per column of [a]. *)
Definition Tdot (a : ndarray) (v : vector) : option vector :=
  at_ <- T a ;; mapM (fun col => dot col v) at_.

(** [np.clip(x, lo, hi)] *)
Definition clip (x lo hi : R) : R := Rmin (Rmax x lo) hi.

Definition clipQ (x lo hi : Q) : Q := Qmin (Qmax x lo) hi.

(** [np.sum(a)]: the sum of all the entries, for a vector and for an array. *)
Definition sum1 (v : vector) : R := fold_right Rplus 0%R v.

Definition sum (a : ndarray) : R := sum1 (concat a).

(** [N, M = np.meshgrid(x, y)]: [len(y)] rows and [len(x)] columns, with
    [N[i,j] = x[j]] and [M[i,j] = y[i]]. *)
Definition meshgrid {A : Type} (x y : list A) : list (list A) * list (list A) :=
  (map (fun _ => x) y, map (fun yi => map (fun _ => yi) x) y).

(** [a != 0] and [w1 | w2] for arrays of truth values. *)
Definition ne (x y : R) : bool := if Req_dec_T x y then false else true.

Definition ne0 (a : ndarray) : list (list bool) := map (map (fun x => ne x 0%R)) a.

Definition lor (w1 w2 : list (list bool)) : option (list (list bool)) :=
  broadcast (broadcast (fun x y => Some (x || y))) w1 w2.

(** [a[w]] for an array [w] of truth values: the entries of [a] where [w]
    holds, row after row; [w] must have the shape of [a] ([IndexError]). *)
Definition bool_index {A : Type} (a : list (list A)) (w : list (list bool))
    : option (list A) :=
  if (length a =? length w)
     && forallb (fun p => length (fst p) =? length (snd p)) (combine a w)
  then Some (map snd (filter fst (combine (concat w) (concat a))))
  else None.

(** [a *= b] for vectors. *)
Definition imul1 (a b : vector) : option vector :=
  r <- ew1 Rmult a b ;; if length r =? length a then Some r else None.

End np.

(** ** The coefficient dictionary *)

(** The two keys ['g'] and ['h'] of an epoch's entry. *)
Inductive GH : Type := key_g | key_h.

(** [{'g': array, 'h': array}] *)
Record coeffs : Type := Coeffs { cg : np.ndarray; ch : np.ndarray }.

Definition field_of (k : GH) (c : coeffs) : np.ndarray :=
  match k with key_g => cg c | key_h => ch c end.

Definition with_field (k : GH) (a : np.ndarray) (c : coeffs) : coeffs :=
  match k with
  | key_g => Coeffs a (ch c)
  | key_h => Coeffs (cg c) a
  end.

(** A Python [dict] whose keys are the integer epochs, in insertion order.
    A key is looked up by numeric equality, so the float [2020.0] finds the
    integer key [2020]. *)
Definition dict : Type := list (Z * coeffs).

Definition key_eqb (k : Z) (q : Q) : bool := Qeq_bool (inject_Z k) q.

Fixpoint dict_get (q : Q) (d : dict) : option (Z * coeffs) :=
  match d with
  | [] => None
  | (k, c) :: d' => if key_eqb k q then Some (k, c) else dict_get q d'
  end.

(** [d[k] = c] *)
Fixpoint dict_set (k : Z) (c : coeffs) (d : dict) : dict :=
  match d with
  | [] => [(k, c)]
  | (k', c') :: d' => if Z.eqb k' k then (k, c) :: d' else (k', c') :: dict_set k c d'
  end.

Definition keys (d : dict) : list Z := map fst d.

Fixpoint insert_sorted (k : Z) (l : list Z) : list Z :=
  match l with
  | [] => [k]
  | x :: l' => if Z.leb k x then k :: l else x :: insert_sorted k l'
  end.

Definition sorted (l : list Z) : list Z := fold_right insert_sorted [] l.

(** ** The embedded table [coeff] *)

(** A line of the table after [split()]: fewer than two tokens, or a
    coefficient row [g/h n m v1 v2 ...] with its numbers converted. *)
Inductive text_line : Type :=
  | Blank
  | Row (gh : GH) (n m : nat) (val : list R).

Record coeff_text : Type := CoeffText {
  header : list string;      (* lines[4].split() *)
  body : list text_line      (* lines[5:] *)
}.

Local Open Scope string_scope.
Local Open Scope R_scope.

(** The 12th generation table, the second (and effective) assignment of the
    class attribute [coeff]. *)
Definition coeff : coeff_text := CoeffText
  ["g/h"; "n"; "m"; "1900.0"; "1905.0"; "1910.0"; "1915.0"; "1920.0"; "1925.0";
   "1930.0"; "1935.0"; "1940.0"; "1945.0"; "1950.0"; "1955.0"; "1960.0"; "1965.0";
   "1970.0"; "1975.0"; "1980.0"; "1985.0"; "1990.0"; "1995.0"; "2000.0"; "2005.0";
   "2010.0"; "2015.0"; "2015-20"]
  ([
    Row key_g 1 0 [-31543; -31464; -31354; -31212; -31060; -30926; -30805; -30715; -30654; -30594; -30554; -30500; -30421; -30334; -30220; -30100; -29992; -29873; -29775; -29692; -29619.4; -29554.63; -29496.57; -29442.0; 10.3];
    Row key_g 1 1 [-2298; -2298; -2297; -2306; -2317; -2318; -2316; -2306; -2292; -2285; -2250; -2215; -2169; -2119; -2068; -2013; -1956; -1905; -1848; -1784; -1728.2; -1669.05; -1586.42; -1501.0; 18.1];
    Row key_h 1 1 [5922; 5909; 5898; 5875; 5845; 5817; 5808; 5812; 5821; 5810; 5815; 5820; 5791; 5776; 5737; 5675; 5604; 5500; 5406; 5306; 5186.1; 5077.99; 4944.26; 4797.1; -26.6];
    Row key_g 2 0 [-677; -728; -769; -802; -839; -893; -951; -1018; -1106; -1244; -1341; -1440; -1555; -1662; -1781; -1902; -1997; -2072; -2131; -2200; -2267.7; -2337.24; -2396.06; -2445.1; -8.7];
    Row key_g 2 1 [2905; 2928; 2948; 2956; 2959; 2969; 2980; 2984; 2981; 2990; 2998; 3003; 3002; 2997; 3000; 3010; 3027; 3044; 3059; 3070; 3068.4; 3047.69; 3026.34; 3012.9; -3.3];
    Row key_h 2 1 [-1061; -1086; -1128; -1191; -1259; -1334; -1424; -1520; -1614; -1702; -1810; -1898; -1967; -2016; -2047; -2067; -2129; -2197; -2279; -2366; -2481.6; -2594.50; -2708.54; -2845.6; -27.4];
    Row key_g 2 2 [924; 1041; 1176; 1309; 1407; 1471; 1517; 1550; 1566; 1578; 1576; 1581; 1590; 1594; 1611; 1632; 1663; 1687; 1686; 1681; 1670.9; 1657.76; 1668.17; 1676.7; 2.1];
    Row key_h 2 2 [1121; 1065; 1000; 917; 823; 728; 644; 586; 528; 477; 381; 291; 206; 114; 25; -68; -200; -306; -373; -413; -458.0; -515.43; -575.73; -641.9; -14.1];
    Row key_g 3 0 [1022; 1037; 1058; 1084; 1111; 1140; 1172; 1206; 1240; 1282; 1297; 1302; 1302; 1297; 1287; 1276; 1281; 1296; 1314; 1335; 1339.6; 1336.30; 1339.85; 1350.7; 3.4];
    Row key_g 3 1 [-1469; -1494; -1524; -1559; -1600; -1645; -1692; -1740; -1790; -1834; -1889; -1944; -1992; -2038; -2091; -2144; -2180; -2208; -2239; -2267; -2288.0; -2305.83; -2326.54; -2352.3; -5.5];
    Row key_h 3 1 [-330; -357; -389; -421; -445; -462; -480; -494; -499; -499; -476; -462; -414; -404; -366; -333; -336; -310; -284; -262; -227.6; -198.86; -160.40; -115.3; 8.2];
    Row key_g 3 2 [1256; 1239; 1223; 1212; 1205; 1202; 1205; 1215; 1232; 1255; 1274; 1288; 1289; 1292; 1278; 1260; 1251; 1247; 1248; 1249; 1252.1; 1246.39; 1232.10; 1225.6; -0.7];
    Row key_h 3 2 [3; 34; 62; 84; 103; 119; 133; 146; 163; 186; 206; 216; 224; 240; 251; 262; 271; 284; 293; 302; 293.4; 269.72; 251.75; 244.9; -0.4];
    Row key_g 3 3 [572; 635; 705; 778; 839; 881; 907; 918; 916; 913; 896; 882; 878; 856; 838; 830; 833; 829; 802; 759; 714.5; 672.51; 633.73; 582.0; -10.1];
    Row key_h 3 3 [523; 480; 425; 360; 293; 229; 166; 101; 43; -11; -46; -83; -130; -165; -196; -223; -252; -297; -352; -427; -491.1; -524.72; -537.03; -538.4; 1.8];
    Row key_g 4 0 [876; 880; 884; 887; 889; 891; 896; 903; 914; 944; 954; 958; 957; 957; 952; 946; 938; 936; 939; 940; 932.3; 920.55; 912.66; 907.6; -0.7];
    Row key_g 4 1 [628; 643; 660; 678; 695; 711; 727; 744; 762; 776; 792; 796; 800; 804; 800; 791; 782; 780; 780; 780; 786.8; 797.96; 808.97; 813.7; 0.2];
    Row key_h 4 1 [195; 203; 211; 218; 220; 216; 205; 188; 169; 144; 136; 133; 135; 148; 167; 191; 212; 232; 247; 262; 272.6; 282.07; 286.48; 283.3; -1.3];
    Row key_g 4 2 [660; 653; 644; 631; 616; 601; 584; 565; 550; 544; 528; 510; 504; 479; 461; 438; 398; 361; 325; 290; 250.0; 210.65; 166.58; 120.4; -9.1];
    Row key_h 4 2 [-69; -77; -90; -109; -134; -163; -195; -226; -252; -276; -278; -274; -278; -269; -266; -265; -257; -249; -240; -236; -231.9; -225.23; -211.03; -188.7; 5.3];
    Row key_g 4 3 [-361; -380; -400; -416; -424; -426; -422; -415; -405; -421; -408; -397; -394; -390; -395; -405; -419; -424; -423; -418; -403.0; -379.86; -356.83; -334.9; 4.1];
    Row key_h 4 3 [-210; -201; -189; -173; -153; -130; -109; -90; -72; -55; -37; -23; 3; 13; 26; 39; 53; 69; 84; 97; 119.8; 145.15; 164.46; 180.9; 2.9];
    Row key_g 4 4 [134; 146; 160; 178; 199; 217; 234; 249; 265; 304; 303; 290; 269; 252; 234; 216; 199; 170; 141; 122; 111.3; 100.00; 89.40; 70.4; -4.3];
    Row key_h 4 4 [-75; -65; -55; -51; -57; -70; -90; -114; -141; -178; -210; -230; -255; -269; -279; -288; -297; -297; -299; -306; -303.8; -305.36; -309.72; -329.5; -5.2];
    Row key_g 5 0 [-184; -192; -201; -211; -221; -230; -237; -241; -241; -253; -240; -229; -222; -219; -216; -218; -218; -214; -214; -214; -218.8; -227.00; -230.87; -232.6; -0.2];
    Row key_g 5 1 [328; 328; 327; 327; 326; 326; 327; 329; 334; 346; 349; 360; 362; 358; 359; 356; 357; 355; 353; 352; 351.4; 354.41; 357.29; 360.1; 0.5];
    Row key_h 5 1 [-210; -193; -172; -148; -122; -96; -72; -51; -33; -12; 3; 15; 16; 19; 26; 31; 46; 47; 46; 46; 43.8; 42.72; 44.58; 47.3; 0.6];
    Row key_g 5 2 [264; 259; 253; 245; 236; 226; 218; 211; 208; 194; 211; 230; 242; 254; 262; 264; 261; 253; 245; 235; 222.3; 208.95; 200.26; 192.4; -1.3];
    Row key_h 5 2 [53; 56; 57; 58; 58; 58; 60; 64; 71; 95; 103; 110; 125; 128; 139; 148; 150; 150; 154; 165; 171.9; 180.25; 189.01; 197.0; 1.7];
    Row key_g 5 3 [5; -1; -9; -16; -23; -28; -32; -33; -33; -20; -20; -23; -26; -31; -42; -59; -74; -93; -109; -118; -130.4; -136.54; -141.05; -140.9; -0.1];
    Row key_h 5 3 [-33; -32; -33; -34; -38; -44; -53; -64; -75; -67; -87; -98; -117; -126; -139; -152; -151; -154; -153; -143; -133.1; -123.45; -118.06; -119.3; -1.2];
    Row key_g 5 4 [-86; -93; -102; -111; -119; -125; -131; -136; -141; -142; -147; -152; -156; -157; -160; -159; -162; -164; -165; -166; -168.6; -168.05; -163.17; -157.5; 1.4];
    Row key_h 5 4 [-124; -125; -126; -126; -125; -122; -118; -115; -113; -119; -122; -121; -114; -97; -91; -83; -78; -75; -69; -55; -39.3; -19.57; -0.01; 16.0; 3.4];
    Row key_g 5 5 [-16; -26; -38; -51; -62; -69; -74; -76; -76; -82; -76; -69; -63; -62; -56; -49; -48; -46; -36; -17; -12.9; -13.55; -8.03; 4.1; 3.9];
    Row key_h 5 5 [3; 11; 21; 32; 43; 51; 58; 64; 69; 82; 80; 78; 81; 81; 83; 88; 92; 95; 97; 107; 106.3; 103.85; 101.04; 100.2; 0.0];
    Row key_g 6 0 [63; 62; 62; 61; 61; 61; 60; 59; 57; 59; 54; 47; 46; 45; 43; 45; 48; 53; 61; 68; 72.3; 73.60; 72.78; 70.0; -0.3];
    Row key_g 6 1 [61; 60; 58; 57; 55; 54; 53; 53; 54; 57; 57; 57; 58; 61; 64; 66; 66; 65; 65; 67; 68.2; 69.56; 68.69; 67.7; -0.1];
    Row key_h 6 1 [-9; -7; -5; -2; 0; 3; 4; 4; 4; 6; -1; -9; -10; -11; -12; -13; -15; -16; -16; -17; -17.4; -20.33; -20.90; -20.8; 0.0];
    Row key_g 6 2 [-11; -11; -11; -10; -10; -9; -9; -8; -7; 6; 4; 3; 1; 8; 15; 28; 42; 51; 59; 68; 74.2; 76.74; 75.92; 72.7; -0.7];
    Row key_h 6 2 [83; 86; 89; 93; 96; 99; 102; 104; 105; 100; 99; 96; 99; 100; 100; 99; 93; 88; 82; 72; 63.7; 54.75; 44.18; 33.2; -2.1];
    Row key_g 6 3 [-217; -221; -224; -228; -233; -238; -242; -246; -249; -246; -247; -247; -237; -228; -212; -198; -192; -185; -178; -170; -160.9; -151.34; -141.40; -129.9; 2.1];
    Row key_h 6 3 [2; 4; 5; 8; 11; 14; 19; 25; 33; 16; 33; 48; 60; 68; 72; 75; 71; 69; 69; 67; 65.1; 63.63; 61.54; 58.9; -0.7];
    Row key_g 6 4 [-58; -57; -54; -51; -46; -40; -32; -25; -18; -25; -16; -8; -1; 4; 2; 1; 4; 4; 3; -1; -5.9; -14.58; -22.83; -28.9; -1.2];
    Row key_h 6 4 [-35; -32; -29; -26; -22; -18; -16; -15; -15; -9; -12; -16; -20; -32; -37; -41; -43; -48; -52; -58; -61.2; -63.53; -66.26; -66.7; 0.2];
    Row key_g 6 5 [59; 57; 54; 49; 44; 39; 32; 25; 18; 21; 12; 7; -2; 1; 3; 6; 14; 16; 18; 19; 16.9; 14.58; 13.10; 13.2; 0.3];
    Row key_h 6 5 [36; 32; 28; 23; 18; 13; 8; 4; 0; -16; -12; -12; -11; -8; -6; -4; -2; -1; 1; 1; 0.7; 0.24; 3.02; 7.3; 0.9];
    Row key_g 6 6 [-90; -92; -95; -98; -101; -103; -104; -106; -107; -104; -105; -107; -113; -111; -112; -111; -108; -102; -96; -93; -90.4; -86.36; -78.09; -70.9; 1.6];
    Row key_h 6 6 [-69; -67; -65; -62; -57; -52; -46; -40; -33; -39; -30; -24; -17; -7; 1; 11; 17; 21; 24; 36; 43.8; 50.94; 55.40; 62.6; 1.0];
    Row key_g 7 0 [70; 70; 71; 72; 73; 73; 74; 74; 74; 70; 65; 65; 67; 75; 72; 71; 72; 74; 77; 77; 79.0; 79.88; 80.44; 81.6; 0.3];
    Row key_g 7 1 [-55; -54; -54; -54; -54; -54; -54; -53; -53; -40; -55; -56; -56; -57; -57; -56; -59; -62; -64; -72; -74.0; -74.46; -75.00; -76.1; -0.2];
    Row key_h 7 1 [-45; -46; -47; -48; -49; -50; -51; -52; -52; -45; -35; -50; -55; -61; -70; -77; -82; -83; -80; -69; -64.6; -61.14; -57.80; -54.1; 0.8];
    Row key_g 7 2 [0; 0; 1; 2; 2; 3; 4; 4; 4; 0; 2; 2; 5; 4; 1; 1; 2; 3; 2; 1; 0.0; -1.65; -4.55; -6.8; -0.5];
    Row key_h 7 2 [-13; -14; -14; -14; -14; -14; -15; -17; -18; -18; -17; -24; -28; -27; -27; -26; -27; -27; -26; -25; -24.2; -22.57; -21.20; -19.5; 0.4];
    Row key_g 7 3 [34; 33; 32; 31; 29; 27; 25; 23; 20; 0; 1; 10; 15; 13; 14; 16; 21; 24; 26; 28; 33.3; 38.73; 45.24; 51.8; 1.3];
    Row key_h 7 3 [-10; -11; -12; -12; -13; -14; -14; -14; -14; 2; 0; -4; -6; -2; -4; -5; -5; -2; 0; 4; 6.2; 6.82; 6.54; 5.7; -0.2];
    Row key_g 7 4 [-41; -41; -40; -38; -37; -35; -34; -33; -31; -29; -40; -32; -32; -26; -22; -14; -12; -6; -1; 5; 9.1; 12.30; 14.00; 15.0; 0.1];
    Row key_h 7 4 [-1; 0; 1; 2; 4; 5; 6; 7; 7; 6; 10; 8; 7; 6; 8; 10; 16; 20; 21; 24; 24.0; 25.35; 24.96; 24.4; -0.3];
    Row key_g 7 5 [-21; -20; -19; -18; -16; -14; -12; -11; -9; -10; -7; -11; -7; -6; -2; 0; 1; 4; 5; 4; 6.9; 9.37; 10.46; 9.4; -0.6];
    Row key_h 7 5 [28; 28; 28; 28; 28; 29; 29; 29; 29; 28; 36; 28; 23; 26; 23; 22; 18; 17; 17; 17; 14.8; 10.93; 7.03; 3.4; -0.6];
    Row key_g 7 6 [18; 18; 18; 19; 19; 19; 18; 18; 17; 15; 5; 9; 17; 13; 13; 12; 11; 10; 9; 8; 7.3; 5.42; 1.64; -2.8; -0.8];
    Row key_h 7 6 [-12; -12; -13; -15; -16; -17; -18; -19; -20; -17; -18; -20; -18; -23; -23; -23; -23; -23; -23; -24; -25.4; -26.32; -27.61; -27.4; 0.1];
    Row key_g 7 7 [6; 6; 6; 6; 6; 6; 6; 6; 5; 29; 19; 18; 8; 1; -2; -5; -2; 0; 0; -2; -1.2; 1.94; 4.92; 6.8; 0.2];
    Row key_h 7 7 [-22; -22; -22; -22; -22; -21; -20; -19; -19; -22; -16; -18; -17; -12; -11; -12; -10; -7; -4; -6; -5.8; -4.64; -3.28; -2.2; -0.2];
    Row key_g 8 0 [11; 11; 11; 11; 11; 11; 11; 11; 11; 13; 22; 11; 15; 13; 14; 14; 18; 21; 23; 25; 24.4; 24.80; 24.41; 24.2; 0.2];
    Row key_g 8 1 [8; 8; 8; 8; 7; 7; 7; 7; 7; 7; 15; 9; 6; 5; 6; 6; 6; 6; 5; 6; 6.6; 7.62; 8.21; 8.8; 0.0];
    Row key_h 8 1 [8; 8; 8; 8; 8; 8; 8; 8; 8; 12; 5; 10; 11; 7; 7; 6; 7; 8; 10; 11; 11.9; 11.20; 10.84; 10.1; -0.3];
    Row key_g 8 2 [-4; -4; -4; -4; -3; -3; -3; -3; -3; -8; -4; -6; -4; -4; -2; -1; 0; 0; -1; -6; -9.2; -11.73; -14.50; -16.9; -0.6];
    Row key_h 8 2 [-14; -15; -15; -15; -15; -15; -15; -15; -14; -21; -22; -15; -14; -12; -15; -16; -18; -19; -19; -21; -21.5; -20.88; -20.03; -18.3; 0.3];
    Row key_g 8 3 [-9; -9; -9; -9; -9; -9; -9; -9; -10; -5; -1; -14; -11; -14; -13; -12; -11; -11; -10; -9; -7.9; -6.88; -5.59; -3.2; 0.5];
    Row key_h 8 3 [7; 7; 6; 6; 6; 6; 5; 5; 5; -12; 0; 5; 7; 9; 6; 4; 4; 5; 6; 8; 8.5; 9.83; 11.83; 13.3; 0.1];
    Row key_g 8 4 [1; 1; 1; 2; 2; 2; 2; 1; 1; 9; 11; 6; 2; 0; -3; -8; -7; -9; -12; -14; -16.6; -18.11; -19.34; -20.6; -0.2];
    Row key_h 8 4 [-13; -13; -13; -13; -14; -14; -14; -15; -15; -7; -21; -23; -18; -16; -17; -19; -22; -23; -22; -23; -21.5; -19.71; -17.41; -14.6; 0.5];
    Row key_g 8 5 [2; 2; 2; 3; 4; 4; 5; 6; 6; 7; 15; 10; 10; 8; 5; 4; 4; 4; 3; 9; 9.1; 10.17; 11.61; 13.4; 0.4];
    Row key_h 8 5 [5; 5; 5; 5; 5; 5; 5; 5; 5; 2; -8; 3; 4; 4; 6; 6; 9; 11; 12; 15; 15.5; 16.22; 16.71; 16.2; -0.2];
    Row key_g 8 6 [-9; -8; -8; -8; -7; -7; -6; -6; -5; -10; -13; -7; -5; -1; 0; 0; 3; 4; 4; 6; 7.0; 9.36; 10.85; 11.7; 0.1];
    Row key_h 8 6 [16; 16; 16; 16; 17; 17; 18; 18; 19; 18; 17; 23; 23; 24; 21; 18; 16; 14; 12; 11; 8.9; 7.61; 6.96; 5.7; -0.3];
    Row key_g 8 7 [5; 5; 5; 6; 6; 7; 8; 8; 9; 7; 5; 6; 10; 11; 11; 10; 6; 4; 2; -5; -7.9; -11.25; -14.05; -15.9; -0.4];
    Row key_h 8 7 [-5; -5; -5; -5; -5; -5; -5; -5; -5; 3; -4; -4; 1; -3; -6; -10; -13; -15; -16; -16; -14.9; -12.76; -10.74; -9.1; 0.3];
    Row key_g 8 8 [8; 8; 8; 8; 8; 8; 8; 7; 7; 2; -1; 9; 8; 4; 3; 1; -1; -4; -6; -7; -7.0; -4.87; -3.54; -2.0; 0.3];
    Row key_h 8 8 [-18; -18; -18; -18; -19; -19; -19; -19; -19; -11; -17; -13; -20; -17; -16; -17; -15; -11; -10; -4; -2.1; -0.06; 1.64; 2.1; 0.0];
    Row key_g 9 0 [8; 8; 8; 8; 8; 8; 8; 8; 8; 5; 3; 4; 4; 8; 8; 7; 5; 5; 4; 4; 5.0; 5.58; 5.50; 5.4; 0.0];
    Row key_g 9 1 [10; 10; 10; 10; 10; 10; 10; 10; 10; -21; -7; 9; 6; 10; 10; 10; 10; 10; 9; 9; 9.4; 9.76; 9.45; 8.8; 0.0];
    Row key_h 9 1 [-20; -20; -20; -20; -20; -20; -20; -20; -21; -27; -24; -11; -18; -22; -21; -21; -21; -21; -20; -20; -19.7; -20.11; -20.54; -21.6; 0.0];
    Row key_g 9 2 [1; 1; 1; 1; 1; 1; 1; 1; 1; 1; -1; -4; 0; 2; 2; 2; 1; 1; 1; 3; 3.0; 3.58; 3.45; 3.1; 0.0];
    Row key_h 9 2 [14; 14; 14; 14; 14; 14; 14; 15; 15; 17; 19; 12; 12; 15; 16; 16; 16; 15; 15; 15; 13.4; 12.69; 11.51; 10.8; 0.0];
    Row key_g 9 3 [-11; -11; -11; -11; -11; -11; -12; -12; -12; -11; -25; -5; -9; -13; -12; -12; -12; -12; -12; -10; -8.4; -6.94; -5.27; -3.3; 0.0];
    Row key_h 9 3 [5; 5; 5; 5; 5; 5; 5; 5; 5; 29; 12; 7; 2; 7; 6; 7; 9; 9; 11; 12; 12.5; 12.67; 12.75; 11.8; 0.0];
    Row key_g 9 4 [12; 12; 12; 12; 12; 12; 12; 11; 11; 3; 10; 2; 1; 10; 10; 10; 9; 9; 9; 8; 6.3; 5.01; 3.13; 0.7; 0.0];
    Row key_h 9 4 [-3; -3; -3; -3; -3; -3; -3; -3; -3; -9; 2; 6; 0; -4; -4; -4; -5; -6; -7; -6; -6.2; -6.72; -7.14; -6.8; 0.0];
    Row key_g 9 5 [1; 1; 1; 1; 1; 1; 1; 1; 1; 16; 5; 4; 4; -1; -1; -1; -3; -3; -4; -8; -8.9; -10.76; -12.38; -13.3; 0.0];
    Row key_h 9 5 [-2; -2; -2; -2; -2; -2; -2; -3; -3; 4; 2; -2; -3; -5; -5; -5; -6; -6; -7; -8; -8.4; -8.16; -7.42; -6.9; 0.0];
    Row key_g 9 6 [-2; -2; -2; -2; -2; -2; -2; -2; -2; -3; -5; 1; -1; -1; 0; -1; -1; -1; -2; -1; -1.5; -1.25; -0.76; -0.1; 0.0];
    Row key_h 9 6 [8; 8; 8; 8; 9; 9; 9; 9; 9; 9; 8; 10; 9; 10; 10; 10; 9; 9; 9; 8; 8.4; 8.10; 7.97; 7.8; 0.0];
    Row key_g 9 7 [2; 2; 2; 2; 2; 2; 3; 3; 3; -4; -2; 2; -2; 5; 3; 4; 7; 7; 7; 10; 9.3; 8.76; 8.43; 8.7; 0.0];
    Row key_h 9 7 [10; 10; 10; 10; 10; 10; 10; 11; 11; 6; 8; 7; 8; 10; 11; 11; 10; 9; 8; 5; 3.8; 2.92; 2.14; 1.0; 0.0];
    Row key_g 9 8 [-1; 0; 0; 0; 0; 0; 0; 0; 1; -3; 3; 2; 3; 1; 1; 1; 2; 1; 1; -2; -4.3; -6.66; -8.42; -9.1; 0.0];
    Row key_h 9 8 [-2; -2; -2; -2; -2; -2; -2; -2; -2; 1; -11; -6; 0; -4; -2; -3; -6; -7; -7; -8; -8.2; -7.73; -6.08; -4.0; 0.0];
    Row key_g 9 9 [-1; -1; -1; -1; -1; -1; -2; -2; -2; -4; 8; 5; -1; -2; -1; -2; -5; -5; -6; -8; -8.2; -9.22; -10.08; -10.5; 0.0];
    Row key_h 9 9 [2; 2; 2; 2; 2; 2; 2; 2; 2; 8; -7; 5; 5; 1; 1; 1; 2; 2; 2; 3; 4.8; 6.01; 7.01; 8.4; 0.0];
    Row key_g 10 0 [-3; -3; -3; -3; -3; -3; -3; -3; -3; -3; -8; -3; 1; -2; -3; -3; -4; -4; -3; -3; -2.6; -2.17; -1.94; -1.9; 0.0];
    Row key_g 10 1 [-4; -4; -4; -4; -4; -4; -4; -4; -4; 11; 4; -5; -3; -3; -3; -3; -4; -4; -4; -6; -6.0; -6.12; -6.24; -6.3; 0.0];
    Row key_h 10 1 [2; 2; 2; 2; 2; 2; 2; 2; 2; 5; 13; -4; 4; 2; 1; 1; 1; 1; 2; 1; 1.7; 2.19; 2.73; 3.2; 0.0];
    Row key_g 10 2 [2; 2; 2; 2; 2; 2; 2; 2; 2; 1; -1; -1; 4; 2; 2; 2; 2; 3; 2; 2; 1.7; 1.42; 0.89; 0.1; 0.0];
    Row key_h 10 2 [1; 1; 1; 1; 1; 1; 1; 1; 1; 1; -2; 0; 1; 1; 1; 1; 0; 0; 1; 0; 0.0; 0.10; -0.10; -0.4; 0.0];
    Row key_g 10 3 [-5; -5; -5; -5; -5; -5; -5; -5; -5; 2; 13; 2; 0; -5; -5; -5; -5; -5; -5; -4; -3.1; -2.35; -1.07; 0.5; 0.0];
    Row key_h 10 3 [2; 2; 2; 2; 2; 2; 2; 2; 2; -20; -10; -8; 0; 2; 3; 3; 3; 3; 3; 4; 4.0; 4.46; 4.71; 4.6; 0.0];
    Row key_g 10 4 [-2; -2; -2; -2; -2; -2; -2; -2; -2; -5; -4; -3; -1; -2; -1; -2; -2; -2; -2; -1; -0.5; -0.15; -0.16; -0.5; 0.0];
    Row key_h 10 4 [6; 6; 6; 6; 6; 6; 6; 6; 6; -1; 2; -2; 2; 6; 4; 4; 6; 6; 6; 5; 4.9; 4.76; 4.44; 4.4; 0.0];
    Row key_g 10 5 [6; 6; 6; 6; 6; 6; 6; 6; 6; -1; 4; 7; 4; 4; 6; 5; 5; 5; 4; 4; 3.7; 3.06; 2.45; 1.8; 0.0];
    Row key_h 10 5 [-4; -4; -4; -4; -4; -4; -4; -4; -4; -6; -3; -4; -5; -4; -4; -4; -4; -4; -4; -5; -5.9; -6.58; -7.22; -7.9; 0.0];
    Row key_g 10 6 [4; 4; 4; 4; 4; 4; 4; 4; 4; 8; 12; 4; 6; 4; 4; 4; 3; 3; 3; 2; 1.0; 0.29; -0.33; -0.7; 0.0];
    Row key_h 10 6 [0; 0; 0; 0; 0; 0; 0; 0; 0; 6; 6; 1; 1; 0; 0; -1; 0; 0; 0; -1; -1.2; -1.01; -0.96; -0.6; 0.0];
    Row key_g 10 7 [0; 0; 0; 0; 0; 0; 0; 0; 0; -1; 3; -2; 1; 0; 1; 1; 1; 1; 1; 2; 2.0; 2.06; 2.13; 2.1; 0.0];
    Row key_h 10 7 [-2; -2; -2; -2; -2; -2; -2; -1; -1; -4; -3; -3; -1; -2; -1; -1; -1; -1; -2; -2; -2.9; -3.47; -3.95; -4.2; 0.0];
    Row key_g 10 8 [2; 2; 2; 1; 1; 1; 1; 2; 2; -3; 2; 6; -1; 2; 0; 0; 2; 2; 3; 5; 4.2; 3.77; 3.09; 2.4; 0.0];
    Row key_h 10 8 [4; 4; 4; 4; 4; 4; 4; 4; 4; -2; 6; 7; 6; 3; 3; 3; 4; 4; 3; 1; 0.2; -0.86; -1.99; -2.8; 0.0];
    Row key_g 10 9 [2; 2; 2; 2; 3; 3; 3; 3; 3; 5; 10; -2; 2; 2; 3; 3; 3; 3; 3; 1; 0.3; -0.21; -1.03; -1.8; 0.0];
    Row key_h 10 9 [0; 0; 0; 0; 0; 0; 0; 0; 0; 0; 11; -1; 0; 0; 1; 1; 0; 0; -1; -2; -2.2; -2.31; -1.97; -1.2; 0.0];
    Row key_g 10 10 [0; 0; 0; 0; 0; 0; 0; 0; 0; -2; 3; 0; 0; 0; -1; -1; 0; 0; 0; 0; -1.1; -2.09; -2.80; -3.6; 0.0];
    Row key_h 10 10 [-6; -6; -6; -6; -6; -6; -6; -6; -6; -2; 8; -3; -7; -6; -4; -5; -6; -6; -6; -7; -7.4; -7.93; -8.31; -8.7; 0.0];
    Row key_g 11 0 [0; 0; 0; 0; 0; 0; 0; 0; 0; 0; 0; 0; 0; 0; 0; 0; 0; 0; 0; 0; 2.7; 2.95; 3.05; 3.1; 0.0];
    Row key_g 11 1 [0; 0; 0; 0; 0; 0; 0; 0; 0; 0; 0; 0; 0; 0; 0; 0; 0; 0; 0; 0; -1.7; -1.60; -1.48; -1.5; 0.0];
    Row key_h 11 1 [0; 0; 0; 0; 0; 0; 0; 0; 0; 0; 0; 0; 0; 0; 0; 0; 0; 0; 0; 0; 0.1; 0.26; 0.13; -0.1; 0.0];
    Row key_g 11 2 [0; 0; 0; 0; 0; 0; 0; 0; 0; 0; 0; 0; 0; 0; 0; 0; 0; 0; 0; 0; -1.9; -1.88; -2.03; -2.3; 0.0];
    Row key_h 11 2 [0; 0; 0; 0; 0; 0; 0; 0; 0; 0; 0; 0; 0; 0; 0; 0; 0; 0; 0; 0; 1.3; 1.44; 1.67; 2.0; 0.0];
    Row key_g 11 3 [0; 0; 0; 0; 0; 0; 0; 0; 0; 0; 0; 0; 0; 0; 0; 0; 0; 0; 0; 0; 1.5; 1.44; 1.65; 2.0; 0.0];
    Row key_h 11 3 [0; 0; 0; 0; 0; 0; 0; 0; 0; 0; 0; 0; 0; 0; 0; 0; 0; 0; 0; 0; -0.9; -0.77; -0.66; -0.7; 0.0];
    Row key_g 11 4 [0; 0; 0; 0; 0; 0; 0; 0; 0; 0; 0; 0; 0; 0; 0; 0; 0; 0; 0; 0; -0.1; -0.31; -0.51; -0.8; 0.0];
    Row key_h 11 4 [0; 0; 0; 0; 0; 0; 0; 0; 0; 0; 0; 0; 0; 0; 0; 0; 0; 0; 0; 0; -2.6; -2.27; -1.76; -1.1; 0.0];
    Row key_g 11 5 [0; 0; 0; 0; 0; 0; 0; 0; 0; 0; 0; 0; 0; 0; 0; 0; 0; 0; 0; 0; 0.1; 0.29; 0.54; 0.6; 0.0];
    Row key_h 11 5 [0; 0; 0; 0; 0; 0; 0; 0; 0; 0; 0; 0; 0; 0; 0; 0; 0; 0; 0; 0; 0.9; 0.90; 0.85; 0.8; 0.0];
    Row key_g 11 6 [0; 0; 0; 0; 0; 0; 0; 0; 0; 0; 0; 0; 0; 0; 0; 0; 0; 0; 0; 0; -0.7; -0.79; -0.79; -0.7; 0.0];
    Row key_h 11 6 [0; 0; 0; 0; 0; 0; 0; 0; 0; 0; 0; 0; 0; 0; 0; 0; 0; 0; 0; 0; -0.7; -0.58; -0.39; -0.2; 0.0];
    Row key_g 11 7 [0; 0; 0; 0; 0; 0; 0; 0; 0; 0; 0; 0; 0; 0; 0; 0; 0; 0; 0; 0; 0.7; 0.53; 0.37; 0.2; 0.0];
    Row key_h 11 7 [0; 0; 0; 0; 0; 0; 0; 0; 0; 0; 0; 0; 0; 0; 0; 0; 0; 0; 0; 0; -2.8; -2.69; -2.51; -2.2; 0.0];
    Row key_g 11 8 [0; 0; 0; 0; 0; 0; 0; 0; 0; 0; 0; 0; 0; 0; 0; 0; 0; 0; 0; 0; 1.7; 1.80; 1.79; 1.7; 0.0];
    Row key_h 11 8 [0; 0; 0; 0; 0; 0; 0; 0; 0; 0; 0; 0; 0; 0; 0; 0; 0; 0; 0; 0; -0.9; -1.08; -1.27; -1.4; 0.0];
    Row key_g 11 9 [0; 0; 0; 0; 0; 0; 0; 0; 0; 0; 0; 0; 0; 0; 0; 0; 0; 0; 0; 0; 0.1; 0.16; 0.12; -0.2; 0.0];
    Row key_h 11 9 [0; 0; 0; 0; 0; 0; 0; 0; 0; 0; 0; 0; 0; 0; 0; 0; 0; 0; 0; 0; -1.2; -1.58; -2.11; -2.5; 0.0];
    Row key_g 11 10 [0; 0; 0; 0; 0; 0; 0; 0; 0; 0; 0; 0; 0; 0; 0; 0; 0; 0; 0; 0; 1.2; 0.96; 0.75; 0.4; 0.0];
    Row key_h 11 10 [0; 0; 0; 0; 0; 0; 0; 0; 0; 0; 0; 0; 0; 0; 0; 0; 0; 0; 0; 0; -1.9; -1.90; -1.94; -2.0; 0.0];
    Row key_g 11 11 [0; 0; 0; 0; 0; 0; 0; 0; 0; 0; 0; 0; 0; 0; 0; 0; 0; 0; 0; 0; 4.0; 3.99; 3.75; 3.5; 0.0];
    Row key_h 11 11 [0; 0; 0; 0; 0; 0; 0; 0; 0; 0; 0; 0; 0; 0; 0; 0; 0; 0; 0; 0; -0.9; -1.39; -1.86; -2.4; 0.0];
    Row key_g 12 0 [0; 0; 0; 0; 0; 0; 0; 0; 0; 0; 0; 0; 0; 0; 0; 0; 0; 0; 0; 0; -2.2; -2.15; -2.12; -1.9; 0.0];
    Row key_g 12 1 [0; 0; 0; 0; 0; 0; 0; 0; 0; 0; 0; 0; 0; 0; 0; 0; 0; 0; 0; 0; -0.3; -0.29; -0.21; -0.2; 0.0];
    Row key_h 12 1 [0; 0; 0; 0; 0; 0; 0; 0; 0; 0; 0; 0; 0; 0; 0; 0; 0; 0; 0; 0; -0.4; -0.55; -0.87; -1.1; 0.0];
    Row key_g 12 2 [0; 0; 0; 0; 0; 0; 0; 0; 0; 0; 0; 0; 0; 0; 0; 0; 0; 0; 0; 0; 0.2; 0.21; 0.30; 0.4; 0.0];
    Row key_h 12 2 [0; 0; 0; 0; 0; 0; 0; 0; 0; 0; 0; 0; 0; 0; 0; 0; 0; 0; 0; 0; 0.3; 0.23; 0.27; 0.4; 0.0];
    Row key_g 12 3 [0; 0; 0; 0; 0; 0; 0; 0; 0; 0; 0; 0; 0; 0; 0; 0; 0; 0; 0; 0; 0.9; 0.89; 1.04; 1.2; 0.0];
    Row key_h 12 3 [0; 0; 0; 0; 0; 0; 0; 0; 0; 0; 0; 0; 0; 0; 0; 0; 0; 0; 0; 0; 2.5; 2.38; 2.13; 1.9; 0.0];
    Row key_g 12 4 [0; 0; 0; 0; 0; 0; 0; 0; 0; 0; 0; 0; 0; 0; 0; 0; 0; 0; 0; 0; -0.2; -0.38; -0.63; -0.8; 0.0];
    Row key_h 12 4 [0; 0; 0; 0; 0; 0; 0; 0; 0; 0; 0; 0; 0; 0; 0; 0; 0; 0; 0; 0; -2.6; -2.63; -2.49; -2.2; 0.0];
    Row key_g 12 5 [0; 0; 0; 0; 0; 0; 0; 0; 0; 0; 0; 0; 0; 0; 0; 0; 0; 0; 0; 0; 0.9; 0.96; 0.95; 0.9; 0.0];
    Row key_h 12 5 [0; 0; 0; 0; 0; 0; 0; 0; 0; 0; 0; 0; 0; 0; 0; 0; 0; 0; 0; 0; 0.7; 0.61; 0.49; 0.3; 0.0];
    Row key_g 12 6 [0; 0; 0; 0; 0; 0; 0; 0; 0; 0; 0; 0; 0; 0; 0; 0; 0; 0; 0; 0; -0.5; -0.30; -0.11; 0.1; 0.0];
    Row key_h 12 6 [0; 0; 0; 0; 0; 0; 0; 0; 0; 0; 0; 0; 0; 0; 0; 0; 0; 0; 0; 0; 0.3; 0.40; 0.59; 0.7; 0.0];
    Row key_g 12 7 [0; 0; 0; 0; 0; 0; 0; 0; 0; 0; 0; 0; 0; 0; 0; 0; 0; 0; 0; 0; 0.3; 0.46; 0.52; 0.5; 0.0];
    Row key_h 12 7 [0; 0; 0; 0; 0; 0; 0; 0; 0; 0; 0; 0; 0; 0; 0; 0; 0; 0; 0; 0; 0.0; 0.01; 0.00; -0.1; 0.0];
    Row key_g 12 8 [0; 0; 0; 0; 0; 0; 0; 0; 0; 0; 0; 0; 0; 0; 0; 0; 0; 0; 0; 0; -0.3; -0.35; -0.39; -0.3; 0.0];
    Row key_h 12 8 [0; 0; 0; 0; 0; 0; 0; 0; 0; 0; 0; 0; 0; 0; 0; 0; 0; 0; 0; 0; 0.0; 0.02; 0.13; 0.3; 0.0];
    Row key_g 12 9 [0; 0; 0; 0; 0; 0; 0; 0; 0; 0; 0; 0; 0; 0; 0; 0; 0; 0; 0; 0; -0.4; -0.36; -0.37; -0.4; 0.0];
    Row key_h 12 9 [0; 0; 0; 0; 0; 0; 0; 0; 0; 0; 0; 0; 0; 0; 0; 0; 0; 0; 0; 0; 0.3; 0.28; 0.27; 0.2; 0.0];
    Row key_g 12 10 [0; 0; 0; 0; 0; 0; 0; 0; 0; 0; 0; 0; 0; 0; 0; 0; 0; 0; 0; 0; -0.1; 0.08; 0.21; 0.2; 0.0];
    Row key_h 12 10 [0; 0; 0; 0; 0; 0; 0; 0; 0; 0; 0; 0; 0; 0; 0; 0; 0; 0; 0; 0; -0.9; -0.87; -0.86; -0.9; 0.0];
    Row key_g 12 11 [0; 0; 0; 0; 0; 0; 0; 0; 0; 0; 0; 0; 0; 0; 0; 0; 0; 0; 0; 0; -0.2; -0.49; -0.77; -0.9; 0.0];
    Row key_h 12 11 [0; 0; 0; 0; 0; 0; 0; 0; 0; 0; 0; 0; 0; 0; 0; 0; 0; 0; 0; 0; -0.4; -0.34; -0.23; -0.1; 0.0];
    Row key_g 12 12 [0; 0; 0; 0; 0; 0; 0; 0; 0; 0; 0; 0; 0; 0; 0; 0; 0; 0; 0; 0; -0.4; -0.08; 0.04; 0.0; 0.0];
    Row key_h 12 12 [0; 0; 0; 0; 0; 0; 0; 0; 0; 0; 0; 0; 0; 0; 0; 0; 0; 0; 0; 0; 0.8; 0.88; 0.87; 0.7; 0.0];
    Row key_g 13 0 [0; 0; 0; 0; 0; 0; 0; 0; 0; 0; 0; 0; 0; 0; 0; 0; 0; 0; 0; 0; -0.2; -0.16; -0.09; 0.0; 0.0];
    Row key_g 13 1 [0; 0; 0; 0; 0; 0; 0; 0; 0; 0; 0; 0; 0; 0; 0; 0; 0; 0; 0; 0; -0.9; -0.88; -0.89; -0.9; 0.0];
    Row key_h 13 1 [0; 0; 0; 0; 0; 0; 0; 0; 0; 0; 0; 0; 0; 0; 0; 0; 0; 0; 0; 0; -0.9; -0.76; -0.87; -0.9; 0.0];
    Row key_g 13 2 [0; 0; 0; 0; 0; 0; 0; 0; 0; 0; 0; 0; 0; 0; 0; 0; 0; 0; 0; 0; 0.3; 0.30; 0.31; 0.4; 0.0];
    Row key_h 13 2 [0; 0; 0; 0; 0; 0; 0; 0; 0; 0; 0; 0; 0; 0; 0; 0; 0; 0; 0; 0; 0.2; 0.33; 0.30; 0.4; 0.0];
    Row key_g 13 3 [0; 0; 0; 0; 0; 0; 0; 0; 0; 0; 0; 0; 0; 0; 0; 0; 0; 0; 0; 0; 0.1; 0.28; 0.42; 0.5; 0.0];
    Row key_h 13 3 [0; 0; 0; 0; 0; 0; 0; 0; 0; 0; 0; 0; 0; 0; 0; 0; 0; 0; 0; 0; 1.8; 1.72; 1.66; 1.6; 0.0];
    Row key_g 13 4 [0; 0; 0; 0; 0; 0; 0; 0; 0; 0; 0; 0; 0; 0; 0; 0; 0; 0; 0; 0; -0.4; -0.43; -0.45; -0.5; 0.0];
    Row key_h 13 4 [0; 0; 0; 0; 0; 0; 0; 0; 0; 0; 0; 0; 0; 0; 0; 0; 0; 0; 0; 0; -0.4; -0.54; -0.59; -0.5; 0.0];
    Row key_g 13 5 [0; 0; 0; 0; 0; 0; 0; 0; 0; 0; 0; 0; 0; 0; 0; 0; 0; 0; 0; 0; 1.3; 1.18; 1.08; 1.0; 0.0];
    Row key_h 13 5 [0; 0; 0; 0; 0; 0; 0; 0; 0; 0; 0; 0; 0; 0; 0; 0; 0; 0; 0; 0; -1.0; -1.07; -1.14; -1.2; 0.0];
    Row key_g 13 6 [0; 0; 0; 0; 0; 0; 0; 0; 0; 0; 0; 0; 0; 0; 0; 0; 0; 0; 0; 0; -0.4; -0.37; -0.31; -0.2; 0.0];
    Row key_h 13 6 [0; 0; 0; 0; 0; 0; 0; 0; 0; 0; 0; 0; 0; 0; 0; 0; 0; 0; 0; 0; -0.1; -0.04; -0.07; -0.1; 0.0];
    Row key_g 13 7 [0; 0; 0; 0; 0; 0; 0; 0; 0; 0; 0; 0; 0; 0; 0; 0; 0; 0; 0; 0; 0.7; 0.75; 0.78; 0.8; 0.0];
    Row key_h 13 7 [0; 0; 0; 0; 0; 0; 0; 0; 0; 0; 0; 0; 0; 0; 0; 0; 0; 0; 0; 0; 0.7; 0.63; 0.54; 0.4; 0.0];
    Row key_g 13 8 [0; 0; 0; 0; 0; 0; 0; 0; 0; 0; 0; 0; 0; 0; 0; 0; 0; 0; 0; 0; -0.4; -0.26; -0.18; -0.1; 0.0];
    Row key_h 13 8 [0; 0; 0; 0; 0; 0; 0; 0; 0; 0; 0; 0; 0; 0; 0; 0; 0; 0; 0; 0; 0.3; 0.21; 0.10; -0.1; 0.0];
    Row key_g 13 9 [0; 0; 0; 0; 0; 0; 0; 0; 0; 0; 0; 0; 0; 0; 0; 0; 0; 0; 0; 0; 0.3; 0.35; 0.38; 0.3; 0.0];
    Row key_h 13 9 [0; 0; 0; 0; 0; 0; 0; 0; 0; 0; 0; 0; 0; 0; 0; 0; 0; 0; 0; 0; 0.6; 0.53; 0.49; 0.4; 0.0];
    Row key_g 13 10 [0; 0; 0; 0; 0; 0; 0; 0; 0; 0; 0; 0; 0; 0; 0; 0; 0; 0; 0; 0; -0.1; -0.05; 0.02; 0.1; 0.0];
    Row key_h 13 10 [0; 0; 0; 0; 0; 0; 0; 0; 0; 0; 0; 0; 0; 0; 0; 0; 0; 0; 0; 0; 0.3; 0.38; 0.44; 0.5; 0.0];
    Row key_g 13 11 [0; 0; 0; 0; 0; 0; 0; 0; 0; 0; 0; 0; 0; 0; 0; 0; 0; 0; 0; 0; 0.4; 0.41; 0.42; 0.5; 0.0];
    Row key_h 13 11 [0; 0; 0; 0; 0; 0; 0; 0; 0; 0; 0; 0; 0; 0; 0; 0; 0; 0; 0; 0; -0.2; -0.22; -0.25; -0.3; 0.0];
    Row key_g 13 12 [0; 0; 0; 0; 0; 0; 0; 0; 0; 0; 0; 0; 0; 0; 0; 0; 0; 0; 0; 0; 0.0; -0.10; -0.26; -0.4; 0.0];
    Row key_h 13 12 [0; 0; 0; 0; 0; 0; 0; 0; 0; 0; 0; 0; 0; 0; 0; 0; 0; 0; 0; 0; -0.5; -0.57; -0.53; -0.4; 0.0];
    Row key_g 13 13 [0; 0; 0; 0; 0; 0; 0; 0; 0; 0; 0; 0; 0; 0; 0; 0; 0; 0; 0; 0; 0.1; -0.18; -0.26; -0.3; 0.0];
    Row key_h 13 13 [0; 0; 0; 0; 0; 0; 0; 0; 0; 0; 0; 0; 0; 0; 0; 0; 0; 0; 0; 0; -0.9; -0.82; -0.79; -0.8; 0.0]
  ] ++ [Blank]).

Local Close Scope R_scope.
Local Close Scope string_scope.

(** ** Parsing the header *)

(** [s.replace(old, new)] on a label that is either [old] itself or does not
    contain it. *)
Definition replace (old new s : string) : string :=
  if String.eqb s old then new else s.

Definition digit (c : ascii) : option Z :=
  let k := nat_of_ascii c in
  if (48 <=? k)%nat && (k <=? 57)%nat then Some (Z.of_nat (k - 48)) else None.

(** Unsigned decimal literals [ddd] and [ddd.ddd]; anything else is the
    [ValueError] of [astype('float')]. *)
Fixpoint parse_decimal (s : string) (acc : Z) (den : positive) (frac : bool) : option Q :=
  match s with
  | EmptyString => Some (acc # den)
  | String c s' =>
      if Ascii.eqb c "."%char
      then (if frac then None else parse_decimal s' acc den true)
      else d <- digit c ;;
           parse_decimal s' (10 * acc + d)%Z (if frac then (10 * den)%positive else den) frac
  end.

Definition float (s : string) : option Q :=
  match s with
  | EmptyString => None
  | _ => parse_decimal s 0%Z 1%positive false
  end.

(** [astype('int')]: truncation toward zero. *)
Definition int (q : Q) : Z := Z.quot (Qnum q) (Zpos (Qden q)).

(** [l[-1] = f(l[-1])] *)
Fixpoint update_last {A : Type} (f : A -> A) (l : list A) : option (list A) :=
  match l with
  | [] => None
  | [a] => Some [f a]
  | a :: l' => r <- update_last f l' ;; Some (a :: r)
  end.

(** [l[-1]] and [l[-2]] *)
Definition last1 {A : Type} (l : list A) : option A := nth_error (rev l) 0.
Definition last2 {A : Type} (l : list A) : option A := nth_error (rev l) 1.

(** ** [read_coefficients] *)

(** [c[year][gh][m,n] = v] *)
Fixpoint store (year : Z) (gh : GH) (m n : nat) (v : R) (c : dict) : option dict :=
  match c with
  | [] => None
  | (k, e) :: c' =>
      if Z.eqb k year
      then a <- np.setitem (field_of gh e) m n v ;; Some ((k, with_field gh a e) :: c')
      else r <- store year gh m n v c' ;; Some ((k, e) :: r)
  end.

(** [c[key][gh] = a] for an existing [key]. *)
Fixpoint assign (key : Z) (gh : GH) (a : np.ndarray) (c : dict) : dict :=
  match c with
  | [] => []
  | (k, e) :: c' =>
      if Z.eqb k key then (k, with_field gh a e) :: c' else (k, e) :: assign key gh a c'
  end.

(** The labels of the epochs: [lines[4].split()[3:]] with the label of the
    secular variation column rewritten, as floats. *)
Definition read_years (t : coeff_text) : option (list Q) :=
  let years := skipn 3 (header t) in
  years <- update_last (replace "2010-15" "2015.0") years ;;
  years <- update_last (replace "2015-20" "2020.0") years ;;
  mapM float years.

(** The first loop: an entry of zeros for every epoch. *)
Definition empty_table (years : list Q) : dict :=
  let mat := np.zeros 15 15 in
  fold_left (fun c year => dict_set year (Coeffs mat mat) c) (map int years) [].

(** The body of the second loop for one line. *)
Definition read_line (years : list Q) (c : dict) (line : text_line) : option dict :=
  match line with
  | Blank => Some c
  | Row gh n m val =>
      foldM (fun c (iy : nat * Z) =>
               v <- nth_error val (fst iy) ;; store (snd iy) gh m n v c)
            (combine (seq 0 (length years)) (map int years)) c
  end.

(** The second loop: [lines[5:]] fill the arrays. *)
Definition fill_table (t : coeff_text) (years : list Q) : option dict :=
  foldM (read_line years) (body t) (empty_table years).

(** [c[years[-1]][gh] += c[years[-2]][gh]] *)
Definition add_previous (years : list Q) (c : dict) (gh : GH) : option dict :=
  y1 <- last1 years ;;
  y2 <- last2 years ;;
  e1 <- dict_get y1 c ;;
  e2 <- dict_get y2 c ;;
  a <- np.iadd (field_of gh (snd e1)) (field_of gh (snd e2)) ;;
  Some (assign (fst e1) gh a c).

Definition read_coefficients (t : coeff_text) : option dict :=
  years <- read_years t ;;
  c <- fill_table t years ;;
  foldM (add_previous years) [key_g; key_h] c.

(** ** The class [igrfModel] *)

(** A reference to an array: the arrays of [self.coefficients] are shared
    objects, [self.gcoeff = self.coefficients[year]['g']] does not copy. *)
Inductive array_ref : Type :=
  | Alias (key : Z) (gh : GH)     (* the array object stored in the table *)
  | Owned (a : np.ndarray).       (* a fresh array, referenced from here only *)

(** The attributes of an instance; [None] is an attribute not yet assigned. *)
Record igrfModel : Type := IgrfModel {
  verbose : bool;
  coefficients : dict;
  year : option Q;
  gcoeff : option array_ref;
  hcoeff : option array_ref
}.

(** What [print] writes. *)
Inductive message : Type :=
  | using_todays_date (y : Z)                             (* "Using today's date: ", year *)
  | error_unable_to_calculate_spherical                   (* 'Error- unable to calculate spherical coordinates ' *)
  | printed_triples (spher cart geog : list (option R)).  (* spher, cart, geog *)

(** The array a reference denotes in a given table. *)
Definition deref (c : dict) (a : array_ref) : option np.ndarray :=
  match a with
  | Owned x => Some x
  | Alias k gh => e <- dict_get (inject_Z k) c ;; Some (field_of gh (snd e))
  end.

(** [ref *= b]: the array object is updated where it lives. *)
Definition imul_ref (c : dict) (a : array_ref) (b : np.ndarray) : option (dict * array_ref) :=
  match a with
  | Owned x => x' <- np.imul x b ;; Some (c, Owned x')
  | Alias k gh =>
      e <- dict_get (inject_Z k) c ;;
      x' <- np.imul (field_of gh (snd e)) b ;;
      Some (assign k gh x' c, Alias k gh)
  end.

(** [scipy.misc.factorial]: zero on negative arguments. *)
Definition factorial (k : Z) : R :=
  if (k <? 0)%Z then 0%R
  else IZR (fold_left Z.mul (map Z.of_nat (seq 1 (Z.to_nat k))) 1%Z).

(** The class attribute [schmidt_norm]: with [n2, m2 = np.meshgrid(mm, nn)]
    the row index is the order m and the column index the degree n. *)
Definition schmidt_norm : np.ndarray :=
  map (fun m2 : nat =>
    map (fun n2 : nat =>
      (sqrt ((2 - (if (m2 =? 0)%nat then 1 else 0))
             * factorial (Z.of_nat n2 - Z.of_nat m2)
             / factorial (Z.of_nat n2 + Z.of_nat m2))
       * (-1) ^ m2)%R)
      (np.arange 15))
    (np.arange 15).

(** [np.min] and [np.max] of an integer array; empty arrays raise. *)
Definition amin (l : list Z) : option Z :=
  match l with
  | [] => None
  | x :: l' => Some (fold_left Z.min l' x)
  end.

Definition amax (l : list Z) : option Z :=
  match l with
  | [] => None
  | x :: l' => Some (fold_left Z.max l' x)
  end.

(** [c0 + dy * (c1 - c0)] *)
Definition interpolate (dy : Q) (c0 c1 : np.ndarray) : option np.ndarray :=
  d <- np.sub c1 c0 ;; np.add c0 (np.scale (Q2R dy) d).

Section Model.

(** [time.gmtime()[0]], the current UTC year. *)
Variable gmtime_year : Z.

(** The epoch selection of [set_year], before the normalisation: the two
    references, and for the [else] branch the bracketing epochs. *)
Definition select (coefficients : dict) (yr : Q) : option (array_ref * array_ref) :=
  let yearlist := sorted (keys coefficients) in
  if existsb (fun k => key_eqb k yr) yearlist
  then
    e <- dict_get yr coefficients ;;
    Some (Alias (fst e) key_g, Alias (fst e) key_h)
  else
    lo <- amin yearlist ;;
    hi <- amax yearlist ;;
    let yr := np.clipQ yr (inject_Z lo) (inject_Z hi) in
    y0 <- amax (filter (fun k => Qle_bool (inject_Z k) yr) yearlist) ;;
    let above := filter (fun k => (y0 <? k)%Z) yearlist in
    y1 <- (if (length above =? 0)%nat then last1 yearlist else amin above) ;;
    let dy := if (y1 =? y0)%Z then 0%Q
              else ((yr - inject_Z y0) / inject_Z (y1 - y0))%Q in
    c0 <- dict_get (inject_Z y0) coefficients ;;
    c1 <- dict_get (inject_Z y1) coefficients ;;
    gc <- interpolate dy (cg (snd c0)) (cg (snd c1)) ;;
    hc <- interpolate dy (ch (snd c0)) (ch (snd c1)) ;;
    Some (Owned gc, Owned hc).

Definition set_year (self : igrfModel) (yr : option Q)
    : option (igrfModel * list message) :=
  let '(yr, out) :=
    match yr with
    | None => (inject_Z gmtime_year,
               if verbose self then [using_todays_date gmtime_year] else [])
    | Some y => (y, [])
    end in
  refs <- select (coefficients self) yr ;;
  gc <- imul_ref (coefficients self) (fst refs) schmidt_norm ;;
  hc <- imul_ref (fst gc) (snd refs) schmidt_norm ;;
  Some (IgrfModel (verbose self) (fst hc) (Some yr) (Some (snd gc)) (Some (snd hc)), out).

(** [igrfModel(year, verbose)] *)
Definition __init__ (yr : option Q) (verbose : bool)
    : option (igrfModel * list message) :=
  c <- read_coefficients coeff ;;
  set_year (IgrfModel verbose c None None None) yr.

(** The arrays [self.gcoeff] and [self.hcoeff] as the methods read them. *)
Definition G_H (self : igrfModel) : option (np.ndarray * np.ndarray) :=
  gr <- gcoeff self ;; hr <- hcoeff self ;;
  G <- deref (coefficients self) gr ;;
  H <- deref (coefficients self) hr ;;
  Some (G, H).

End Model.

(** ** Field evaluation *)

(** A Python [dict] with string keys and numbers as values. *)
Definition sdict (A : Type) : Type := list (string * A).

Fixpoint sget {A : Type} (k : string) (d : sdict A) : option A :=
  match d with
  | [] => None
  | (k', v) :: d' => if String.eqb k' k then Some v else sget k d'
  end.

Fixpoint sset {A : Type} (k : string) (v : A) (d : sdict A) : sdict A :=
  match d with
  | [] => [(k, v)]
  | (k', v') :: d' => if String.eqb k' k then (k, v) :: d' else (k', v') :: sset k v d'
  end.

(** [d.update(new)] *)
Definition update {A : Type} (d new : sdict A) : sdict A :=
  fold_left (fun d kv => sset (fst kv) (snd kv) d) new d.

(** [{'name': ..., 'units': ..., 'year': self.year}] *)
Record metadata_ : Type := Metadata {
  name : string;
  units : string;
  meta_year : option Q
}.

(** The dictionary the evaluations return: ['field'], and with [metadata]
    also ['position'] and ['_']. *)
Record result : Type := Result {
  field : sdict R;
  position : option (sdict (option R));
  underscore : option metadata_
}.

Local Open Scope R_scope.

(** The class attributes. *)
Definition dtor : R := PI / 180.
Definition Re : R := 6371200.
Definition a2 : R := 40680631600000.
Definition b2 : R := 40408296000000.

(** [np.arctan2(y, x)] on the reals. *)
Definition arctan2 (y x : R) : R :=
  if Rlt_dec 0 x then atan (y / x)
  else if Rlt_dec x 0 then (if Rle_dec 0 y then atan (y / x) + PI else atan (y / x) - PI)
  else if Rlt_dec 0 y then PI / 2
  else if Rlt_dec y 0 then - (PI / 2)
  else 0.

(** The associated Legendre functions with the Condon-Shortley phase, by
    the upward recurrence in the degree: the functions that
    [scipy.special.lpmn] tabulates. *)
Fixpoint legendre_diagonal (m : nat) (z : R) : R :=
  match m with
  | O => 1
  | S m' => - (2 * INR m - 1) * sqrt (1 - z * z) * legendre_diagonal m' z
  end.

(** [(P(m, m+k), P(m, m+k-1))] *)
Fixpoint legendre_from (m k : nat) (z : R) : R * R :=
  match k with
  | O => (legendre_diagonal m z, 0)
  | S k' =>
      let pq := legendre_from m k' z in
      let n := INR (m + k) in
      (((2 * n - 1) * z * fst pq - (n + INR m - 1) * snd pq) / (n - INR m), fst pq)
  end.

Definition legendre_P (m n : nat) (z : R) : R :=
  if (n <? m)%nat then 0 else fst (legendre_from m (n - m) z).

Definition legendre_dP (m n : nat) (z : R) : R :=
  if (n <? m)%nat then 0
  else (INR n * z * legendre_P m n z - INR (n + m) * legendre_P m (n - 1) z) / (z * z - 1).

(** [lpmn(n, m, z)]: two arrays of [m+1] rows and [n+1] columns. *)
Definition legendre_lpmn (n m : nat) (z : R) : np.ndarray * np.ndarray :=
  (map (fun i => map (fun j => legendre_P i j z) (np.arange (S n))) (np.arange (S m)),
   map (fun i => map (fun j => legendre_dP i j z) (np.arange (S n))) (np.arange (S m))).

Section Field.

(** [scipy.special.lpmn(n, m, z)]: the library routine, a parameter of the
    model. *)
Variable lpmn : nat -> nat -> R -> np.ndarray * np.ndarray.

(** [- v] for a vector. *)
Definition vneg (v : list R) : list R := map Ropp v.

(** [igrfModel.spherical]; the source's defaults are [degree=14],
    [potential=False] and [metadata=True]. *)
Definition spherical (self : igrfModel) (r theta phi : R) (degree : nat)
    (potential metadata : bool) : option result :=
  let theta := np.clip theta (1 / 1000000) (PI - 1 / 1000000) in
  let '(Pmn, dPmn) := lpmn degree degree (cos theta) in
  let dPmn := np.scale (-1 * sin theta) dPmn in
  GH <- G_H self ;;
  let gg := np.slice2 (degree + 1) (fst GH) in
  let hh := np.slice2 (degree + 1) (snd GH) in
  Gmn <- np.mul gg Pmn ;;
  Hmn <- np.mul hh Pmn ;;
  let nn := np.slice1 (degree + 1) (np.arange 15) in
  let mm := np.slice1 (degree + 1) (np.arange 15) in
  let rradius := Rabs (Re / r) in
  let rfactor := map (fun n => rradius ^ (n + 2)) nn in
  let mmphi := map (fun m => INR m * phi) mm in
  let cphi := map cos mmphi in
  let sphi := map sin mmphi in
  gc <- np.Tdot Gmn cphi ;;
  hs <- np.Tdot Hmn sphi ;;
  msum <- np.ew1 Rplus gc hs ;;
  fld <- (if potential
          then v <- np.dot msum (map (fun x => x / rradius) rfactor) ;;
               Some (update [] [("V"%string, Re * v)])
          else Some []) ;;
  n1 <- np.ew1 Rmult (map (fun n => INR (n + 1)) nn) rfactor ;;
  br <- np.dot msum n1 ;;
  let fld := update fld [("r"%string, br)] in
  ms <- np.ew1 Rmult (map INR mm) sphi ;;
  mc <- np.ew1 Rmult (map INR mm) cphi ;;
  gs <- np.Tdot Gmn ms ;;
  hc <- np.Tdot Hmn mc ;;
  msum <- np.ew1 Rplus (vneg gs) hc ;;
  bphi <- np.dot msum rfactor ;;
  let fld := update fld [("phi"%string, - bphi / sin theta)] in
  gdP <- np.mul gg dPmn ;;
  hdP <- np.mul hh dPmn ;;
  gc <- np.Tdot gdP cphi ;;
  hs <- np.Tdot hdP sphi ;;
  msum <- np.ew1 Rplus gc hs ;;
  bth <- np.dot msum rfactor ;;
  let fld := update fld [("theta"%string, - bth)] in
  Some (if metadata
        then Result fld
               (Some [("r"%string, Some r); ("theta"%string, Some theta);
                      ("phi"%string, Some phi)])
               (Some (Metadata "IGRF magnetic field model" "nanoTesla" (year self)))
        else Result fld None None).

(** The body of the double loop of [_spherical0] for one [(n, m)]. *)
Definition spherical0_step (G H P dP : np.ndarray) (radius phi : R)
    (acc : R * R * R * R) (nm : nat * nat) : option (R * R * R * R) :=
  let '(V, Br, Btheta, Bphi) := acc in
  let '(n, m) := nm in
  let R := Re in
  g <- np.getitem G m n ;;
  h <- np.getitem H m n ;;
  p <- np.getitem P m n ;;
  dp <- np.getitem dP m n ;;
  Some (V + (R / radius) ^ (n + 1)
              * (g * cos (INR m * phi) + h * sin (INR m * phi)) * p,
        Br + (R / radius) ^ (n + 2) * INR (n + 1)
              * (g * cos (INR m * phi) + h * sin (INR m * phi)) * p,
        Btheta + (R / radius) ^ (n + 2)
              * (g * cos (INR m * phi) + h * sin (INR m * phi)) * dp,
        Bphi + (R / radius) ^ (n + 2)
              * (- g * sin (INR m * phi) + h * cos (INR m * phi)) * p * INR m).

(** [for n in range(0,degree+1): for m in range(0,n+1)] *)
Definition loop_nm (degree : nat) : list (nat * nat) :=
  flat_map (fun n => map (fun m => (n, m)) (seq 0 (n + 1))) (seq 0 (degree + 1)).

(** [igrfModel._spherical0]: the reference implementation, returning
    [(Br, -Btheta, -Bphi/sin(theta), V*R)]; [degree] defaults to 13. *)
Definition _spherical0 (self : igrfModel) (radius theta phi : R) (degree : nat)
    : option (R * R * R * R) :=
  GH <- G_H self ;;
  let '(P, dP) := lpmn degree degree (cos theta) in
  let dP := np.scale (-1 * sin theta) dP in
  acc <- foldM (spherical0_step (fst GH) (snd GH) P dP radius phi)
               (loop_nm degree) (0, 0, 0, 0) ;;
  let '(V, Br, Btheta, Bphi) := acc in
  Some (Br, - Btheta, - Bphi / sin theta, V * Re).

(** [kwargs.pop(name, None)] *)
Definition pop (name : string) (kwargs : sdict (option R)) : option R :=
  match sget name kwargs with
  | Some v => v
  | None => None
  end.

(** [not np.any([v is None for v in triple])]: the three values, if all are
    there. *)
Definition complete (triple : list (option R)) : option (R * R * R) :=
  match triple with
  | [Some a; Some b; Some c] => Some (a, b, c)
  | _ => None
  end.

(** [igrfModel.convert_coordinates]: what it prints, and the dictionary it
    returns unless it raises. *)
Definition convert_coordinates (spherical cartesian geographic : bool)
    (kwargs : sdict (option R)) : list message * option (sdict R) :=
  let spher := map (fun name => pop name kwargs) ["r"; "theta"; "phi"]%string in
  let cart := map (fun name => pop name kwargs) ["x"; "y"; "z"]%string in
  let geog := map (fun name => pop name kwargs) ["height"; "latitude"; "longitude"]%string in
  let '(out, result) :=
    if spherical then
      match complete cart, complete geog, complete spher with
      | Some (x, y, z), _, _ =>
          let r := sqrt (x ^ 2 + y ^ 2 + z ^ 2) in
          let theta := acos (z / r) in
          let phi := arctan2 y x in
          ([], update [] [("r", r); ("theta", theta); ("phi", phi)]%string)
      | None, Some (height, latitude, longitude), _ =>
          let alpha := latitude * dtor in
          let phi := longitude * dtor in
          let calpha := cos alpha in
          let salpha := sin alpha in
          let N := a2 / sqrt (a2 * calpha ^ 2 + b2 * salpha ^ 2) in
          let betaa := atan ((b2 / a2 * N + height) / (N + height) * (salpha / calpha)) in
          let theta := PI / 2 - betaa in
          let r := (N + height) * calpha / cos betaa in
          ([], update (update [] [("psi"%string, alpha - betaa)])
                      [("r", r); ("theta", theta); ("phi", phi)]%string)
      | None, None, None =>
          ([error_unable_to_calculate_spherical; printed_triples spher cart geog],
           update [] [("r", 0); ("theta", 0); ("phi", 0)]%string)
      | None, None, Some (r, theta, phi) =>
          ([], update [] [("r", r); ("theta", theta); ("phi", phi)]%string)
      end
    else ([], []) in
  if cartesian then
    match spher with
    | [Some s0; Some s1; Some s2] =>
        let x := s0 * sin s1 * cos s2 in
        let y := s0 * sin s1 * sin s2 in
        let z := s0 * cos s1 in
        (out, Some (update result [("x", x); ("y", y); ("z", z)]%string))
    | _ => (out, None)
    end
  else (out, Some result).

(** What the two front ends do once the coordinates are converted; an
    exception keeps what was printed before it. *)
Definition after_conversion (conv : list message * option (sdict R))
    (k : sdict R -> option result) : list message * option result :=
  (fst conv, coords <- snd conv ;; k coords).

(** [igrfModel.geographic]; [kwargs] are further coordinates handed on to
    the converter. *)
Definition geographic (self : igrfModel) (height latitude longitude : option R)
    (metadata potential : bool) (kwargs : sdict (option R))
    : list message * option result :=
  after_conversion
    (convert_coordinates true false false
       (update kwargs [("height", height); ("latitude", latitude);
                       ("longitude", longitude)]%string))
    (fun coords =>
       r <- sget "r" coords ;;
       theta <- sget "theta" coords ;;
       phi <- sget "phi" coords ;;
       res <- spherical self r theta phi 14 potential true ;;
       let psi := match sget "psi" coords with Some p => p | None => 0 end in
       ftheta <- sget "theta" (field res) ;;
       fr <- sget "r" (field res) ;;
       fphi <- sget "phi" (field res) ;;
       let north := - ftheta * cos psi - fr * sin psi in
       let east := fphi in
       let down := ftheta * sin psi - fr * cos psi in
       let fld := update (field res)
                    [("east", east); ("north", north); ("up", - down)]%string in
       b0 <- sget "north" fld ;;
       b1 <- sget "east" fld ;;
       b2 <- sget "up" fld ;;
       let total := sqrt (b0 ^ 2 + b1 ^ 2 + b2 ^ 2) in
       let horizontal := sqrt (b0 ^ 2 + b1 ^ 2) in
       let declination := arctan2 b1 b0 / dtor in
       let inclination := arctan2 b2 horizontal / dtor in
       let fld := update fld
                    [("inclination", inclination); ("declination", declination);
                     ("horizontal", horizontal); ("field", total)]%string in
       pos <- position res ;;
       let pos := if metadata
                  then update pos [("height", height); ("latitude", latitude);
                                   ("longitude", longitude)]%string
                  else pos in
       Some (Result fld (Some pos) (underscore res))).

(** [igrfModel.cartesian] *)
Definition cartesian (self : igrfModel) (x y z : option R)
    (metadata potential : bool) (kwargs : sdict (option R))
    : list message * option result :=
  after_conversion
    (convert_coordinates true false false
       (update kwargs [("x", x); ("y", y); ("z", z)]%string))
    (fun coords =>
       r <- sget "r" coords ;;
       theta <- sget "theta" coords ;;
       phi <- sget "phi" coords ;;
       res <- spherical self r theta phi 14 potential true ;;
       fr <- sget "r" (field res) ;;
       ftheta <- sget "theta" (field res) ;;
       fphi <- sget "phi" (field res) ;;
       let bx := fr * sin ftheta * cos fphi in
       let by_ := fr * sin ftheta * sin fphi in
       let bz := fr * cos ftheta in
       let fld := update (field res) [("x", bx); ("y", by_); ("z", bz)]%string in
       pos <- position res ;;
       let pos := if metadata
                  then update pos [("x", x); ("y", y); ("z", z)]%string
                  else pos in
       Some (Result fld (Some pos) (underscore res))).

End Field.

Local Close Scope R_scope.

(** ** The other evaluations and [fdi] *)

Local Open Scope R_scope.

Section Variants.

Variable lpmn : nat -> nat -> R -> np.ndarray * np.ndarray.

(** [igrfModel._spherical1]: the sums of [_spherical0] over whole arrays.
    The argument [degree] is overwritten with 14 in the first line. *)
Definition _spherical1 (self : igrfModel) (radius theta phi : R) (degree : nat)
    : option (R * R * R * R) :=
  let degree := 14%nat in
  let R := Re in
  GH <- G_H self ;;
  let G := fst GH in
  let H := snd GH in
  let '(P, dP) := lpmn degree degree (cos theta) in
  let dP := np.scale (-1 * sin theta) dP in
  let '(N, M) := np.meshgrid (np.arange (degree + 1)) (np.arange (degree + 1)) in
  let cosM := map (map (fun m => cos (INR m * phi))) M in
  let sinM := map (map (fun m => sin (INR m * phi))) M in
  (* G * np.cos(M*phi) + H * np.sin(M*phi) *)
  let term_c := (gc <- np.mul G cosM ;; hs <- np.mul H sinM ;; np.add gc hs) in
  (* -G * np.sin(M*phi) + H * np.cos(M*phi) *)
  let term_s := (gs <- np.mul (map (map Ropp) G) sinM ;;
                 hc <- np.mul H cosM ;; np.add gs hc) in
  tc <- term_c ;;
  v <- np.mul (map (map (fun n => (R / radius) ^ (n + 1))) N) tc ;;
  v <- np.mul v P ;;
  let V := np.sum v in
  b <- np.mul (map (map (fun n => (R / radius) ^ (n + 2))) N)
              (map (map (fun n => INR (n + 1))) N) ;;
  tc <- term_c ;;
  b <- np.mul b tc ;;
  b <- np.mul b P ;;
  let Br := np.sum b in
  tc <- term_c ;;
  t <- np.mul (map (map (fun n => (R / radius) ^ (n + 2))) N) tc ;;
  t <- np.mul t dP ;;
  let Btheta := np.sum t in
  ts <- term_s ;;
  p <- np.mul (map (map (fun n => (R / radius) ^ (n + 2))) N) ts ;;
  p <- np.mul p P ;;
  p <- np.mul p (map (map INR) M) ;;
  let Bphi := np.sum p in
  Some (Br, - Btheta, - Bphi / sin theta, V * R).

(** [igrfModel._spherical2]: the same sums with the shared factors computed
    once and [P] and [tmp] updated in place; [degree] is overwritten with
    14. The arrays [N] and [M] hold whole numbers as floats. *)
Definition _spherical2 (self : igrfModel) (radius theta phi : R) (degree : nat)
    : option (R * R * R * R) :=
  let degree := 14%nat in
  let '(P, dP) := lpmn degree degree (cos theta) in
  let dP := np.scale (-1 * sin theta) dP in
  let '(N, M) := np.meshgrid (np.arange (degree + 1)) (np.arange (degree + 1)) in
  let tmp := map (map (fun m => INR m * phi)) M in
  let Cphi := map (map cos) tmp in
  let Sphi := map (map sin) tmp in
  let Rr := Re / radius in
  let RrN2 := map (map (fun n => Rr ^ (n + 2))) N in
  P <- np.imul P RrN2 ;;
  GH <- G_H self ;;
  gs <- np.mul (map (map Ropp) (fst GH)) Sphi ;;
  hc <- np.mul (snd GH) Cphi ;;
  ts <- np.add gs hc ;;
  p <- np.mul ts P ;;
  p <- np.mul p (map (map INR) M) ;;
  let Bphi := np.sum p in
  gc <- np.mul (fst GH) Cphi ;;
  hs <- np.mul (snd GH) Sphi ;;
  tmp <- np.add gc hs ;;
  t <- np.mul RrN2 tmp ;;
  t <- np.mul t dP ;;
  let Btheta := np.sum t in
  tmp <- np.imul tmp P ;;
  b <- np.mul (map (map (fun n => INR n + 1)) N) tmp ;;
  let Br := np.sum b in
  let V := np.sum (np.scale (1 / Rr) tmp) in
  Some (Br, - Btheta, - Bphi / sin theta, V * Re).

(** [igrfModel._spherical3]: [_spherical2] on the entries where a
    coefficient is not zero, as vectors; [degree] is overwritten with 14. *)
Definition _spherical3 (self : igrfModel) (radius theta phi : R) (degree : nat)
    : option (R * R * R * R) :=
  let degree := 14%nat in
  GH <- G_H self ;;
  W <- np.lor (np.ne0 (fst GH)) (np.ne0 (snd GH)) ;;
  G <- np.bool_index (fst GH) W ;;
  H <- np.bool_index (snd GH) W ;;
  let '(P, dP) := lpmn degree degree (cos theta) in
  P <- np.bool_index P W ;;
  dP <- np.bool_index dP W ;;
  let dP := map (Rmult (-1 * sin theta)) dP in
  let '(N, M) := np.meshgrid (np.arange (degree + 1)) (np.arange (degree + 1)) in
  N <- np.bool_index N W ;;
  M <- np.bool_index M W ;;
  let tmp := map (fun m => INR m * phi) M in
  let Cphi := map cos tmp in
  let Sphi := map sin tmp in
  let Rr := Re / radius in
  let RrN2 := map (fun n => Rr ^ (n + 2)) N in
  P <- np.imul1 P RrN2 ;;
  gs <- np.ew1 Rmult (map Ropp G) Sphi ;;
  hc <- np.ew1 Rmult H Cphi ;;
  ts <- np.ew1 Rplus gs hc ;;
  p <- np.ew1 Rmult ts P ;;
  p <- np.ew1 Rmult p (map INR M) ;;
  let Bphi := np.sum1 p in
  gc <- np.ew1 Rmult G Cphi ;;
  hs <- np.ew1 Rmult H Sphi ;;
  tmp <- np.ew1 Rplus gc hs ;;
  t <- np.ew1 Rmult RrN2 tmp ;;
  t <- np.ew1 Rmult t dP ;;
  let Btheta := np.sum1 t in
  tmp <- np.imul1 tmp P ;;
  b <- np.ew1 Rmult (map (fun n => INR n + 1) N) tmp ;;
  let Br := np.sum1 b in
  let V := np.sum1 (map (Rmult (1 / Rr)) tmp) in
  Some (Br, - Btheta, - Bphi / sin theta, V * Re).

(** [igrfModel.fdi]: the keywords are converted, the result is handed to
    [geographic] as keywords, and the entries ['x'], ['y'], ['z'] of its
    field are read. The three flags are the keywords [spherical],
    [cartesian] and [geographic] of the call, if given. The method has no
    [return]: [tt] stands for its [None]. *)
Definition fdi (self : igrfModel) (spherical_flag cartesian_flag geographic_flag : bool)
    (kwargs : sdict (option R)) : list message * option unit :=
  let conv := convert_coordinates spherical_flag cartesian_flag geographic_flag kwargs in
  match snd conv with
  | None => (fst conv, None)
  | Some coords =>
      let res := geographic lpmn self None None None true false
                   (map (fun kv => (fst kv, Some (snd kv))) coords) in
      (fst conv ++ fst res,
       result <- snd res ;;
       let b := field result in
       b0 <- sget "x" b ;;
       b1 <- sget "y" b ;;
       b2 <- sget "z" b ;;
       let total := sqrt (b0 ^ 2 + b1 ^ 2 + b2 ^ 2) in
       let horizontal := sqrt (b0 ^ 2 + b1 ^ 2) in
       let declination := arctan2 b1 b0 / dtor in
       let inclination := arctan2 b2 horizontal / dtor in
       let fld := update (field result)
                    [("inclination", inclination); ("declination", declination);
                     ("horizontal", horizontal); ("field", total)]%string in
       Some tt)
  end.

End Variants.

Local Close Scope R_scope.

(** * Vocabulary of the statements

    Total readings of arrays and dictionaries, the parsed table and the
    sums the two field evaluations compute: the definitions the lemmas and
    theorems below are stated with. *)

(** ** Arrays *)

(** The element-wise combination of two lists of equal length. *)
Definition zipw {A B C : Type} (f : A -> B -> C) (xs : list A) (ys : list B) : list C :=
  map (fun p => f (fst p) (snd p)) (combine xs ys).

(** [a[i,j]] as a total function, for statements about entries in range. *)
Definition item (a : np.ndarray) (i j : nat) : R := nth j (nth i a []) 0%R.

(** [f 0 + f 1 + ... + f (k-1)] *)
Definition sum_f (k : nat) (f : nat -> R) : R :=
  fold_right Rplus 0%R (map f (seq 0 k)).

(** ** The parsed table *)

(** The epochs of the 12th generation table: 1900, 1905, ..., 2015, and the
    key 2020 of the secular variation column. *)
Definition year_keys : list Z := map (fun i => (1900 + 5 * Z.of_nat i)%Z) (seq 0 25).

(** The shape every table built by [read_coefficients] has, and keeps. *)
Definition wf_entry (e : Z * coeffs) : Prop :=
  np.rect 15 15 (cg (snd e)) /\ np.rect 15 15 (ch (snd e)).

Definition wf_table (c : dict) : Prop :=
  keys c = year_keys /\ Forall wf_entry c.

Definition wf_tableb (c : dict) : bool :=
  forallb (fun p => Z.eqb (fst p) (snd p)) (combine (keys c) year_keys)
  && (length (keys c) =? length year_keys)%nat
  && forallb (fun e => np.rectb 15 15 (cg (snd e)) && np.rectb 15 15 (ch (snd e))) c.

(** [self.coefficients] as [__init__] reads it from the embedded text: the
    value of [read_coefficients coeff], evaluated once
    ([read_coefficients_coeff] below). *)
Definition table : dict :=
  Eval lazy -[Q2R IZR Rplus Rminus Rmult Rdiv Rinv Ropp] in
  match read_coefficients coeff with
  | Some c => c
  | None => []
  end.

(** The table after the two loops, before the last column is added to its
    neighbour. *)
Definition filled : dict :=
  Eval lazy -[Q2R IZR Rplus Rminus Rmult Rdiv Rinv Ropp] in
  match (years <- read_years coeff ;; fill_table coeff years) with
  | Some c => c
  | None => []
  end.

(** The arrays of an entry of the table, for statements about its numbers. *)
Definition entry (c : dict) (k : Z) : coeffs :=
  match dict_get (inject_Z k) c with
  | Some (_, e) => e
  | None => Coeffs [] []
  end.

(** [a * schmidt_norm], entry by entry. *)
Definition normalized (a : np.ndarray) : np.ndarray := zipw (zipw Rmult) a schmidt_norm.

(** No coefficient of an order above its degree: the entries [a[m,n]] with
    [n < m] are zero. *)
Definition order_within_degree (a : np.ndarray) : Prop :=
  forall m n, (n < m)%nat -> (m < 15)%nat -> item a m n = 0%R.

(** The position of the epoch in the span 2015..2020, as a fraction that
    stops at one. *)
Definition last_span_fraction (e : Q) : R := Q2R ((Qmin e 2020 - 2015) / 5).

(** The model [igrfModel(2000)]. *)
Definition model_2000 : igrfModel :=
  IgrfModel false
    (assign 2000 key_h (normalized (ch (entry table 2000)))
       (assign 2000 key_g (normalized (cg (entry table 2000))) table))
    (Some 2000%Q) (Some (Alias 2000 key_g)) (Some (Alias 2000 key_h)).

(** ** The sums of the field evaluations *)

(** [msum]: the sum over the order m, for each degree n, of a product array
    [a] against [f] plus a product array [b] against [g]. *)
Definition msum_of (k : nat) (a b : np.ndarray) (f g : nat -> R) (n : nat) : R :=
  (sum_f k (fun m => item a m n * f m) + sum_f k (fun m => item b m n * g m))%R.

(** The four numbers [spherical] computes, from [gg], [hh] and the Legendre
    arrays: potential, radial, azimuthal and colatitude components as the
    dictionary holds them. *)
Definition spherical_V (k : nat) (gg hh P : np.ndarray) (rho phi : R) : R :=
  (Re * sum_f k (fun n =>
     msum_of k (zipw (zipw Rmult) gg P) (zipw (zipw Rmult) hh P)
       (fun m => cos (INR m * phi)) (fun m => sin (INR m * phi)) n
     * (rho ^ (n + 2) / rho)))%R.

Definition spherical_r (k : nat) (gg hh P : np.ndarray) (rho phi : R) : R :=
  sum_f k (fun n =>
     msum_of k (zipw (zipw Rmult) gg P) (zipw (zipw Rmult) hh P)
       (fun m => cos (INR m * phi)) (fun m => sin (INR m * phi)) n
     * (INR (n + 1) * rho ^ (n + 2)))%R.

Definition spherical_phi (k : nat) (gg hh P : np.ndarray) (rho phi sth : R) : R :=
  (- sum_f k (fun n =>
       (- sum_f k (fun m => item (zipw (zipw Rmult) gg P) m n * (INR m * sin (INR m * phi)))
        + sum_f k (fun m => item (zipw (zipw Rmult) hh P) m n * (INR m * cos (INR m * phi))))
       * rho ^ (n + 2))
   / sth)%R.

Definition spherical_theta (k : nat) (gg hh dP : np.ndarray) (rho phi : R) : R :=
  (- sum_f k (fun n =>
       msum_of k (zipw (zipw Rmult) gg dP) (zipw (zipw Rmult) hh dP)
         (fun m => cos (INR m * phi)) (fun m => sin (INR m * phi)) n
       * rho ^ (n + 2)))%R.

(** The sum of [t n m] over [n = 0..d], [m = 0..n], as the loops visit the
    pairs. *)
Definition ref_sum (d : nat) (t : nat -> nat -> R) : R :=
  sum_f (d + 1) (fun n => sum_f (n + 1) (fun m => t n m)).

(** One pass of the loop body with every index in range. *)
Definition step_total (G H P dP : np.ndarray) (radius phi : R)
    (acc : R * R * R * R) (nm : nat * nat) : R * R * R * R :=
  let '(V, Br, Btheta, Bphi) := acc in
  let '(n, m) := nm in
  let tc := (item G m n * cos (INR m * phi) + item H m n * sin (INR m * phi))%R in
  let ts := (- item G m n * sin (INR m * phi) + item H m n * cos (INR m * phi))%R in
  ((V + (Re / radius) ^ (n + 1) * tc * item P m n)%R,
   (Br + (Re / radius) ^ (n + 2) * INR (n + 1) * tc * item P m n)%R,
   (Btheta + (Re / radius) ^ (n + 2) * tc * item dP m n)%R,
   (Bphi + (Re / radius) ^ (n + 2) * ts * item P m n * INR m)%R).

(** The four numbers [_spherical0] returns. *)
Definition reference_V (d : nat) (G H P : np.ndarray) (q phi : R) : R :=
  (ref_sum d (fun n m =>
     q ^ (n + 1)
     * (item G m n * cos (INR m * phi) + item H m n * sin (INR m * phi))
     * item P m n) * Re)%R.

Definition reference_r (d : nat) (G H P : np.ndarray) (q phi : R) : R :=
  ref_sum d (fun n m =>
     q ^ (n + 2) * INR (n + 1)
     * (item G m n * cos (INR m * phi) + item H m n * sin (INR m * phi))
     * item P m n)%R.

Definition reference_theta (d : nat) (G H dP : np.ndarray) (q phi : R) : R :=
  (- ref_sum d (fun n m =>
     q ^ (n + 2)
     * (item G m n * cos (INR m * phi) + item H m n * sin (INR m * phi))
     * item dP m n))%R.

Definition reference_phi (d : nat) (G H P : np.ndarray) (q phi sth : R) : R :=
  (- ref_sum d (fun n m =>
     q ^ (n + 2)
     * (- item G m n * sin (INR m * phi) + item H m n * cos (INR m * phi))
     * item P m n * INR m) / sth)%R.

(** ** The front ends *)

(** The two front ends at a point given by its spherical coordinates (the
    way [fdi] calls [geographic]). *)
Definition spherical_kwargs (r theta phi : R) : sdict (option R) :=
  [("r"%string, Some r); ("theta"%string, Some theta); ("phi"%string, Some phi)].

(** What a front end returned, for statements about its dictionary. *)
Definition returned (x : list message * option result) : result :=
  match snd x with
  | Some res => res
  | None => Result [] None None
  end.


(** ** Vocabulary of the further properties *)

Definition GH_eqb (a b : GH) : bool :=
  match a, b with
  | key_g, key_g | key_h, key_h => true
  | _, _ => false
  end.

(** The line is a row for the coefficient [gh n m]. *)
Definition lists (gh : GH) (n m : nat) (line : text_line) : bool :=
  match line with
  | Blank => false
  | Row gh' n' m' _ => GH_eqb gh gh' && (n =? n')%nat && (m =? m')%nat
  end.

(** The invariant of the parser for a coefficient without a row: arrays of
    the table's shape whose entry [[m,n]] of the array [gh] is zero. *)
Definition zero_at (gh : GH) (n m : nat) (e : Z * coeffs) : Prop :=
  wf_entry e /\ item (field_of gh (snd e)) m n = 0%R.

(** The radius of curvature [N] that [convert_coordinates] computes for a
    geodetic latitude in degrees, and the geocentric latitude [betaa]. *)
Definition prime_vertical (latitude : R) : R :=
  (a2 / sqrt (a2 * cos (latitude * dtor) ^ 2 + b2 * sin (latitude * dtor) ^ 2))%R.

Definition geocentric_latitude (height latitude : R) : R :=
  atan ((b2 / a2 * prime_vertical latitude + height) / (prime_vertical latitude + height)
        * (sin (latitude * dtor) / cos (latitude * dtor)))%R.

(** The array of [k] rows and [k] columns with [g i j] at [[i,j]], and the
    index pairs of such an array row after row. *)
Definition tabulate {A : Type} (k : nat) (g : nat -> nat -> A) : list (list A) :=
  map (fun i => map (fun j => g i j) (seq 0 k)) (seq 0 k).

Definition cells (k : nat) : list (nat * nat) :=
  flat_map (fun i => map (fun j => (i, j)) (seq 0 k)) (seq 0 k).

(** ** The numbers of the text *)

(** The position of a label among the labels of the columns,
    [lines[4].split()[3:]]. *)
Fixpoint index_of (label : string) (l : list string) : nat :=
  match l with
  | [] => O
  | x :: l' => if String.eqb x label then O else S (index_of label l')
  end.

Definition column (t : coeff_text) (label : string) : nat :=
  index_of label (skipn 3 (header t)).

(** The number a row gives in the column of index [indx]. *)
Definition column_of (indx : nat) (line : text_line) : R :=
  match line with
  | Blank => 0%R
  | Row _ _ _ val => nth indx val 0%R
  end.

(** The number the text gives for the coefficient [gh n m] under a column
    label: read off the row of that coefficient, zero when the text has no
    such row. The parser is not involved. *)
Definition listed (t : coeff_text) (label : string) (gh : GH) (n m : nat) : R :=
  match find (lists gh n m) (body t) with
  | Some line => column_of (column t label) line
  | None => 0%R
  end.

(** The labels [(gh, (m, n))] of the entries of the two arrays of an epoch. *)
Definition labels : list (GH * (nat * nat)) :=
  map (pair key_g) (cells 15) ++ map (pair key_h) (cells 15).

(** * Properties *)

(** ** Arrays of equal shape *)

Module np_facts.
Import np.

Lemma mapM_total {A B : Type} (f : A -> B) (l : list A) :
  mapM (fun x => Some (f x)) l = Some (map f l).
Proof.
  induction l as [|x l IH]; simpl; [reflexivity|].
  rewrite IH. reflexivity.
Qed.

Lemma mapM_ext_in {A B : Type} (f g : A -> option B) (l : list A) :
  (forall x, In x l -> f x = g x) -> mapM f l = mapM g l.
Proof.
  induction l as [|x l IH]; simpl; intros Hfg; [reflexivity|].
  rewrite (Hfg x) by (left; reflexivity).
  rewrite IH by (intros y Hy; apply Hfg; right; exact Hy).
  reflexivity.
Qed.

Lemma broadcast_same {A B C : Type} (f : A -> B -> option C) xs ys :
  length xs = length ys ->
  broadcast f xs ys = mapM (fun p => f (fst p) (snd p)) (combine xs ys).
Proof.
  intros E. unfold broadcast. rewrite E, Nat.eqb_refl. reflexivity.
Qed.

Lemma ew1_same (f : R -> R -> R) (x y : vector) :
  length x = length y -> ew1 f x y = Some (zipw f x y).
Proof.
  intros E. unfold ew1. rewrite broadcast_same by exact E.
  apply (mapM_total (fun p => f (fst p) (snd p))).
Qed.

Lemma zipw_length {A B C : Type} (f : A -> B -> C) xs ys :
  length xs = length ys -> length (zipw f xs ys) = length xs.
Proof.
  intros E. unfold zipw. rewrite length_map, length_combine, E. apply Nat.min_id.
Qed.

Lemma rect_cons r c row a :
  rect (S r) c (row :: a) <-> length row = c /\ rect r c a.
Proof.
  unfold rect; simpl; split.
  - intros [Hl Hf]. inversion Hf; subst. repeat split; auto.
  - intros [Hr [Hl Hf]]. split; [congruence | constructor; assumption].
Qed.

Lemma rect_nil_inv r c : rect r c [] -> r = O.
Proof. intros [E _]; simpl in E; congruence. Qed.

Lemma ew2_rect (f : R -> R -> R) r c (a b : ndarray) :
  rect r c a -> rect r c b -> ew2 f a b = Some (zipw (zipw f) a b).
Proof.
  intros Ha Hb. unfold ew2.
  rewrite broadcast_same by (destruct Ha, Hb; congruence).
  revert r b Ha Hb. induction a as [|x a IH]; intros r [|y b] Ha Hb; try reflexivity.
  destruct r as [|r]; [destruct Ha; discriminate|].
  apply rect_cons in Ha, Hb. destruct Ha as [Hx Ha], Hb as [Hy Hb].
  simpl. rewrite ew1_same by congruence. simpl.
  rewrite (IH r b Ha Hb). reflexivity.
Qed.

Lemma zipw2_rect (f : R -> R -> R) r c (a b : ndarray) :
  rect r c a -> rect r c b -> rect r c (zipw (zipw f) a b).
Proof.
  revert r b. induction a as [|x a IH]; intros r [|y b] Ha Hb;
    try (destruct Ha as [Ha _], Hb as [Hb _]; simpl in *; congruence).
  - exact Ha.
  - destruct r as [|r]; [destruct Ha; discriminate|].
    apply rect_cons in Ha, Hb. destruct Ha as [Hx Ha], Hb as [Hy Hb].
    change (zipw (zipw f) (x :: a) (y :: b))
      with (zipw f x y :: zipw (zipw f) a b).
    apply rect_cons. split; [|apply IH; assumption].
    rewrite zipw_length; congruence.
Qed.

Lemma scale_rect s r c a : rect r c a -> rect r c (scale s a).
Proof.
  intros [Hl Hf]. split; unfold scale.
  - rewrite length_map. exact Hl.
  - apply Forall_map. revert Hf. apply Forall_impl.
    intros row E. rewrite length_map. exact E.
Qed.

Lemma shape_eqb_rect r c a b : rect r c a -> rect r c b -> shape_eqb a b = true.
Proof.
  intros [Hla Hfa] [Hlb Hfb]. unfold shape_eqb.
  rewrite Hla, Hlb, Nat.eqb_refl. simpl.
  apply forallb_forall. intros [x y] Hin. simpl.
  rewrite Forall_forall in Hfa, Hfb.
  rewrite (Hfa x) by (eapply in_combine_l; exact Hin).
  rewrite (Hfb y) by (eapply in_combine_r; exact Hin).
  apply Nat.eqb_refl.
Qed.

Lemma inplace_rect (f : R -> R -> R) r c a b :
  rect r c a -> rect r c b ->
  inplace (ew2 f) a b = Some (zipw (zipw f) a b).
Proof.
  intros Ha Hb. unfold inplace. rewrite (ew2_rect f Ha Hb). simpl.
  rewrite (shape_eqb_rect (zipw2_rect f Ha Hb) Ha). reflexivity.
Qed.

Lemma item_zipw2 (f : R -> R -> R) r c a b i j :
  rect r c a -> rect r c b -> (i < r)%nat -> (j < c)%nat ->
  item (zipw (zipw f) a b) i j = f (item a i j) (item b i j).
Proof.
  revert r b i. induction a as [|x a IH]; intros r [|y b] i Ha Hb Hi Hj;
    try (destruct Ha as [Ha _], Hb as [Hb _]; simpl in *; lia).
  destruct r as [|r]; [lia|].
  apply rect_cons in Ha, Hb. destruct Ha as [Hx Ha], Hb as [Hy Hb].
  destruct i as [|i].
  - unfold item; simpl. clear IH Ha Hb.
    revert c y j Hx Hy Hj. induction x as [|u x IHx]; intros c [|v y] j Hx Hy Hj;
      simpl in *; try lia.
    destruct j as [|j]; [reflexivity|].
    destruct c as [|c]; [lia|].
    apply (IHx c); lia.
  - apply (IH r b i Ha Hb); lia.
Qed.

Lemma item_scale s r c a i j :
  rect r c a -> (i < r)%nat -> (j < c)%nat ->
  item (scale s a) i j = (s * item a i j)%R.
Proof.
  intros [Hl Hf] Hi Hj. unfold item, scale.
  assert (Hrow : length (nth i a []) = c).
  { rewrite Forall_forall in Hf. apply Hf. apply nth_In. lia. }
  change (nth i (map (map (Rmult s)) a) [])
    with (nth i (map (map (Rmult s)) a) (map (Rmult s) [])).
  rewrite (map_nth (map (Rmult s))).
  rewrite (nth_indep _ 0%R (s * 0)%R) by (rewrite length_map; lia).
  apply (map_nth (Rmult s)).
Qed.

(** Two arrays of one shape with the same entries are the same array. *)
Lemma rect_ext r c a b :
  rect r c a -> rect r c b ->
  (forall i j, (i < r)%nat -> (j < c)%nat -> item a i j = item b i j) ->
  a = b.
Proof.
  revert r b. induction a as [|x a IH]; intros r [|y b] Ha Hb Hij;
    try (destruct Ha as [Ha _], Hb as [Hb _]; simpl in *; congruence).
  destruct r as [|r]; [destruct Ha; discriminate|].
  apply rect_cons in Ha, Hb. destruct Ha as [Hx Ha], Hb as [Hy Hb].
  f_equal.
  - apply (nth_ext _ _ 0%R 0%R); [congruence|].
    intros j Hj. apply (Hij O j); lia.
  - apply (IH r b Ha Hb). intros i j Hi Hj. apply (Hij (S i) j); lia.
Qed.

Lemma getitem_item r c a i j :
  rect r c a -> (i < r)%nat -> (j < c)%nat -> getitem a i j = Some (item a i j).
Proof.
  intros [Hl Hf] Hi Hj. unfold getitem, item.
  assert (Hrow : length (nth i a []) = c).
  { rewrite Forall_forall in Hf. apply Hf. apply nth_In. lia. }
  rewrite (nth_error_nth' a []) by lia. simpl.
  apply nth_error_nth'. lia.
Qed.

Lemma rectb_rect r c a : rectb r c a = true -> rect r c a.
Proof.
  unfold rectb, rect. rewrite andb_true_iff, Nat.eqb_eq, forallb_forall, Forall_forall.
  intros [Hl Hf]. split; [exact Hl|].
  intros x Hx. apply Nat.eqb_eq. apply Hf. exact Hx.
Qed.

End np_facts.


(** ** The dictionary *)

Lemma key_eqb_spec k q : key_eqb k q = true <-> (inject_Z k == q)%Q.
Proof. apply Qeq_bool_iff. Qed.

Lemma key_eqb_inject k k' : key_eqb k (inject_Z k') = Z.eqb k k'.
Proof.
  unfold key_eqb, Qeq_bool, inject_Z; simpl.
  rewrite !Z.mul_1_r. reflexivity.
Qed.

Lemma key_eqb_proper k q q' : (q == q')%Q -> key_eqb k q = key_eqb k q'.
Proof.
  intros E. destruct (key_eqb k q') eqn:E'.
  - apply key_eqb_spec. apply key_eqb_spec in E'. rewrite E. exact E'.
  - destruct (key_eqb k q) eqn:E''; [|reflexivity].
    apply key_eqb_spec in E''. rewrite E in E''. apply key_eqb_spec in E''. congruence.
Qed.

Lemma dict_get_proper q q' c : (q == q')%Q -> dict_get q c = dict_get q' c.
Proof.
  intros E. induction c as [|[k e] c IH]; simpl; [reflexivity|].
  rewrite (key_eqb_proper k E), IH. reflexivity.
Qed.

Lemma dict_get_key q c k e : dict_get q c = Some (k, e) -> (inject_Z k == q)%Q /\ In (k, e) c.
Proof.
  induction c as [|[k0 e0] c IH]; simpl; [discriminate|].
  destruct (key_eqb k0 q) eqn:E.
  - intros H; injection H as <- <-. split; [apply key_eqb_spec; exact E | left; reflexivity].
  - intros H. destruct (IH H) as [H1 H2]. split; [exact H1 | right; exact H2].
Qed.

Lemma dict_get_in k c :
  In k (keys c) -> exists e, dict_get (inject_Z k) c = Some (k, e).
Proof.
  induction c as [|[k0 e0] c IH]; simpl; [intros []|].
  rewrite key_eqb_inject. destruct (Z.eqb_spec k0 k) as [->|Hne].
  - intros _. exists e0. reflexivity.
  - intros [E|Hin]; [congruence | apply IH; exact Hin].
Qed.

Lemma keys_assign k gh a c : keys (assign k gh a c) = keys c.
Proof.
  unfold keys. induction c as [|[k0 e0] c IH]; simpl; [reflexivity|].
  destruct (Z.eqb k0 k); simpl; [reflexivity | rewrite IH; reflexivity].
Qed.

(** Reading after [c[k][gh] = a]: the entry of [k] carries the new array,
    every other entry is as before. *)
Lemma dict_get_assign q k gh a c :
  dict_get q (assign k gh a c) =
  match dict_get q c with
  | Some (k', e) => Some (k', if Z.eqb k' k then with_field gh a e else e)
  | None => None
  end.
Proof.
  induction c as [|[k0 e0] c IH]; simpl; [reflexivity|].
  destruct (Z.eqb_spec k0 k) as [->|Hne]; simpl.
  - destruct (key_eqb k q) eqn:E.
    + rewrite Z.eqb_refl. reflexivity.
    + destruct (dict_get q c) as [[k' e]|] eqn:G; [|reflexivity].
      destruct (Z.eqb_spec k' k) as [->|_]; [|reflexivity].
      apply dict_get_key in G. destruct G as [G _].
      apply key_eqb_spec in G. congruence.
  - destruct (key_eqb k0 q) eqn:E.
    + destruct (Z.eqb_spec k0 k); [contradiction | reflexivity].
    + exact IH.
Qed.

(** ** The parsed table *)

Import np_facts.

Lemma read_years_coeff :
  read_years coeff = Some (map (fun k => inject_Z k * (10 # 10))%Q year_keys).
Proof. vm_compute. reflexivity. Qed.

Lemma fill_table_coeff :
  (years <- read_years coeff ;; fill_table coeff years) = Some filled.
Proof. vm_compute. reflexivity. Qed.

Lemma read_coefficients_coeff : read_coefficients coeff = Some table.
Proof. vm_compute. reflexivity. Qed.

Lemma wf_tableb_wf c : wf_tableb c = true -> wf_table c.
Proof.
  unfold wf_tableb. rewrite !andb_true_iff. intros [[Hk Hl] Hs]. split.
  - apply Nat.eqb_eq in Hl. revert Hk Hl. generalize year_keys. generalize (keys c).
    induction l as [|x l IH]; intros [|y l'] Hk Hl; simpl in *; try discriminate; [reflexivity|].
    apply andb_true_iff in Hk. destruct Hk as [Hxy Hk].
    apply Z.eqb_eq in Hxy. f_equal; [exact Hxy | apply IH; [exact Hk | congruence]].
  - apply Forall_forall. intros e He. rewrite forallb_forall in Hs.
    specialize (Hs e He). apply andb_true_iff in Hs.
    split; apply rectb_rect; tauto.
Qed.

Lemma wf_table_table : wf_table table.
Proof. apply wf_tableb_wf. vm_compute. reflexivity. Qed.

Lemma wf_table_filled : wf_table filled.
Proof. apply wf_tableb_wf. vm_compute. reflexivity. Qed.

Lemma schmidt_norm_rect : np.rect 15 15 schmidt_norm.
Proof. apply rectb_rect. vm_compute. reflexivity. Qed.

Lemma wf_get c k :
  wf_table c -> In k year_keys ->
  exists e, dict_get (inject_Z k) c = Some (k, e)
            /\ np.rect 15 15 (cg e) /\ np.rect 15 15 (ch e).
Proof.
  intros [Hk Hs] Hin. rewrite <- Hk in Hin.
  destruct (dict_get_in k c Hin) as [e He]. exists e. split; [exact He|].
  apply dict_get_key in He. destruct He as [_ He].
  rewrite Forall_forall in Hs. exact (Hs _ He).
Qed.

Lemma wf_assign c k gh a :
  wf_table c -> np.rect 15 15 a -> wf_table (assign k gh a c).
Proof.
  intros [Hk Hs] Ha. split; [rewrite keys_assign; exact Hk|].
  clear Hk. induction Hs as [|[k0 e0] c He Hs IH]; simpl; [constructor|].
  destruct (Z.eqb k0 k).
  - constructor; [|exact Hs].
    destruct He as [Hg Hh]. destruct gh; split; simpl in *; assumption.
  - constructor; assumption.
Qed.


(** ** Interpolation and normalisation of arrays *)

Lemma interpolate_rect dy c0 c1 :
  np.rect 15 15 c0 -> np.rect 15 15 c1 ->
  exists a, interpolate dy c0 c1 = Some a /\ np.rect 15 15 a /\
    forall i j, (i < 15)%nat -> (j < 15)%nat ->
      item a i j = (item c0 i j + Q2R dy * (item c1 i j - item c0 i j))%R.
Proof.
  intros H0 H1. unfold interpolate, np.sub, np.add.
  rewrite (ew2_rect Rminus H1 H0). simpl.
  pose proof (zipw2_rect Rminus H1 H0) as Hd.
  pose proof (scale_rect (Q2R dy) Hd) as Hs.
  rewrite (ew2_rect Rplus H0 Hs).
  eexists. split; [reflexivity|]. split; [apply zipw2_rect; assumption|].
  intros i j Hi Hj.
  rewrite (item_zipw2 Rplus H0 Hs Hi Hj), (item_scale (Q2R dy) Hd Hi Hj),
    (item_zipw2 Rminus H1 H0 Hi Hj).
  reflexivity.
Qed.

(** With a fraction of zero the interpolation returns a copy of [c0]. *)
Lemma interpolate_zero dy c0 c1 :
  (dy == 0)%Q -> np.rect 15 15 c0 -> np.rect 15 15 c1 ->
  interpolate dy c0 c1 = Some c0.
Proof.
  intros E H0 H1. destruct (interpolate_rect dy H0 H1) as [a [Ha [Hr Hij]]].
  rewrite Ha. f_equal. apply (rect_ext Hr H0).
  intros i j Hi Hj. rewrite (Hij i j Hi Hj), (Qeq_eqR _ _ E).
  unfold Q2R; simpl. lra.
Qed.

Lemma imul_norm a : np.rect 15 15 a -> np.imul a schmidt_norm = Some (normalized a).
Proof. intros Ha. exact (inplace_rect Rmult Ha schmidt_norm_rect). Qed.

Lemma normalized_rect a : np.rect 15 15 a -> np.rect 15 15 (normalized a).
Proof. intros Ha. exact (zipw2_rect Rmult Ha schmidt_norm_rect). Qed.

Lemma item_normalized a i j :
  np.rect 15 15 a -> (i < 15)%nat -> (j < 15)%nat ->
  item (normalized a) i j = (item a i j * item schmidt_norm i j)%R.
Proof. intros Ha. apply (item_zipw2 Rmult Ha schmidt_norm_rect). Qed.

(** ** The clamp of the epoch *)

Lemma clipQ_below x lo hi : (x < lo)%Q -> (lo <= hi)%Q -> np.clipQ x lo hi = lo.
Proof.
  intros H1 H2. unfold np.clipQ, Qmax, Qmin, GenericMinMax.gmax, GenericMinMax.gmin.
  rewrite (proj1 (Qlt_alt x lo) H1).
  destruct (lo ?= hi)%Q eqn:E; try reflexivity.
  apply Qgt_alt in E. Lqa.lra.
Qed.

Lemma clipQ_above x lo hi : (hi < x)%Q -> (lo <= hi)%Q -> np.clipQ x lo hi = hi.
Proof.
  intros H1 H2. unfold np.clipQ, Qmax, Qmin, GenericMinMax.gmax, GenericMinMax.gmin.
  destruct (x ?= lo)%Q eqn:E.
  - apply Qeq_alt in E. Lqa.lra.
  - apply Qlt_alt in E. Lqa.lra.
  - assert (E' : (x ?= hi)%Q = Gt) by (apply Qgt_alt; exact H1).
    rewrite E'. reflexivity.
Qed.

Lemma clipQ_inside x lo hi : (lo <= x)%Q -> (x <= hi)%Q -> np.clipQ x lo hi = x.
Proof.
  intros H1 H2. unfold np.clipQ, Qmax, Qmin, GenericMinMax.gmax, GenericMinMax.gmin.
  destruct (x ?= lo)%Q eqn:E.
  - destruct (x ?= hi)%Q eqn:E'; try reflexivity. apply Qgt_alt in E'. Lqa.lra.
  - apply Qlt_alt in E. Lqa.lra.
  - destruct (x ?= hi)%Q eqn:E'; try reflexivity. apply Qgt_alt in E'. Lqa.lra.
Qed.

(** ** The epoch selection on a well-formed table *)

Lemma year_keys_eq :
  year_keys = [1900; 1905; 1910; 1915; 1920; 1925; 1930; 1935; 1940; 1945; 1950;
               1955; 1960; 1965; 1970; 1975; 1980; 1985; 1990; 1995; 2000; 2005;
               2010; 2015; 2020]%Z.
Proof. reflexivity. Qed.

Lemma sorted_year_keys : sorted year_keys = year_keys.
Proof. reflexivity. Qed.

Lemma key_eqb_false k q : ~ (inject_Z k == q)%Q -> key_eqb k q = false.
Proof.
  intros H. destruct (key_eqb k q) eqn:E; [|reflexivity].
  apply key_eqb_spec in E. contradiction.
Qed.

Lemma Qle_bool_true p q : (p <= q)%Q -> Qle_bool p q = true.
Proof. apply Qle_bool_iff. Qed.

Lemma Qle_bool_false p q : (q < p)%Q -> Qle_bool p q = false.
Proof.
  intros H. destruct (Qle_bool p q) eqn:E; [|reflexivity].
  apply Qle_bool_iff in E. Lqa.lra.
Qed.

(** Decide that no concrete key equals the epoch, from the hypotheses at
    hand. *)
Ltac decide_keys :=
  repeat match goal with
  | |- context [key_eqb ?k ?q] =>
      rewrite (@key_eqb_false k q) by (unfold inject_Z; Lqa.lra)
  end.

Lemma select_exact c k yr :
  wf_table c -> In k year_keys -> (inject_Z k == yr)%Q ->
  select c yr = Some (Alias k key_g, Alias k key_h).
Proof.
  intros Hwf Hin E. unfold select.
  destruct Hwf as [Hk Hs]. rewrite Hk, sorted_year_keys.
  assert (Hex : existsb (fun k0 => key_eqb k0 yr) year_keys = true).
  { apply existsb_exists. exists k. split; [exact Hin | apply key_eqb_spec; exact E]. }
  rewrite Hex.
  destruct (wf_get (conj Hk Hs) Hin) as [e [He _]].
  rewrite <- (dict_get_proper c E), He. reflexivity.
Qed.

(** Below the first epoch: the clamp gives 1900, the bracket is 1900..1905
    and the fraction is zero. *)
Lemma select_below c yr :
  wf_table c -> (yr < 1900)%Q ->
  exists e, dict_get (inject_Z 1900) c = Some (1900%Z, e) /\
            select c yr = Some (Owned (cg e), Owned (ch e)).
Proof.
  intros Hwf Hlt. pose proof Hwf as [Hk Hs].
  destruct (@wf_get c 1900%Z Hwf) as [e0 [He0 [Hg0 Hh0]]];
    [rewrite year_keys_eq; simpl; tauto|].
  destruct (@wf_get c 1905%Z Hwf) as [e1 [He1 [Hg1 Hh1]]];
    [rewrite year_keys_eq; simpl; tauto|].
  exists e0. split; [exact He0|].
  unfold select. rewrite Hk, sorted_year_keys.
  replace (existsb (fun k => key_eqb k yr) year_keys) with false
    by (rewrite year_keys_eq; cbn [existsb]; decide_keys; reflexivity).
  change (amin year_keys) with (Some 1900%Z).
  change (amax year_keys) with (Some 2020%Z).
  cbn [bind].
  rewrite (@clipQ_below yr (inject_Z 1900) (inject_Z 2020))
    by (unfold inject_Z; Lqa.lra).
  change (filter (fun k => Qle_bool (inject_Z k) (inject_Z 1900)) year_keys)
    with [1900%Z].
  change (amax [1900%Z]) with (Some 1900%Z). cbn [bind].
  change (filter (fun k => (1900 <? k)%Z) year_keys) with (tl year_keys).
  change (length (tl year_keys) =? 0)%nat with false. cbv iota.
  change (amin (tl year_keys)) with (Some 1905%Z). cbn [bind].
  change (1905 =? 1900)%Z with false. cbv iota.
  rewrite He0, He1. cbn [bind snd].
  rewrite (@interpolate_zero _ (cg e0) (cg e1)) by (assumption || (vm_compute; reflexivity)).
  rewrite (@interpolate_zero _ (ch e0) (ch e1)) by (assumption || (vm_compute; reflexivity)).
  reflexivity.
Qed.

(** Beyond the last key: the clamp gives 2020, no epoch lies above it and
    the fraction is zero. *)
Lemma select_above c yr :
  wf_table c -> (2020 < yr)%Q ->
  exists e, dict_get (inject_Z 2020) c = Some (2020%Z, e) /\
            select c yr = Some (Owned (cg e), Owned (ch e)).
Proof.
  intros Hwf Hlt. pose proof Hwf as [Hk Hs].
  destruct (@wf_get c 2020%Z Hwf) as [e0 [He0 [Hg0 Hh0]]];
    [rewrite year_keys_eq; simpl; tauto|].
  exists e0. split; [exact He0|].
  unfold select. rewrite Hk, sorted_year_keys.
  replace (existsb (fun k => key_eqb k yr) year_keys) with false
    by (rewrite year_keys_eq; cbn [existsb]; decide_keys; reflexivity).
  change (amin year_keys) with (Some 1900%Z).
  change (amax year_keys) with (Some 2020%Z).
  cbn [bind].
  rewrite (@clipQ_above yr (inject_Z 1900) (inject_Z 2020))
    by (unfold inject_Z; Lqa.lra).
  change (filter (fun k => Qle_bool (inject_Z k) (inject_Z 2020)) year_keys)
    with year_keys.
  change (amax year_keys) with (Some 2020%Z). cbn [bind].
  change (filter (fun k => (2020 <? k)%Z) year_keys) with (@nil Z).
  change (length (@nil Z) =? 0)%nat with true. cbv iota.
  change (last1 year_keys) with (Some 2020%Z). cbn [bind].
  change (2020 =? 2020)%Z with true. cbv iota.
  rewrite He0. cbn [bind snd].
  rewrite (@interpolate_zero _ (cg e0) (cg e0)) by (assumption || reflexivity).
  rewrite (@interpolate_zero _ (ch e0) (ch e0)) by (assumption || reflexivity).
  reflexivity.
Qed.

Lemma filter_cons_true {A : Type} (f : A -> bool) x l :
  f x = true -> filter f (x :: l) = x :: filter f l.
Proof. intros E. simpl. rewrite E. reflexivity. Qed.

Lemma filter_cons_false {A : Type} (f : A -> bool) x l :
  f x = false -> filter f (x :: l) = filter f l.
Proof. intros E. simpl. rewrite E. reflexivity. Qed.

Lemma filter_le_last_span yr :
  (2015 < yr)%Q -> (yr < 2020)%Q ->
  filter (fun k => Qle_bool (inject_Z k) yr) year_keys = removelast year_keys.
Proof.
  intros Hlo Hhi. rewrite year_keys_eq.
  repeat first
    [ rewrite filter_cons_true by (apply Qle_bool_true; unfold inject_Z; Lqa.lra)
    | rewrite filter_cons_false by (apply Qle_bool_false; unfold inject_Z; Lqa.lra) ].
  reflexivity.
Qed.

(** Strictly inside the last span: the bracket is 2015..2020. *)
Lemma select_last_span c yr :
  wf_table c -> (2015 < yr)%Q -> (yr < 2020)%Q ->
  exists e0 e1 gc hc,
    dict_get (inject_Z 2015) c = Some (2015%Z, e0) /\
    dict_get (inject_Z 2020) c = Some (2020%Z, e1) /\
    interpolate ((yr - inject_Z 2015) / inject_Z 5) (cg e0) (cg e1) = Some gc /\
    interpolate ((yr - inject_Z 2015) / inject_Z 5) (ch e0) (ch e1) = Some hc /\
    select c yr = Some (Owned gc, Owned hc).
Proof.
  intros Hwf Hlo Hhi. pose proof Hwf as [Hk Hs].
  destruct (@wf_get c 2015%Z Hwf) as [e0 [He0 [Hg0 Hh0]]];
    [rewrite year_keys_eq; simpl; tauto|].
  destruct (@wf_get c 2020%Z Hwf) as [e1 [He1 [Hg1 Hh1]]];
    [rewrite year_keys_eq; simpl; tauto|].
  set (dy := ((yr - inject_Z 2015) / inject_Z 5)%Q).
  destruct (interpolate_rect dy Hg0 Hg1) as [gc [Hgc _]].
  destruct (interpolate_rect dy Hh0 Hh1) as [hc [Hhc _]].
  exists e0, e1, gc, hc. repeat (split; [assumption|]).
  unfold select. rewrite Hk, sorted_year_keys.
  replace (existsb (fun k => key_eqb k yr) year_keys) with false
    by (rewrite year_keys_eq; cbn [existsb]; decide_keys; reflexivity).
  change (amin year_keys) with (Some 1900%Z).
  change (amax year_keys) with (Some 2020%Z).
  cbn [bind].
  rewrite (@clipQ_inside yr (inject_Z 1900) (inject_Z 2020))
    by (unfold inject_Z; Lqa.lra).
  rewrite (filter_le_last_span Hlo Hhi).
  change (amax (removelast year_keys)) with (Some 2015%Z). cbn [bind].
  change (filter (fun k => (2015 <? k)%Z) year_keys) with [2020%Z].
  change (length [2020%Z] =? 0)%nat with false. cbv iota.
  change (amin [2020%Z]) with (Some 2020%Z). cbn [bind].
  change (2020 =? 2015)%Z with false. cbv iota.
  rewrite He0, He1. cbn [bind snd].
  change (inject_Z (2020 - 2015)) with (inject_Z 5). fold dy.
  rewrite Hgc, Hhc. reflexivity.
Qed.


(** ** [set_year] on a well-formed table *)

Section SetYear.

Variable now : Z.

(** The [else] branch: fresh arrays, the table is left alone. *)
Lemma set_year_owned self yr gc hc :
  select (coefficients self) yr = Some (Owned gc, Owned hc) ->
  np.rect 15 15 gc -> np.rect 15 15 hc ->
  set_year now self (Some yr) =
  Some (IgrfModel (verbose self) (coefficients self) (Some yr)
          (Some (Owned (normalized gc))) (Some (Owned (normalized hc))), []).
Proof.
  intros Hsel Hg Hh. unfold set_year. rewrite Hsel. cbn [bind fst snd imul_ref].
  rewrite (imul_norm Hg). cbn [bind fst snd].
  rewrite (imul_norm Hh). reflexivity.
Qed.

(** The [if] branch: the two arrays of the table's entry are normalised
    where they are stored. *)
Lemma set_year_alias self yr k e :
  wf_table (coefficients self) -> In k year_keys -> (inject_Z k == yr)%Q ->
  dict_get (inject_Z k) (coefficients self) = Some (k, e) ->
  set_year now self (Some yr) =
  Some (IgrfModel (verbose self)
          (assign k key_h (normalized (ch e))
             (assign k key_g (normalized (cg e)) (coefficients self)))
          (Some yr) (Some (Alias k key_g)) (Some (Alias k key_h)), []).
Proof.
  intros Hwf Hin E He. unfold set_year.
  rewrite (select_exact Hwf Hin E). cbn [bind fst snd imul_ref].
  destruct (wf_get Hwf Hin) as [e' [He' [Hg Hh]]].
  assert (e' = e) by congruence. subst e'.
  rewrite He. cbn [bind fst snd field_of].
  rewrite (imul_norm Hg). cbn [bind fst snd].
  rewrite dict_get_assign, He, Z.eqb_refl. cbn [bind fst snd field_of with_field ch].
  rewrite (imul_norm Hh). reflexivity.
Qed.

Lemma G_H_owned v c yr gc hc :
  G_H (IgrfModel v c yr (Some (Owned gc)) (Some (Owned hc))) = Some (gc, hc).
Proof. reflexivity. Qed.

Lemma G_H_alias v c yr k e a b :
  dict_get (inject_Z k) c = Some (k, e) ->
  G_H (IgrfModel v (assign k key_h b (assign k key_g a c)) yr
         (Some (Alias k key_g)) (Some (Alias k key_h))) = Some (a, b).
Proof.
  intros He. unfold G_H. cbn [gcoeff hcoeff coefficients bind deref].
  rewrite !dict_get_assign, He, Z.eqb_refl. reflexivity.
Qed.

Lemma entry_get c k :
  wf_table c -> In k year_keys ->
  dict_get (inject_Z k) c = Some (k, entry c k)
  /\ np.rect 15 15 (cg (entry c k)) /\ np.rect 15 15 (ch (entry c k)).
Proof.
  intros Hwf Hin. destruct (wf_get Hwf Hin) as [e [He Hr]].
  unfold entry. rewrite He. split; [reflexivity | exact Hr].
Qed.

(** A tabulated epoch on any well-formed table. *)
Lemma set_year_tabulated self k yr :
  wf_table (coefficients self) -> In k year_keys -> (inject_Z k == yr)%Q ->
  exists s,
    set_year now self (Some yr) = Some (s, []) /\
    gcoeff s = Some (Alias k key_g) /\ hcoeff s = Some (Alias k key_h) /\
    G_H s = Some (normalized (cg (entry (coefficients self) k)),
                  normalized (ch (entry (coefficients self) k))).
Proof.
  intros Hwf Hin E. destruct (entry_get Hwf Hin) as [He _].
  eexists. split; [eapply set_year_alias; eassumption|].
  split; [reflexivity|]. split; [reflexivity|].
  eapply G_H_alias. exact He.
Qed.

(** An epoch below the table on any well-formed table. *)
Lemma set_year_below self yr :
  wf_table (coefficients self) -> (yr < 1900)%Q ->
  exists s,
    set_year now self (Some yr) = Some (s, []) /\
    coefficients s = coefficients self /\
    G_H s = Some (normalized (cg (entry (coefficients self) 1900)),
                  normalized (ch (entry (coefficients self) 1900))).
Proof.
  intros Hwf Hlt. destruct (select_below Hwf Hlt) as [e [He Hsel]].
  assert (Hin : In 1900%Z year_keys) by (rewrite year_keys_eq; simpl; tauto).
  destruct (entry_get Hwf Hin) as [He' [Hg Hh]].
  assert (e = entry (coefficients self) 1900) by congruence. subst e.
  eexists. split; [eapply set_year_owned; eassumption|].
  split; reflexivity.
Qed.

(** An epoch beyond the last key on any well-formed table. *)
Lemma set_year_above self yr :
  wf_table (coefficients self) -> (2020 < yr)%Q ->
  exists s,
    set_year now self (Some yr) = Some (s, []) /\
    coefficients s = coefficients self /\
    G_H s = Some (normalized (cg (entry (coefficients self) 2020)),
                  normalized (ch (entry (coefficients self) 2020))).
Proof.
  intros Hwf Hlt. destruct (select_above Hwf Hlt) as [e [He Hsel]].
  assert (Hin : In 2020%Z year_keys) by (rewrite year_keys_eq; simpl; tauto).
  destruct (entry_get Hwf Hin) as [He' [Hg Hh]].
  assert (e = entry (coefficients self) 2020) by congruence. subst e.
  eexists. split; [eapply set_year_owned; eassumption|].
  split; reflexivity.
Qed.

(** An epoch strictly inside the last span on any well-formed table. *)
Lemma set_year_last_span self yr :
  wf_table (coefficients self) -> (2015 < yr)%Q -> (yr < 2020)%Q ->
  exists s G H,
    set_year now self (Some yr) = Some (s, []) /\
    coefficients s = coefficients self /\
    G_H s = Some (G, H) /\
    np.rect 15 15 G /\ np.rect 15 15 H /\
    forall i j, (i < 15)%nat -> (j < 15)%nat ->
      let c0 := entry (coefficients self) 2015 in
      let c1 := entry (coefficients self) 2020 in
      let dy := Q2R ((yr - inject_Z 2015) / inject_Z 5) in
      item G i j
      = ((item (cg c0) i j + dy * (item (cg c1) i j - item (cg c0) i j))
         * item schmidt_norm i j)%R /\
      item H i j
      = ((item (ch c0) i j + dy * (item (ch c1) i j - item (ch c0) i j))
         * item schmidt_norm i j)%R.
Proof.
  intros Hwf Hlo Hhi.
  destruct (select_last_span Hwf Hlo Hhi) as [e0 [e1 [gc [hc [He0 [He1 [Hgc [Hhc Hsel]]]]]]]].
  assert (Hin0 : In 2015%Z year_keys) by (rewrite year_keys_eq; simpl; tauto).
  assert (Hin1 : In 2020%Z year_keys) by (rewrite year_keys_eq; simpl; tauto).
  destruct (entry_get Hwf Hin0) as [He0' [Hg0 Hh0]].
  destruct (entry_get Hwf Hin1) as [He1' [Hg1 Hh1]].
  assert (e0 = entry (coefficients self) 2015) by congruence. subst e0.
  assert (e1 = entry (coefficients self) 2020) by congruence. subst e1.
  destruct (interpolate_rect ((yr - inject_Z 2015) / inject_Z 5) Hg0 Hg1)
    as [gc' [Hgc' [Hrg Hig]]].
  destruct (interpolate_rect ((yr - inject_Z 2015) / inject_Z 5) Hh0 Hh1)
    as [hc' [Hhc' [Hrh Hih]]].
  assert (gc' = gc) by congruence. subst gc'.
  assert (hc' = hc) by congruence. subst hc'.
  exists (IgrfModel (verbose self) (coefficients self) (Some yr)
            (Some (Owned (normalized gc))) (Some (Owned (normalized hc)))),
    (normalized gc), (normalized hc).
  split; [eapply set_year_owned; eassumption|].
  split; [reflexivity|]. split; [reflexivity|].
  split; [apply normalized_rect; exact Hrg|].
  split; [apply normalized_rect; exact Hrh|].
  intros i j Hi Hj. cbv zeta.
  rewrite (item_normalized Hrg Hi Hj), (item_normalized Hrh Hi Hj),
    (Hig i j Hi Hj), (Hih i j Hi Hj).
  split; reflexivity.
Qed.

Lemma init_unfold yr v :
  __init__ now yr v = set_year now (IgrfModel v table None None None) yr.
Proof. unfold __init__. rewrite read_coefficients_coeff. reflexivity. Qed.

End SetYear.


(** ** Totality of [set_year] *)

Lemma fold_max_in l x : In (fold_left Z.max l x) (x :: l).
Proof.
  revert x. induction l as [|y l IH]; intros x; simpl; [left; reflexivity|].
  destruct (IH (Z.max x y)) as [E|Hin].
  - rewrite <- E. destruct (Z.max_spec x y) as [[_ ->]|[_ ->]]; tauto.
  - tauto.
Qed.

Lemma fold_min_in l x : In (fold_left Z.min l x) (x :: l).
Proof.
  revert x. induction l as [|y l IH]; intros x; simpl; [left; reflexivity|].
  destruct (IH (Z.min x y)) as [E|Hin].
  - rewrite <- E. destruct (Z.min_spec x y) as [[_ ->]|[_ ->]]; tauto.
  - tauto.
Qed.

Lemma amax_in l : l <> [] -> exists x, amax l = Some x /\ In x l.
Proof.
  destruct l as [|x l]; [congruence|]. intros _.
  exists (fold_left Z.max l x). split; [reflexivity | apply fold_max_in].
Qed.

Lemma amin_in l : l <> [] -> exists x, amin l = Some x /\ In x l.
Proof.
  destruct l as [|x l]; [congruence|]. intros _.
  exists (fold_left Z.min l x). split; [reflexivity | apply fold_min_in].
Qed.

(** On a well-formed table the selection never raises. *)
Lemma select_total c yr :
  wf_table c ->
  exists gr hr, select c yr = Some (gr, hr) /\
    ((exists k, In k year_keys /\ (inject_Z k == yr)%Q
                /\ gr = Alias k key_g /\ hr = Alias k key_h)
     \/ (exists gc hc, gr = Owned gc /\ hr = Owned hc
                /\ np.rect 15 15 gc /\ np.rect 15 15 hc)).
Proof.
  intros Hwf. pose proof Hwf as [Hk Hs].
  destruct (existsb (fun k => key_eqb k yr) year_keys) eqn:Hex.
  - apply existsb_exists in Hex. destruct Hex as [k [Hin E]].
    apply key_eqb_spec in E.
    exists (Alias k key_g), (Alias k key_h).
    split; [apply (select_exact Hwf Hin E)|].
    left. exists k. split; [exact Hin|]. split; [exact E|]. split; reflexivity.
  - unfold select. rewrite Hk, sorted_year_keys, Hex.
    change (amin year_keys) with (Some 1900%Z).
    change (amax year_keys) with (Some 2020%Z).
    cbn [bind].
    set (yr' := np.clipQ yr (inject_Z 1900) (inject_Z 2020)).
    assert (Hlo : (inject_Z 1900 <= yr')%Q).
    { unfold yr', np.clipQ. apply Q.min_glb; [apply Q.le_max_r|].
      unfold inject_Z. Lqa.lra. }
    set (below := filter (fun k => Qle_bool (inject_Z k) yr') year_keys).
    assert (Hne : below <> []).
    { assert (Hin : In 1900%Z below).
      { apply filter_In. split; [rewrite year_keys_eq; simpl; tauto|].
        apply Qle_bool_iff. exact Hlo. }
      intros E. rewrite E in Hin. exact Hin. }
    destruct (amax_in Hne) as [y0 [Hy0 Hin0]]. rewrite Hy0. cbn [bind].
    apply filter_In in Hin0. destruct Hin0 as [Hin0 _].
    set (above := filter (fun k => (y0 <? k)%Z) year_keys).
    assert (Hy1 : exists y1,
      (if (length above =? 0)%nat then last1 year_keys else amin above) = Some y1
      /\ In y1 year_keys).
    { destruct above as [|a above'] eqn:Ha.
      - exists 2020%Z. split; [reflexivity | rewrite year_keys_eq; simpl; tauto].
      - assert (Hne' : a :: above' <> []) by discriminate.
        destruct (amin_in Hne') as [y1 [Hy1 Hin1]].
        exists y1. split; [exact Hy1|].
        rewrite <- Ha in Hin1. apply filter_In in Hin1. tauto. }
    destruct Hy1 as [y1 [Hy1 Hin1]]. rewrite Hy1. cbn [bind].
    destruct (wf_get Hwf Hin0) as [e0 [He0 [Hg0 Hh0]]].
    destruct (wf_get Hwf Hin1) as [e1 [He1 [Hg1 Hh1]]].
    rewrite He0, He1. cbn [bind snd].
    set (dy := if (y1 =? y0)%Z then 0%Q else ((yr' - inject_Z y0) / inject_Z (y1 - y0))%Q).
    destruct (interpolate_rect dy Hg0 Hg1) as [gc [Hgc [Hrg _]]].
    destruct (interpolate_rect dy Hh0 Hh1) as [hc [Hhc [Hrh _]]].
    rewrite Hgc, Hhc. cbn [bind].
    exists (Owned gc), (Owned hc). split; [reflexivity|].
    right. exists gc, hc. split; [reflexivity|]. split; [reflexivity|]. split; assumption.
Qed.

(** The default epoch: the same model as for the clock's year, the message
    apart. *)
Lemma set_year_default now self :
  set_year now self None =
  match set_year now self (Some (inject_Z now)) with
  | Some (s, _) => Some (s, if verbose self then [using_todays_date now] else [])
  | None => None
  end.
Proof.
  unfold set_year.
  destruct (select (coefficients self) (inject_Z now)) as [refs|]; [|reflexivity].
  cbn [bind].
  destruct (imul_ref (coefficients self) (fst refs) schmidt_norm) as [gc|]; [|reflexivity].
  cbn [bind].
  destruct (imul_ref (fst gc) (snd refs) schmidt_norm) as [hc|]; reflexivity.
Qed.

(** On a well-formed table [set_year] returns for every epoch, the table
    stays well-formed, and the arrays the model reads are normalised arrays
    of the table's shape. *)
Lemma set_year_total_some now self y :
  wf_table (coefficients self) ->
  exists s, set_year now self (Some y) = Some (s, []) /\ wf_table (coefficients s)
    /\ year s = Some y
    /\ exists a b, G_H s = Some (normalized a, normalized b)
                   /\ np.rect 15 15 a /\ np.rect 15 15 b.
Proof.
  intros Hwf.
  destruct (select_total y Hwf) as [gr [hr [Hsel Hcases]]].
  destruct Hcases as [[k [Hin [E [-> ->]]]] | [gc [hc [-> [-> [Hg Hh]]]]]].
  - destruct (entry_get Hwf Hin) as [He [Hg Hh]].
    eexists. split; [eapply set_year_alias; eassumption|].
    split.
    + cbn [coefficients]. apply wf_assign; [apply wf_assign|];
        [exact Hwf | apply normalized_rect; exact Hg | apply normalized_rect; exact Hh].
    + split; [reflexivity|].
      eexists _, _. split; [eapply G_H_alias; exact He|].
      split; assumption.
  - eexists. split; [eapply set_year_owned; eassumption|].
    split; [exact Hwf|]. split; [reflexivity|].
    eexists _, _. split; [reflexivity|].
    split; assumption.
Qed.

Lemma set_year_total now self yr :
  wf_table (coefficients self) ->
  exists s out, set_year now self yr = Some (s, out) /\ wf_table (coefficients s)
    /\ exists a b, G_H s = Some (normalized a, normalized b)
                   /\ np.rect 15 15 a /\ np.rect 15 15 b.
Proof.
  intros Hwf. destruct yr as [y|].
  - destruct (@set_year_total_some now self y Hwf) as [s [Hs [Hw [_ HG]]]].
    exists s, []. split; [exact Hs|]. split; assumption.
  - destruct (@set_year_total_some now self (inject_Z now) Hwf) as [s [Hs [Hw [_ HG]]]].
    rewrite set_year_default, Hs.
    eexists _, _. split; [reflexivity|]. split; assumption.
Qed.


(** ** Numbers of the embedded table *)

Lemma keys_table : keys table = year_keys.
Proof. exact (proj1 wf_table_table). Qed.

Lemma in_year_keys_2000 : In 2000%Z year_keys.
Proof. rewrite year_keys_eq. simpl. tauto. Qed.

Lemma in_year_keys_2015 : In 2015%Z year_keys.
Proof. rewrite year_keys_eq. simpl. tauto. Qed.

Lemma in_year_keys_2020 : In 2020%Z year_keys.
Proof. rewrite year_keys_eq. simpl. tauto. Qed.

(** The row [g 2 1] in 2000. *)
Lemma g21_2000 : item (cg (entry table 2000)) 1 2 = 3068.4%R.
Proof. vm_compute. reflexivity. Qed.

Lemma schmidt_norm_0_1 : item schmidt_norm 0 1 = 1%R.
Proof.
  assert (E : item schmidt_norm 0 1 = (sqrt ((2 - 1) * 1 / 1) * 1)%R)
    by (vm_compute; reflexivity).
  rewrite E. replace ((2 - 1) * 1 / 1)%R with 1%R by lra.
  rewrite sqrt_1. lra.
Qed.

Lemma schmidt_norm_1_2 : item schmidt_norm 1 2 = (- sqrt (1 / 3))%R.
Proof.
  assert (E : item schmidt_norm 1 2 = (sqrt ((2 - 0) * 1 / 6) * (-1 * 1))%R)
    by (vm_compute; reflexivity).
  rewrite E. replace ((2 - 0) * 1 / 6)%R with (1 / 3)%R by lra. lra.
Qed.

(** The last step of [read_coefficients], array by array. *)
Lemma table_2015_unchanged : entry table 2015 = entry filled 2015.
Proof. vm_compute. reflexivity. Qed.

Lemma table_2020_g :
  cg (entry table 2020)
  = zipw (zipw Rplus) (cg (entry filled 2020)) (cg (entry filled 2015)).
Proof. vm_compute. reflexivity. Qed.

Lemma table_2020_h :
  ch (entry table 2020)
  = zipw (zipw Rplus) (ch (entry filled 2020)) (ch (entry filled 2015)).
Proof. vm_compute. reflexivity. Qed.

(** ** The table against the text *)

Lemma map_eq_in {A B : Type} (f g : A -> B) (l : list A) :
  map f l = map g l -> forall x, In x l -> f x = g x.
Proof.
  induction l as [|a l IH]; simpl; intros E x Hin; [contradiction|].
  injection E as E1 E2. destruct Hin as [<-|Hin]; [exact E1 | exact (IH E2 x Hin)].
Qed.

Lemma in_cells k i j : (i < k)%nat -> (j < k)%nat -> In (i, j) (cells k).
Proof.
  intros Hi Hj. unfold cells. apply in_flat_map. exists i.
  split; [apply in_seq; lia|]. apply in_map. apply in_seq. lia.
Qed.

Lemma in_labels gh m n : (m < 15)%nat -> (n < 15)%nat -> In (gh, (m, n)) labels.
Proof.
  intros Hm Hn. unfold labels. apply in_or_app.
  destruct gh; [left | right]; apply in_map; apply in_cells; assumption.
Qed.

(** The columns of 1900, of 2015 and of the secular variation. *)
Lemma columns_of_coeff :
  column coeff "1900.0" = 0%nat /\ column coeff "2015.0" = 23%nat
  /\ column coeff "2015-20" = 24%nat.
Proof. repeat split; reflexivity. Qed.

(** No two rows of the text have the same label: looking a row's label up
    finds that row. *)
Lemma rows_found :
  map (fun line => match line with
                   | Blank => Some Blank
                   | Row gh n m _ => find (lists gh n m) (body coeff)
                   end) (body coeff)
  = map Some (body coeff).
Proof. vm_compute. reflexivity. Qed.

Lemma listed_row label gh n m val :
  In (Row gh n m val) (body coeff) ->
  listed coeff label gh n m = nth (column coeff label) val 0%R.
Proof.
  intros Hin. pose proof (map_eq_in _ _ _ rows_found _ Hin) as E.
  cbv beta iota in E. unfold listed. rewrite E. reflexivity.
Qed.

(** The arrays of 1900, 2015 and 2020 hold, entry by entry, the columns
    [1900.0] and [2015.0] of the text and the sum of its last column and
    the column [2015.0]. *)
Lemma table_cells :
  map (fun l : GH * (nat * nat) =>
         (item (field_of (fst l) (entry table 1900)) (fst (snd l)) (snd (snd l)),
          item (field_of (fst l) (entry table 2015)) (fst (snd l)) (snd (snd l)),
          item (field_of (fst l) (entry table 2020)) (fst (snd l)) (snd (snd l)))) labels
  = map (fun l : GH * (nat * nat) =>
         (listed coeff "1900.0" (fst l) (snd (snd l)) (fst (snd l)),
          listed coeff "2015.0" (fst l) (snd (snd l)) (fst (snd l)),
          (listed coeff "2015-20" (fst l) (snd (snd l)) (fst (snd l))
           + listed coeff "2015.0" (fst l) (snd (snd l)) (fst (snd l)))%R)) labels.
Proof. vm_compute. reflexivity. Qed.

Lemma table_cell gh n m :
  (n < 15)%nat -> (m < 15)%nat ->
  item (field_of gh (entry table 1900)) m n = listed coeff "1900.0" gh n m /\
  item (field_of gh (entry table 2015)) m n = listed coeff "2015.0" gh n m /\
  item (field_of gh (entry table 2020)) m n
  = (listed coeff "2015-20" gh n m + listed coeff "2015.0" gh n m)%R.
Proof.
  intros Hn Hm.
  pose proof (map_eq_in _ _ _ table_cells _ (in_labels gh Hm Hn)) as E.
  cbn [fst snd] in E. injection E as E1 E2 E3. repeat split; assumption.
Qed.

(** The row [g 1 0] of the text: -29442.0 in 2015, 10.3 per year after it. *)
Lemma listed_g10 :
  listed coeff "2015.0" key_g 1 0 = (-29442.0)%R /\
  listed coeff "2015-20" key_g 1 0 = 10.3%R.
Proof. split; vm_compute; reflexivity. Qed.

(** From here on the table is used through the lemmas above only. *)
Opaque table filled schmidt_norm.

(** ** Epochs from 2015 on *)

Lemma Q2R_fifth q : Q2R (q / inject_Z 5) = (Q2R q / 5)%R.
Proof.
  assert (E : (q / inject_Z 5 == q * (1 # 5))%Q) by (unfold inject_Z; field).
  rewrite (Qeq_eqR _ _ E), Q2R_mult. unfold Q2R at 2; simpl. lra.
Qed.

Lemma last_span_fraction_inside e :
  (e <= 2020)%Q -> last_span_fraction e = (Q2R (e - 2015) / 5)%R.
Proof.
  intros H. unfold last_span_fraction.
  assert (E : ((Qmin e 2020 - 2015) / 5 == (e - 2015) / inject_Z 5)%Q).
  { rewrite (Q.min_l e 2020 H). reflexivity. }
  rewrite (Qeq_eqR _ _ E). apply Q2R_fifth.
Qed.

Lemma last_span_fraction_above e :
  (2020 <= e)%Q -> last_span_fraction e = 1%R.
Proof.
  intros H. unfold last_span_fraction.
  assert (E : ((Qmin e 2020 - 2015) / 5 == 1)%Q).
  { rewrite (Q.min_r e 2020 H). reflexivity. }
  rewrite (Qeq_eqR _ _ E). unfold Q2R; simpl. lra.
Qed.

(** From 2015 on, every coefficient is the value of 2015 moved toward the
    value stored under the key 2020 by the fraction of the span. *)
Lemma resolve_from_2015 (now : Z) (e : Q) (v : bool) :
  (2015 <= e)%Q ->
  exists s G H,
    __init__ now (Some e) v = Some (s, []) /\ G_H s = Some (G, H) /\
    forall i j, (i < 15)%nat -> (j < 15)%nat ->
      let c0 := entry table 2015 in
      let c1 := entry table 2020 in
      let t := last_span_fraction e in
      item G i j
      = ((item (cg c0) i j + t * (item (cg c1) i j - item (cg c0) i j))
         * item schmidt_norm i j)%R /\
      item H i j
      = ((item (ch c0) i j + t * (item (ch c1) i j - item (ch c0) i j))
         * item schmidt_norm i j)%R.
Proof.
  intros Hlo. rewrite init_unfold.
  assert (Hwf : wf_table (coefficients (IgrfModel v table None None None)))
    by exact wf_table_table.
  destruct (entry_get wf_table_table in_year_keys_2015) as [_ [Hg0 Hh0]].
  destruct (entry_get wf_table_table in_year_keys_2020) as [_ [Hg1 Hh1]].
  destruct (Qlt_le_dec 2015 e) as [Hgt|Hle].
  - destruct (Qlt_le_dec e 2020) as [Hlt|Hge].
    + destruct (@set_year_last_span now _ e Hwf Hgt Hlt)
        as [s [G [H [Hs [_ [HGH [_ [_ Hij]]]]]]]].
      exists s, G, H. split; [exact Hs|]. split; [exact HGH|].
      intros i j Hi Hj. cbv zeta.
      rewrite last_span_fraction_inside by Lqa.lra.
      rewrite <- Q2R_fifth. exact (Hij i j Hi Hj).
    + destruct (Qle_lt_or_eq _ _ Hge) as [Hgt'|Heq].
      * destruct (@set_year_above now _ e Hwf Hgt') as [s [Hs [_ HGH]]].
        cbn [coefficients] in HGH.
        eexists s, _, _. split; [exact Hs|]. split; [exact HGH|].
        intros i j Hi Hj. cbv zeta.
        rewrite last_span_fraction_above by exact Hge.
        rewrite (item_normalized Hg1 Hi Hj), (item_normalized Hh1 Hi Hj).
        split; ring.
      * destruct (@set_year_tabulated now _ 2020%Z e Hwf in_year_keys_2020 Heq)
          as [s [Hs [_ [_ HGH]]]].
        cbn [coefficients] in HGH.
        eexists s, _, _. split; [exact Hs|]. split; [exact HGH|].
        intros i j Hi Hj. cbv zeta.
        rewrite last_span_fraction_above by exact Hge.
        rewrite (item_normalized Hg1 Hi Hj), (item_normalized Hh1 Hi Hj).
        split; ring.
  - assert (Heq : (inject_Z 2015 == e)%Q) by (unfold inject_Z; Lqa.lra).
    destruct (@set_year_tabulated now _ 2015%Z e Hwf in_year_keys_2015 Heq)
      as [s [Hs [_ [_ HGH]]]].
    cbn [coefficients] in HGH.
    eexists s, _, _. split; [exact Hs|]. split; [exact HGH|].
    intros i j Hi Hj. cbv zeta.
    rewrite last_span_fraction_inside by Lqa.lra.
    assert (E0 : Q2R (e - 2015) = 0%R).
    { assert (E : (e - 2015 == 0)%Q) by Lqa.lra.
      rewrite (Qeq_eqR _ _ E). unfold Q2R; simpl. lra. }
    rewrite E0.
    rewrite (item_normalized Hg0 Hi Hj), (item_normalized Hh0 Hi Hj).
    split; field.
Qed.

(** ** The claims about the resolution of an epoch *)

Lemma twice_is_once (c n : R) :
  (c * n * n = c * n <-> c = 0 \/ n = 0 \/ n = 1)%R.
Proof.
  split.
  - intros E. assert (E' : (c * (n * (n - 1)) = 0)%R) by (rewrite <- Rminus_diag_eq with (1 := E); ring).
    destruct (Rmult_integral _ _ E') as [Hc|Hn]; [left; exact Hc|].
    destruct (Rmult_integral _ _ Hn) as [H0|H1]; [right; left; exact H0 | right; right; lra].
  - intros [->|[->| ->]]; ring.
Qed.

(** C6 (the code at the failing input): for an epoch that equals a
    tabulated year [set_year] takes the branch without interpolation, and
    what it reads is the entry as the instance's table holds it at that
    moment. [igrfModel(k)] reads the tabulated arrays multiplied by
    [schmidt_norm] and leaves them in the table; [set_year(k)] on that
    instance multiplies the stored arrays again, so a coefficient [c] with
    the factor [norm] is read as [c * norm * norm]: the tabulated set after
    normalisation only where [c] is zero or the factor is 0 or 1. *)
Theorem tabulated_epoch_reads_the_stored_arrays (now k : Z) (e : Q) (v : bool) :
  In k (keys table) -> (inject_Z k == e)%Q ->
  exists s1 s2 G1 H1 G2 H2,
    __init__ now (Some e) v = Some (s1, []) /\
    set_year now s1 (Some e) = Some (s2, []) /\
    gcoeff s1 = Some (Alias k key_g) /\ hcoeff s1 = Some (Alias k key_h) /\
    gcoeff s2 = Some (Alias k key_g) /\ hcoeff s2 = Some (Alias k key_h) /\
    G_H s1 = Some (G1, H1) /\ G_H s2 = Some (G2, H2) /\
    forall gh i j, (i < 15)%nat -> (j < 15)%nat ->
      let c := item (field_of gh (entry table k)) i j in
      let norm := item schmidt_norm i j in
      item (field_of gh (Coeffs G1 H1)) i j = (c * norm)%R /\
      item (field_of gh (entry (coefficients s1) k)) i j = (c * norm)%R /\
      item (field_of gh (Coeffs G2 H2)) i j = (c * norm * norm)%R /\
      (item (field_of gh (Coeffs G2 H2)) i j = (c * norm)%R
       <-> c = 0%R \/ norm = 0%R \/ norm = 1%R).
Proof.
  intros Hin E. rewrite keys_table in Hin.
  destruct (entry_get wf_table_table Hin) as [He [Hg Hh]].
  pose (c1 := assign k key_h (normalized (ch (entry table k)))
                (assign k key_g (normalized (cg (entry table k))) table)).
  pose (s1 := IgrfModel v c1 (Some e) (Some (Alias k key_g)) (Some (Alias k key_h))).
  assert (Hs1 : __init__ now (Some e) v = Some (s1, [])).
  { rewrite init_unfold.
    apply (@set_year_alias now (IgrfModel v table None None None) e k
             (entry table k) wf_table_table Hin E He). }
  assert (Hwf1 : wf_table (coefficients s1)).
  { cbn [s1 coefficients]. unfold c1.
    apply wf_assign; [apply wf_assign|];
      [exact wf_table_table | apply normalized_rect; exact Hg
      | apply normalized_rect; exact Hh]. }
  assert (He1 : entry (coefficients s1) k
                = Coeffs (normalized (cg (entry table k)))
                         (normalized (ch (entry table k)))).
  { unfold entry at 1. cbn [s1 coefficients]. unfold c1.
    rewrite !dict_get_assign, He, Z.eqb_refl. reflexivity. }
  destruct (@set_year_tabulated now s1 k e Hwf1 Hin E) as [s2 [Hs2 [Hg2 [Hh2 HGH2]]]].
  rewrite He1 in HGH2. cbn [cg ch] in HGH2.
  assert (HGH1 : G_H s1 = Some (normalized (cg (entry table k)),
                                normalized (ch (entry table k)))).
  { unfold s1, c1. eapply G_H_alias. exact He. }
  eexists s1, s2, _, _, _, _.
  split; [exact Hs1|]. split; [exact Hs2|].
  split; [reflexivity|]. split; [reflexivity|].
  split; [exact Hg2|]. split; [exact Hh2|].
  split; [exact HGH1|]. split; [exact HGH2|].
  intros gh i j Hi Hj. cbv zeta. rewrite He1.
  destruct gh; cbn [field_of cg ch].
  - rewrite (item_normalized (normalized_rect Hg) Hi Hj), (item_normalized Hg Hi Hj).
    split; [reflexivity|]. split; [reflexivity|]. split; [reflexivity|].
    apply twice_is_once.
  - rewrite (item_normalized (normalized_rect Hh) Hi Hj), (item_normalized Hh Hi Hj).
    split; [reflexivity|]. split; [reflexivity|]. split; [reflexivity|].
    apply twice_is_once.
Qed.

Lemma tabulated_epoch_reads_the_stored_arrays_witness :
  exists s1 s2 G1 H1 G2 H2,
    __init__ 2026 (Some 2000%Q) false = Some (s1, []) /\
    set_year 2026 s1 (Some 2000%Q) = Some (s2, []) /\
    gcoeff s1 = Some (Alias 2000 key_g) /\ hcoeff s1 = Some (Alias 2000 key_h) /\
    gcoeff s2 = Some (Alias 2000 key_g) /\ hcoeff s2 = Some (Alias 2000 key_h) /\
    G_H s1 = Some (G1, H1) /\ G_H s2 = Some (G2, H2) /\
    forall gh i j, (i < 15)%nat -> (j < 15)%nat ->
      let c := item (field_of gh (entry table 2000)) i j in
      let norm := item schmidt_norm i j in
      item (field_of gh (Coeffs G1 H1)) i j = (c * norm)%R /\
      item (field_of gh (entry (coefficients s1) 2000)) i j = (c * norm)%R /\
      item (field_of gh (Coeffs G2 H2)) i j = (c * norm * norm)%R /\
      (item (field_of gh (Coeffs G2 H2)) i j = (c * norm)%R
       <-> c = 0%R \/ norm = 0%R \/ norm = 1%R).
Proof.
  apply (@tabulated_epoch_reads_the_stored_arrays 2026 2000 2000%Q false).
  - rewrite keys_table. exact in_year_keys_2000.
  - reflexivity.
Defined.

(** The instance [igrfModel(2000)] has a table of the parser's shape. *)
Lemma wf_model_2000 : wf_table (coefficients model_2000).
Proof.
  destruct (entry_get wf_table_table in_year_keys_2000) as [_ [Hg Hh]].
  cbn [model_2000 coefficients].
  apply wf_assign; [apply wf_assign|];
    [exact wf_table_table | apply normalized_rect; exact Hg
    | apply normalized_rect; exact Hh].
Qed.

(** C7: an epoch below the first tabulated epoch, 1900, is clamped to it
    without an error and without a message. On every instance with a table
    of the parser's shape [set_year] returns, leaves the table as it is and
    reads the 1900 set the instance's table holds, multiplied by
    [schmidt_norm]: the arrays [set_year(1900)] reads in the same state. For
    the constructor these are the numbers of the column [1900.0] of the
    text, normalised. *)
Theorem epoch_below_table_is_clamped (now : Z) (self : igrfModel) (e : Q) (v : bool) :
  wf_table (coefficients self) -> (e < 1900)%Q ->
  amin (sorted (keys (coefficients self))) = Some 1900%Z /\
  (exists s s0 G H,
     set_year now self (Some e) = Some (s, []) /\
     coefficients s = coefficients self /\
     G_H s = Some (G, H) /\
     G = normalized (cg (entry (coefficients self) 1900)) /\
     H = normalized (ch (entry (coefficients self) 1900)) /\
     set_year now self (Some 1900%Q) = Some (s0, []) /\
     G_H s0 = Some (G, H)) /\
  (exists s G H,
     __init__ now (Some e) v = Some (s, []) /\ G_H s = Some (G, H) /\
     forall gh n m, (n < 15)%nat -> (m < 15)%nat ->
       item (field_of gh (Coeffs G H)) m n
       = (listed coeff "1900.0" gh n m * item schmidt_norm m n)%R).
Proof.
  intros Hwf Hlt.
  assert (Hin : In 1900%Z year_keys) by (rewrite year_keys_eq; simpl; tauto).
  assert (E : (inject_Z 1900 == 1900)%Q) by reflexivity.
  split; [rewrite (proj1 Hwf), sorted_year_keys; reflexivity|].
  split.
  - destruct (@set_year_below now self e Hwf Hlt) as [s [Hs [Hc HGH]]].
    destruct (@set_year_tabulated now self 1900%Z 1900%Q Hwf Hin E)
      as [s0 [Hs0 [_ [_ HGH0]]]].
    eexists s, s0, _, _.
    split; [exact Hs|]. split; [exact Hc|]. split; [exact HGH|].
    split; [reflexivity|]. split; [reflexivity|].
    split; [exact Hs0 | exact HGH0].
  - rewrite init_unfold.
    assert (Hwf0 : wf_table (coefficients (IgrfModel v table None None None)))
      by exact wf_table_table.
    destruct (@set_year_below now _ e Hwf0 Hlt) as [s [Hs [_ HGH]]].
    cbn [coefficients] in HGH.
    destruct (entry_get wf_table_table Hin) as [_ [Hg Hh]].
    eexists s, _, _. split; [exact Hs|]. split; [exact HGH|].
    intros gh n m Hn Hm.
    destruct (table_cell gh Hn Hm) as [E1900 _].
    destruct gh; cbn [field_of cg ch] in *.
    + rewrite (item_normalized Hg Hm Hn), E1900. reflexivity.
    + rewrite (item_normalized Hh Hm Hn), E1900. reflexivity.
Qed.

Lemma epoch_below_table_is_clamped_witness :
  amin (sorted (keys (coefficients model_2000))) = Some 1900%Z /\
  (exists s s0 G H,
     set_year 2026 model_2000 (Some 1850%Q) = Some (s, []) /\
     coefficients s = coefficients model_2000 /\
     G_H s = Some (G, H) /\
     G = normalized (cg (entry (coefficients model_2000) 1900)) /\
     H = normalized (ch (entry (coefficients model_2000) 1900)) /\
     set_year 2026 model_2000 (Some 1900%Q) = Some (s0, []) /\
     G_H s0 = Some (G, H)) /\
  (exists s G H,
     __init__ 2026 (Some 1850%Q) false = Some (s, []) /\ G_H s = Some (G, H) /\
     forall gh n m, (n < 15)%nat -> (m < 15)%nat ->
       item (field_of gh (Coeffs G H)) m n
       = (listed coeff "1900.0" gh n m * item schmidt_norm m n)%R).
Proof.
  apply (@epoch_below_table_is_clamped 2026 model_2000 1850%Q false).
  - exact wf_model_2000.
  - reflexivity.
Defined.

(** C10: with [year=None] the epoch is the clock's UTC year: [set_year] and
    the constructor leave the model in the state the explicit request of
    that year leaves it in (the call with [None] also prints a line when
    [verbose] is set), and the constructor returns for every clock. *)
Theorem default_year_is_current_utc_year (now : Z) (self : igrfModel) (v : bool) :
  option_map fst (set_year now self None)
  = option_map fst (set_year now self (Some (inject_Z now))) /\
  option_map fst (__init__ now None v)
  = option_map fst (__init__ now (Some (inject_Z now)) v) /\
  exists s,
    __init__ now None v = Some (s, if v then [using_todays_date now] else []) /\
    __init__ now (Some (inject_Z now)) v = Some (s, []) /\
    year s = Some (inject_Z now).
Proof.
  assert (Hdef : forall self',
    option_map fst (set_year now self' None)
    = option_map fst (set_year now self' (Some (inject_Z now)))).
  { intros self'. rewrite set_year_default.
    destruct (set_year now self' (Some (inject_Z now))) as [[s out]|]; reflexivity. }
  split; [apply Hdef|]. rewrite !init_unfold. split; [apply Hdef|].
  assert (Hwf : wf_table (coefficients (IgrfModel v table None None None)))
    by exact wf_table_table.
  destruct (@set_year_total_some now _ (inject_Z now) Hwf) as [s [Hs [_ [Hy _]]]].
  exists s. rewrite set_year_default, Hs. cbn [verbose].
  split; [reflexivity|]. split; [reflexivity | exact Hy].
Qed.



(** The epoch as a real number, counted from 2015. *)
Lemma Q2R_since_2015 e : Q2R (e - 2015) = (Q2R e - 2015)%R.
Proof.
  unfold Qminus. rewrite Q2R_plus, Q2R_opp.
  replace (Q2R 2015) with 2015%R by (unfold Q2R; simpl; lra). lra.
Qed.

(** From 2015 on, in the numbers of the text: the coefficient [gh n m] is
    the number of the column [2015.0] plus the fraction of the span
    2015..2020 already covered (at most one) times the number of the last
    column, normalised. *)
Lemma resolve_from_text (now : Z) (v : bool) (e : Q) :
  (2015 <= e)%Q ->
  exists s G H,
    __init__ now (Some e) v = Some (s, []) /\ G_H s = Some (G, H) /\
    forall gh n m, (n < 15)%nat -> (m < 15)%nat ->
      item (field_of gh (Coeffs G H)) m n
      = ((listed coeff "2015.0" gh n m
          + last_span_fraction e * listed coeff "2015-20" gh n m)
         * item schmidt_norm m n)%R.
Proof.
  intros Hlo.
  destruct (resolve_from_2015 now v Hlo) as [s [G [H [Hs [HGH Hij]]]]].
  exists s, G, H. split; [exact Hs|]. split; [exact HGH|].
  intros gh n m Hn Hm.
  destruct (Hij m n Hm Hn) as [EG EH]. cbv zeta in EG, EH.
  destruct (table_cell key_g Hn Hm) as [_ [Eg0 Eg1]].
  destruct (table_cell key_h Hn Hm) as [_ [Eh0 Eh1]].
  cbn [field_of] in Eg0, Eg1, Eh0, Eh1.
  rewrite Eg0, Eg1 in EG. rewrite Eh0, Eh1 in EH.
  destruct gh; cbn [field_of cg ch]; [rewrite EG | rewrite EH]; ring.
Qed.

(** [igrfModel(2016)]: the coefficient [g 1 0] is -29439.94, one fifth of
    10.3 above the -29442.0 of 2015; a year at the rate 10.3 would give
    -29431.7. *)
Example g10_in_2016 :
  exists s G H,
    __init__ 2026 (Some 2016%Q) false = Some (s, []) /\ G_H s = Some (G, H) /\
    item G 0 1 = (-29439.94)%R /\ item G 0 1 <> (-29442.0 + 1 * 10.3)%R.
Proof.
  assert (Hlo : (2015 <= 2016)%Q) by (vm_compute; discriminate).
  assert (Hhi : (2016 <= 2020)%Q) by (vm_compute; discriminate).
  destruct (resolve_from_text 2026 false Hlo) as [s [G [H [Hs [HGH Hnm]]]]].
  exists s, G, H. split; [exact Hs|]. split; [exact HGH|].
  assert (Hlt : (1 < 15)%nat /\ (0 < 15)%nat) by lia. destruct Hlt as [Hn Hm].
  pose proof (Hnm key_g 1%nat 0%nat Hn Hm) as E. cbn [field_of cg] in E.
  destruct listed_g10 as [E0 E1].
  rewrite E0, E1, schmidt_norm_0_1, (last_span_fraction_inside Hhi), Q2R_since_2015 in E.
  replace (Q2R 2016) with 2016%R in E by (unfold Q2R; simpl; lra).
  rewrite E. split; lra.
Qed.

(** C1 (the code on the terminal span): from the last absolute epoch 2015
    on, the coefficient [gh n m] of [igrfModel(e)] is the number [c0] of the
    column [2015.0] plus [rate], the number of the secular variation
    column, times one fifth of the years since 2015, and no more than
    [rate] itself from 2020 on; the normalisation multiplies the result. It
    is [c0 + (e - 2015) * rate], normalised, only at 2015 itself or where
    the rate or the normalisation factor is zero. *)
Theorem terminal_span_gains_a_fifth_of_the_rate
    (now : Z) (v : bool) (gh : GH) (n m : nat) (e : Q) :
  (n < 15)%nat -> (m < 15)%nat -> (2015 <= e)%Q ->
  let c0 := listed coeff "2015.0" gh n m in
  let rate := listed coeff "2015-20" gh n m in
  let norm := item schmidt_norm m n in
  exists s G H,
    __init__ now (Some e) v = Some (s, []) /\ G_H s = Some (G, H) /\
    item (field_of gh (Coeffs G H)) m n
    = ((c0 + Q2R (Qmin e 2020 - 2015) / 5 * rate) * norm)%R /\
    (item (field_of gh (Coeffs G H)) m n = ((c0 + Q2R (e - 2015) * rate) * norm)%R
     <-> (e == 2015)%Q \/ rate = 0%R \/ norm = 0%R).
Proof.
  intros Hn Hm Hlo. cbv zeta.
  destruct (resolve_from_text now v Hlo) as [s [G [H [Hs [HGH Hnm]]]]].
  exists s, G, H. split; [exact Hs|]. split; [exact HGH|].
  rewrite (Hnm gh n m Hn Hm).
  assert (Ht : last_span_fraction e = (Q2R (Qmin e 2020 - 2015) / 5)%R).
  { unfold last_span_fraction.
    change ((Qmin e 2020 - 2015) / 5)%Q with ((Qmin e 2020 - 2015) / inject_Z 5)%Q.
    apply Q2R_fifth. }
  rewrite Ht. split; [reflexivity|].
  rewrite !Q2R_since_2015.
  assert (Hlo' : (2015 <= Q2R e)%R).
  { replace 2015%R with (Q2R 2015) by (unfold Q2R; simpl; lra). apply Qle_Rle. exact Hlo. }
  assert (Hmin : (Q2R (Qmin e 2020) = Rmin (Q2R e) 2020)%R).
  { destruct (Qlt_le_dec 2020 e) as [Hgt|Hle].
    - rewrite (Qeq_eqR _ _ (Q.min_r e 2020 (Qlt_le_weak _ _ Hgt))).
      apply Qlt_Rlt in Hgt.
      replace (Q2R 2020) with 2020%R in * by (unfold Q2R; simpl; lra).
      rewrite Rmin_right; lra.
    - rewrite (Qeq_eqR _ _ (Q.min_l e 2020 Hle)).
      apply Qle_Rle in Hle.
      replace (Q2R 2020) with 2020%R in * by (unfold Q2R; simpl; lra).
      rewrite Rmin_left; lra. }
  rewrite Hmin.
  generalize (listed coeff "2015.0" gh n m) (listed coeff "2015-20" gh n m)
             (item schmidt_norm m n).
  intros c0 rate norm.
  set (d := (Q2R e - 2015)%R). set (t := ((Rmin (Q2R e) 2020 - 2015) / 5)%R).
  assert (Hd : (0 <= d)%R) by (unfold d; lra).
  assert (Hdt : (d - t = 0 -> d = 0)%R).
  { unfold d, t. unfold Rmin. destruct (Rle_dec (Q2R e) 2020); lra. }
  assert (Htd : (d = 0 -> t = 0)%R).
  { unfold d, t. intros E0. rewrite Rmin_left by lra. lra. }
  split.
  - intros E.
    assert (E' : ((d - t) * (rate * norm) = 0)%R).
    { replace ((d - t) * (rate * norm))%R
        with ((c0 + d * rate) * norm - (c0 + t * rate) * norm)%R by ring.
      rewrite E. ring. }
    destruct (Rmult_integral _ _ E') as [H0|H0].
    + left. apply eqR_Qeq.
      replace (Q2R 2015) with 2015%R by (unfold Q2R; simpl; lra).
      pose proof (Hdt H0) as Hz. unfold d in Hz. lra.
    + right. destruct (Rmult_integral _ _ H0); [left | right]; assumption.
  - intros [E0|[->| ->]]; [|ring|ring].
    apply Qeq_eqR in E0.
    replace (Q2R 2015) with 2015%R in E0 by (unfold Q2R; simpl; lra).
    assert (Hz : d = 0%R) by (unfold d; lra).
    rewrite (Htd Hz), Hz. ring.
Qed.

Lemma terminal_span_gains_a_fifth_of_the_rate_witness :
  let c0 := listed coeff "2015.0" key_g 1 0 in
  let rate := listed coeff "2015-20" key_g 1 0 in
  let norm := item schmidt_norm 0 1 in
  exists s G H,
    __init__ 2026 (Some 2016%Q) false = Some (s, []) /\ G_H s = Some (G, H) /\
    item (field_of key_g (Coeffs G H)) 0 1
    = ((c0 + Q2R (Qmin 2016 2020 - 2015) / 5 * rate) * norm)%R /\
    (item (field_of key_g (Coeffs G H)) 0 1 = ((c0 + Q2R (2016 - 2015) * rate) * norm)%R
     <-> (2016 == 2015)%Q \/ rate = 0%R \/ norm = 0%R).
Proof.
  apply (@terminal_span_gains_a_fifth_of_the_rate 2026 false key_g 1 0 2016%Q).
  - lia.
  - lia.
  - vm_compute. discriminate.
Defined.

(** C9: the last label of the header is read as 2020 and the one before it
    is 2015. Entry by entry, the set stored under 2015 is the column
    [2015.0] of the text, and the set stored under 2020 is that set plus the
    last column of the text, the secular variation per year, added once. So
    between 2015 and 2020 every coefficient advances by one fifth of the
    number in the last column per year. *)
Theorem final_key_adds_rate_once (now : Z) :
  option_map (@last1 Q) (read_years coeff) = Some (Some 2020.0%Q) /\
  option_map (@last2 Q) (read_years coeff) = Some (Some 2015.0%Q) /\
  last1 (header coeff) = Some "2015-20"%string /\
  last2 (header coeff) = Some "2015.0"%string /\
  (forall label gh n m val, In (Row gh n m val) (body coeff) ->
     listed coeff label gh n m = nth (column coeff label) val 0%R) /\
  (forall gh n m, (n < 15)%nat -> (m < 15)%nat ->
     let prev := item (field_of gh (entry table 2015)) m n in
     let final := item (field_of gh (entry table 2020)) m n in
     prev = listed coeff "2015.0" gh n m /\
     final = (prev + listed coeff "2015-20" gh n m)%R) /\
  (forall e v gh n m, (n < 15)%nat -> (m < 15)%nat ->
     (2015 <= e)%Q -> (e <= 2020)%Q ->
     exists s G H,
       __init__ now (Some e) v = Some (s, []) /\ G_H s = Some (G, H) /\
       item (field_of gh (Coeffs G H)) m n
       = ((listed coeff "2015.0" gh n m
           + Q2R (e - 2015) * (listed coeff "2015-20" gh n m / 5))
          * item schmidt_norm m n)%R).
Proof.
  split; [vm_compute; reflexivity|]. split; [vm_compute; reflexivity|].
  split; [reflexivity|]. split; [reflexivity|].
  split; [intros label gh n m val Hin; exact (listed_row label Hin)|].
  split.
  - intros gh n m Hn Hm. cbv zeta.
    destruct (table_cell gh Hn Hm) as [_ [E0 E1]].
    rewrite E0, E1. split; [reflexivity | ring].
  - intros e v gh n m Hn Hm Hlo Hhi.
    destruct (resolve_from_text now v Hlo) as [s [G [H [Hs [HGH Hnm]]]]].
    exists s, G, H. split; [exact Hs|]. split; [exact HGH|].
    rewrite (Hnm gh n m Hn Hm), (last_span_fraction_inside Hhi).
    generalize (listed coeff "2015.0" gh n m) (listed coeff "2015-20" gh n m)
               (item schmidt_norm m n) (Q2R (e - 2015)).
    intros. field.
Qed.

(** Between the tabulated epochs [set_year] works on arrays of its own: the
    table is left as it is and a second call changes nothing. *)
Lemma set_year_off_table_is_idempotent now self yr :
  wf_table (coefficients self) ->
  existsb (fun k => key_eqb k yr) year_keys = false ->
  exists s,
    set_year now self (Some yr) = Some (s, []) /\
    coefficients s = coefficients self /\
    set_year now s (Some yr) = Some (s, []).
Proof.
  intros Hwf Hex.
  destruct (select_total yr Hwf) as [gr [hr [Hsel Hcases]]].
  destruct Hcases as [[k [Hin [E _]]] | [gc [hc [-> [-> [Hg Hh]]]]]].
  - assert (Hex' : existsb (fun k0 => key_eqb k0 yr) year_keys = true).
    { apply existsb_exists. exists k. split; [exact Hin | apply key_eqb_spec; exact E]. }
    congruence.
  - exists (IgrfModel (verbose self) (coefficients self) (Some yr)
              (Some (Owned (normalized gc))) (Some (Owned (normalized hc)))).
    split; [eapply set_year_owned; eassumption|].
    split; [reflexivity|].
    apply (@set_year_owned now
             (IgrfModel (verbose self) (coefficients self) (Some yr)
                (Some (Owned (normalized gc))) (Some (Owned (normalized hc))))
             yr gc hc Hsel Hg Hh).
Qed.

(** C3 (the code at the failing input): after [igrfModel(2000)] the table's
    own array for 2000 holds the normalised values, and a second
    [set_year(2000)] normalises them again: the coefficient [g 2 1], 3068.4
    in the table, is read as [-3068.4 * sqrt(1/3)] after the first call and
    as [3068.4 / 3] after the second. (Off the tabulated epochs the table is
    safe: [set_year_off_table_is_idempotent].) *)
Theorem set_year_twice_normalizes_twice (now : Z) :
  exists s1 s2 G1 H1 G2 H2,
    __init__ now (Some 2000%Q) false = Some (s1, []) /\
    set_year now s1 (Some 2000%Q) = Some (s2, []) /\
    G_H s1 = Some (G1, H1) /\ G_H s2 = Some (G2, H2) /\
    item (cg (entry table 2000)) 1 2 = 3068.4%R /\
    item G1 1 2 = (- (3068.4 * sqrt (1 / 3)))%R /\
    item G2 1 2 = (3068.4 / 3)%R /\
    item (cg (entry (coefficients s1) 2000)) 1 2 = item G1 1 2 /\
    G2 <> G1 /\ coefficients s1 <> table.
Proof.
  assert (Hlt : (1 < 15)%nat /\ (2 < 15)%nat) by lia. destruct Hlt as [Hi Hj].
  assert (E : (inject_Z 2000 == 2000)%Q) by reflexivity.
  destruct (entry_get wf_table_table in_year_keys_2000) as [He [Hg Hh]].
  pose (c1 := assign 2000 key_h (normalized (ch (entry table 2000)))
                (assign 2000 key_g (normalized (cg (entry table 2000))) table)).
  pose (s1 := IgrfModel false c1 (Some 2000%Q)
                (Some (Alias 2000 key_g)) (Some (Alias 2000 key_h))).
  assert (Hs1 : __init__ now (Some 2000%Q) false = Some (s1, [])).
  { rewrite init_unfold.
    apply (@set_year_alias now (IgrfModel false table None None None) 2000%Q 2000%Z
             (entry table 2000) wf_table_table in_year_keys_2000 E He). }
  assert (Hwf1 : wf_table (coefficients s1)).
  { cbn [s1 coefficients]. unfold c1.
    apply wf_assign; [apply wf_assign|];
      [exact wf_table_table | apply normalized_rect; exact Hg
      | apply normalized_rect; exact Hh]. }
  assert (He1 : entry (coefficients s1) 2000
                = Coeffs (normalized (cg (entry table 2000)))
                         (normalized (ch (entry table 2000)))).
  { unfold entry at 1. cbn [s1 coefficients]. unfold c1.
    rewrite !dict_get_assign, He, Z.eqb_refl. reflexivity. }
  destruct (@set_year_tabulated now s1 2000%Z 2000%Q Hwf1 in_year_keys_2000 E)
    as [s2 [Hs2 [_ [_ HGH2]]]].
  rewrite He1 in HGH2. cbn [cg ch] in HGH2.
  assert (HGH1 : G_H s1 = Some (normalized (cg (entry table 2000)),
                                normalized (ch (entry table 2000)))).
  { unfold s1, c1. eapply G_H_alias. exact He. }
  assert (Hsq : (sqrt (1 / 3) * sqrt (1 / 3) = 1 / 3)%R) by (apply sqrt_sqrt; lra).
  assert (Hpos : (0 < sqrt (1 / 3))%R) by (apply sqrt_lt_R0; lra).
  assert (E1 : item (normalized (cg (entry table 2000))) 1 2
               = (- (3068.4 * sqrt (1 / 3)))%R).
  { rewrite (item_normalized Hg Hi Hj), g21_2000, schmidt_norm_1_2. ring. }
  assert (E2 : item (normalized (normalized (cg (entry table 2000)))) 1 2
               = (3068.4 / 3)%R).
  { rewrite (item_normalized (normalized_rect Hg) Hi Hj), E1, schmidt_norm_1_2.
    replace (- (3068.4 * sqrt (1 / 3)) * - sqrt (1 / 3))%R
      with (3068.4 * (sqrt (1 / 3) * sqrt (1 / 3)))%R by ring.
    rewrite Hsq. field. }
  eexists s1, s2, _, _, _, _.
  split; [exact Hs1|]. split; [exact Hs2|]. split; [exact HGH1|]. split; [exact HGH2|].
  split; [exact g21_2000|]. split; [exact E1|]. split; [exact E2|].
  split; [rewrite He1; reflexivity|].
  split.
  - intros Heq. rewrite Heq, E1 in E2. nra.
  - intros Heq. cbn [s1 coefficients] in Heq.
    assert (E3 : item (cg (entry c1 2000)) 1 2 = item (cg (entry table 2000)) 1 2)
      by (rewrite Heq; reflexivity).
    cbn [s1 coefficients] in He1. rewrite He1 in E3. cbn [cg] in E3.
    rewrite E1, g21_2000 in E3. nra.
Qed.


(** ** Sums, slices and products of arrays *)

Module sums.
Import np np_facts.

Lemma sum_f_shift k f : sum_f (S k) f = (f O + sum_f k (fun i => f (S i)))%R.
Proof.
  unfold sum_f. simpl. rewrite <- seq_shift, map_map. reflexivity.
Qed.

Lemma sum_f_S k f : sum_f (S k) f = (sum_f k f + f k)%R.
Proof.
  unfold sum_f. rewrite seq_S, map_app, fold_right_app. simpl.
  generalize (seq 0 k). induction l as [|x l IH]; simpl; [ring|].
  rewrite IH. ring.
Qed.

Lemma sum_f_ext k f g :
  (forall i, (i < k)%nat -> f i = g i) -> sum_f k f = sum_f k g.
Proof.
  induction k as [|k IH]; intros E; [reflexivity|].
  rewrite !sum_f_S, IH, (E k) by (intros; try apply E; lia). reflexivity.
Qed.

Lemma sum_f_plus k f g : (sum_f k f + sum_f k g)%R = sum_f k (fun i => (f i + g i)%R).
Proof.
  induction k as [|k IH]; [unfold sum_f; simpl; ring|].
  rewrite !sum_f_S, <- IH. ring.
Qed.

Lemma sum_f_scale k c f : (sum_f k f * c)%R = sum_f k (fun i => (f i * c)%R).
Proof.
  induction k as [|k IH]; [unfold sum_f; simpl; ring|].
  rewrite !sum_f_S, <- IH. ring.
Qed.

Lemma sum_f_opp k f : (- sum_f k f)%R = sum_f k (fun i => (- f i)%R).
Proof.
  induction k as [|k IH]; [unfold sum_f; simpl; ring|].
  rewrite !sum_f_S, <- IH. ring.
Qed.

(** Terms that vanish beyond [n] can be left out. *)
Lemma sum_f_truncate k n f :
  (n <= k)%nat -> (forall i, (n <= i)%nat -> (i < k)%nat -> f i = 0%R) ->
  sum_f k f = sum_f n f.
Proof.
  induction k as [|k IH]; intros Hn Hz.
  - assert (n = O) by lia. subst. reflexivity.
  - destruct (Nat.eq_dec n (S k)) as [->|Hne]; [reflexivity|].
    rewrite sum_f_S, IH, (Hz k) by (intros; try apply Hz; lia). ring.
Qed.

Lemma nth_map_seq (f : nat -> R) k i :
  (i < k)%nat -> nth i (map f (seq 0 k)) 0%R = f i.
Proof.
  intros Hi. rewrite (nth_indep _ 0%R (f O)) by (rewrite length_map, length_seq; exact Hi).
  rewrite (map_nth f (seq 0 k) O i), seq_nth by exact Hi. reflexivity.
Qed.

(** The sum over a zipped pair of lists, by index. *)
Lemma fold_combine (x y : list R) k :
  length x = k -> length y = k ->
  fold_right Rplus 0%R (map (fun p => (fst p * snd p)%R) (combine x y))
  = sum_f k (fun i => (nth i x 0 * nth i y 0)%R).
Proof.
  revert y k. induction x as [|a x IH]; intros [|b y] k Hx Hy; simpl in *; subst;
    try discriminate; [reflexivity|].
  rewrite sum_f_shift. simpl. f_equal. apply IH; [reflexivity | congruence].
Qed.

Lemma dot_same (x y : list R) k :
  length x = k -> length y = k ->
  dot x y = Some (sum_f k (fun i => (nth i x 0 * nth i y 0)%R)).
Proof.
  intros Hx Hy. unfold dot. rewrite Hx, Hy, Nat.eqb_refl.
  f_equal. apply fold_combine; assumption.
Qed.

Lemma dot_mismatch (x y : list R) : length x <> length y -> dot x y = None.
Proof.
  intros H. unfold dot. destruct (Nat.eqb_spec (length x) (length y)); congruence.
Qed.

Lemma firstn_arange k n : (k <= n)%nat -> firstn k (arange n) = seq 0 k.
Proof.
  unfold arange. intros H. replace n with (k + (n - k))%nat by lia.
  rewrite seq_app, firstn_app, length_seq, Nat.sub_diag, firstn_O, app_nil_r.
  rewrite firstn_all2 by (rewrite length_seq; lia). reflexivity.
Qed.

Lemma nth_map_firstn k (a : ndarray) i :
  nth i (map (firstn k) a) [] = firstn k (nth i a []).
Proof.
  rewrite <- (map_nth (firstn k)). rewrite firstn_nil. reflexivity.
Qed.

Lemma slice2_rect k (a : ndarray) :
  rect 15 15 a -> (k <= 15)%nat -> rect k k (slice2 k a).
Proof.
  intros [Hl Hf] Hk. unfold slice2. split.
  - rewrite length_firstn, length_map. lia.
  - apply Forall_forall. intros row Hin.
    apply (In_nth _ _ []) in Hin. destruct Hin as [i [Hi E]].
    rewrite length_firstn, length_map in Hi.
    rewrite nth_firstn in E. destruct (Nat.ltb_spec i k) as [_|]; [|lia].
    rewrite nth_map_firstn in E. subst row.
    rewrite length_firstn.
    rewrite Forall_forall in Hf. rewrite (Hf (nth i a [])) by (apply nth_In; lia). lia.
Qed.

Lemma item_slice2 k (a : ndarray) i j :
  (i < k)%nat -> (j < k)%nat -> item (slice2 k a) i j = item a i j.
Proof.
  intros Hi Hj. unfold item, slice2.
  rewrite nth_firstn. destruct (Nat.ltb_spec i k) as [_|]; [|lia].
  rewrite nth_map_firstn, nth_firstn.
  destruct (Nat.ltb_spec j k) as [_|]; [reflexivity|lia].
Qed.

(** A slice of 15 rows cut to more than 15 keeps its 15 rows. *)
Lemma slice2_length k (a : ndarray) :
  rect 15 15 a -> (15 <= k)%nat -> length (slice2 k a) = 15%nat.
Proof.
  intros [Hl _] Hk. unfold slice2. rewrite length_firstn, length_map. lia.
Qed.

Lemma column_rect r c (a : ndarray) j :
  rect r c a -> (j < c)%nat -> column j a = Some (map (fun row => nth j row 0%R) a).
Proof.
  intros [_ Hf] Hj. unfold column. rewrite <- mapM_total.
  apply mapM_ext_in. intros row Hin. rewrite Forall_forall in Hf.
  apply nth_error_nth'. rewrite (Hf row Hin). exact Hj.
Qed.

Lemma mapM_map_seq {B : Type} (f : nat -> option B) (g : nat -> B) k :
  (forall i, (i < k)%nat -> f i = Some (g i)) ->
  mapM f (seq 0 k) = Some (map g (seq 0 k)).
Proof.
  intros E. rewrite <- mapM_total. apply mapM_ext_in.
  intros i Hi. apply in_seq in Hi. apply E. lia.
Qed.

(** [a.T.dot(v)] for a square array: one sum per column. *)
Lemma Tdot_square k (a : ndarray) (v : list R) :
  (0 < k)%nat -> rect k k a -> length v = k ->
  Tdot a v
  = Some (map (fun n => sum_f k (fun m => (item a m n * nth m v 0)%R)) (seq 0 k)).
Proof.
  intros Hk Ha Hv. unfold Tdot.
  assert (HT : T a = mapM (fun j => column j a) (seq 0 k)).
  { unfold T, arange. destruct a as [|row a'].
    - destruct Ha as [Ha _]. simpl in Ha. lia.
    - destruct Ha as [_ Hf]. inversion Hf; subst. rewrite H1. reflexivity. }
  rewrite HT.
  rewrite (mapM_map_seq (fun j => column j a) (fun j => map (fun r => nth j r 0%R) a))
    by (intros j Hj; apply (column_rect Ha Hj)).
  cbn [bind].
  rewrite <- (mapM_total (fun n => sum_f k (fun m => (item a m n * nth m v 0)%R))).
  generalize (seq 0 k) as l. induction l as [|j l IH]; [reflexivity|].
  cbn [map mapM]. rewrite IH.
  rewrite (@dot_same _ v k) by (rewrite ?length_map; destruct Ha; assumption).
  cbn [bind].
  assert (E : sum_f k (fun i => (nth i (map (fun r => nth j r 0) a) 0 * nth i v 0)%R)
              = sum_f k (fun m => (item a m j * nth m v 0)%R)).
  { apply sum_f_ext. intros m Hm. unfold item. f_equal.
    rewrite (nth_indep _ 0%R (nth j [] 0%R)) by (rewrite length_map; destruct Ha; lia).
    apply (map_nth (fun r => nth j r 0%R)). }
  rewrite E. reflexivity.
Qed.

End sums.


(** ** The two evaluations of the field *)

Import sums.

Lemma zipw_map_seq {A B C : Type} (op : A -> B -> C) (f : nat -> A) (g : nat -> B) l :
  zipw op (map f l) (map g l) = map (fun i => op (f i) (g i)) l.
Proof.
  unfold zipw. induction l as [|x l IH]; simpl; [reflexivity|]. rewrite IH. reflexivity.
Qed.

Lemma ew1_map_seq (op : R -> R -> R) (f g : nat -> R) l :
  np.ew1 op (map f l) (map g l) = Some (map (fun i => op (f i) (g i)) l).
Proof.
  rewrite ew1_same by (rewrite !length_map; reflexivity).
  rewrite zipw_map_seq. reflexivity.
Qed.

Lemma dot_map_seq (f g : nat -> R) k :
  np.dot (map f (seq 0 k)) (map g (seq 0 k)) = Some (sum_f k (fun n => (f n * g n)%R)).
Proof.
  rewrite (@dot_same _ _ k) by (rewrite length_map, length_seq; reflexivity).
  f_equal. apply sum_f_ext. intros i Hi. rewrite !nth_map_seq by exact Hi. reflexivity.
Qed.

Lemma Tdot_map_seq k (a : np.ndarray) (f : nat -> R) :
  (0 < k)%nat -> np.rect k k a ->
  np.Tdot a (map f (seq 0 k))
  = Some (map (fun n => sum_f k (fun m => (item a m n * f m)%R)) (seq 0 k)).
Proof.
  intros Hk Ha.
  rewrite (@Tdot_square k a _ Hk Ha) by (rewrite length_map, length_seq; reflexivity).
  f_equal. apply map_ext. intros n. apply sum_f_ext. intros m Hm.
  rewrite nth_map_seq by exact Hm. reflexivity.
Qed.

Section Evaluation.

Variable lpmn : nat -> nat -> R -> np.ndarray * np.ndarray.

(** What the model needs from the library routine: the two arrays have
    [m+1] rows and [n+1] columns. *)
Hypothesis lpmn_shape : forall d z,
  np.rect (d + 1) (d + 1) (fst (lpmn d d z)) /\
  np.rect (d + 1) (d + 1) (snd (lpmn d d z)).

(** Up to degree 14 [spherical] returns, with these numbers. *)
Lemma spherical_eval self G H r theta phi d (potential metadata : bool) :
  G_H self = Some (G, H) -> np.rect 15 15 G -> np.rect 15 15 H -> (d <= 14)%nat ->
  let th := np.clip theta (1 / 1000000) (PI - 1 / 1000000) in
  let P := fst (lpmn d d (cos th)) in
  let dP := np.scale (-1 * sin th) (snd (lpmn d d (cos th))) in
  let gg := np.slice2 (d + 1) G in
  let hh := np.slice2 (d + 1) H in
  let rho := Rabs (Re / r) in
  let fld :=
    (if potential then [("V"%string, spherical_V (d + 1) gg hh P rho phi)] else [])
    ++ [("r"%string, spherical_r (d + 1) gg hh P rho phi);
        ("phi"%string, spherical_phi (d + 1) gg hh P rho phi (sin th));
        ("theta"%string, spherical_theta (d + 1) gg hh dP rho phi)] in
  spherical lpmn self r theta phi d potential metadata
  = Some (if metadata
          then Result fld
                 (Some [("r"%string, Some r); ("theta"%string, Some th);
                        ("phi"%string, Some phi)])
                 (Some (Metadata "IGRF magnetic field model" "nanoTesla" (year self)))
          else Result fld None None).
Proof.
  intros HGH HG HH Hd. cbv zeta. unfold spherical.
  set (th := np.clip theta (1 / 1000000) (PI - 1 / 1000000)).
  destruct (lpmn_shape d (cos th)) as [HP HdP].
  destruct (lpmn d d (cos th)) as [P dP] eqn:El. cbn [fst snd] in HP, HdP |- *.
  rewrite HGH. cbn [bind fst snd].
  assert (Hk : (d + 1 <= 15)%nat) by lia.
  assert (Hpos : (0 < d + 1)%nat) by lia.
  pose proof (slice2_rect HG Hk) as Hgg. pose proof (slice2_rect HH Hk) as Hhh.
  pose proof (scale_rect (-1 * sin th) HdP) as HdP'.
  unfold np.mul.
  rewrite (ew2_rect Rmult Hgg HP), (ew2_rect Rmult Hhh HP). cbn [bind].
  rewrite (ew2_rect Rmult Hgg HdP'), (ew2_rect Rmult Hhh HdP').
  unfold np.slice1. rewrite (firstn_arange Hk). rewrite !map_map.
  pose proof (zipw2_rect Rmult Hgg HP) as HGmn.
  pose proof (zipw2_rect Rmult Hhh HP) as HHmn.
  pose proof (zipw2_rect Rmult Hgg HdP') as HGd.
  pose proof (zipw2_rect Rmult Hhh HdP') as HHd.
  rewrite !(Tdot_map_seq _ Hpos HGmn), !(Tdot_map_seq _ Hpos HHmn). cbn [bind].
  rewrite !ew1_map_seq. cbn [bind].
  rewrite !(Tdot_map_seq _ Hpos HGmn), !(Tdot_map_seq _ Hpos HHmn). cbn [bind].
  unfold vneg. rewrite map_map, !ew1_map_seq. cbn [bind].
  rewrite !(Tdot_map_seq _ Hpos HGd), !(Tdot_map_seq _ Hpos HHd). cbn [bind].
  rewrite !ew1_map_seq. cbn [bind].
  rewrite !dot_map_seq.
  destruct potential; cbn [bind update fold_left sset fst snd app];
    destruct metadata; reflexivity.
Qed.

(** Beyond degree 14 the slice of the coefficients keeps its 15 rows, the
    Legendre arrays have more, and the element-wise product raises. *)
Lemma spherical_raises self G H r theta phi d potential metadata :
  G_H self = Some (G, H) -> np.rect 15 15 G -> np.rect 15 15 H -> (15 <= d)%nat ->
  spherical lpmn self r theta phi d potential metadata = None.
Proof.
  intros HGH HG HH Hd. unfold spherical.
  set (th := np.clip theta (1 / 1000000) (PI - 1 / 1000000)).
  destruct (lpmn_shape d (cos th)) as [[HP _] _].
  destruct (lpmn d d (cos th)) as [P dP] eqn:El. cbn [fst snd] in HP |- *.
  rewrite HGH. cbn [bind fst snd].
  assert (Hmul : np.mul (np.slice2 (d + 1) G) P = None).
  { unfold np.mul, np.ew2, np.broadcast.
    assert (Hl : length (np.slice2 (d + 1) G) = 15%nat) by (apply slice2_length; [exact HG | lia]).
    rewrite Hl, HP.
    destruct (Nat.eqb_spec 15 (d + 1)) as [E|_]; [lia|].
    destruct (np.slice2 (d + 1) G) as [|x1 [|x2 l]]; try discriminate Hl.
    destruct P as [|p1 [|p2 P']]; simpl in HP; try lia. reflexivity. }
  rewrite Hmul. reflexivity.
Qed.

End Evaluation.


(** *** The reference double loop *)

Lemma fold_left_acc {A : Type} (t : A -> R) (l : list A) (a : R) :
  fold_left (fun s x => (s + t x)%R) l a = (a + fold_right Rplus 0%R (map t l))%R.
Proof.
  revert a. induction l as [|x l IH]; intros a; simpl; [ring|].
  rewrite IH. ring.
Qed.

Lemma sum_loop_nm (d : nat) (t : nat * nat -> R) :
  fold_right Rplus 0%R (map t (loop_nm d)) = ref_sum d (fun n m => t (n, m)).
Proof.
  unfold loop_nm, ref_sum, sum_f. generalize (seq 0 (d + 1)) as l.
  induction l as [|n l IH]; [reflexivity|].
  cbn [flat_map map fold_right]. rewrite map_app, fold_right_app, <- IH, map_map.
  generalize (fold_right Rplus 0%R (map t (flat_map (fun n0 => map (fun m => (n0, m)) (seq 0 (n0 + 1))) l))) as s.
  intros s. generalize (seq 0 (n + 1)) as l'.
  induction l' as [|m l' IH']; simpl; [ring|]. rewrite IH'. ring.
Qed.

Lemma in_loop_nm d n m : In (n, m) (loop_nm d) -> (m <= n)%nat /\ (n <= d)%nat.
Proof.
  unfold loop_nm. rewrite in_flat_map. intros [n' [Hn Hm]].
  apply in_seq in Hn. apply in_map_iff in Hm. destruct Hm as [m' [E Hm']].
  injection E as -> ->. apply in_seq in Hm'. lia.
Qed.

Section Reference.

Variable lpmn : nat -> nat -> R -> np.ndarray * np.ndarray.

Hypothesis lpmn_shape : forall d z,
  np.rect (d + 1) (d + 1) (fst (lpmn d d z)) /\
  np.rect (d + 1) (d + 1) (snd (lpmn d d z)).

Lemma foldM_step_total G H P dP radius phi d l acc :
  np.rect 15 15 G -> np.rect 15 15 H ->
  np.rect (d + 1) (d + 1) P -> np.rect (d + 1) (d + 1) dP -> (d <= 14)%nat ->
  (forall n m, In (n, m) l -> (m <= n)%nat /\ (n <= d)%nat) ->
  foldM (spherical0_step G H P dP radius phi) l acc
  = Some (fold_left (step_total G H P dP radius phi) l acc).
Proof.
  intros HG HH HP HdP Hd. revert acc.
  induction l as [|[n m] l IH]; intros acc Hin; [reflexivity|].
  destruct (Hin n m (or_introl eq_refl)) as [Hm Hn].
  cbn [foldM fold_left]. destruct acc as [[[V Br] Bt] Bp].
  unfold spherical0_step at 1.
  rewrite (@getitem_item 15 15 G m n HG), (@getitem_item 15 15 H m n HH),
    (@getitem_item (d + 1) (d + 1) P m n HP), (@getitem_item (d + 1) (d + 1) dP m n HdP)
    by lia.
  cbn [bind]. apply IH. intros n' m' H'. apply Hin. right. exact H'.
Qed.

Lemma fold_left_step_total G H P dP radius phi l V Br Bt Bp :
  fold_left (step_total G H P dP radius phi) l (V, Br, Bt, Bp)
  = (fold_left (fun s nm => (s + (Re / radius) ^ (fst nm + 1)
        * (item G (snd nm) (fst nm) * cos (INR (snd nm) * phi)
           + item H (snd nm) (fst nm) * sin (INR (snd nm) * phi))
        * item P (snd nm) (fst nm))%R) l V,
     fold_left (fun s nm => (s + (Re / radius) ^ (fst nm + 2) * INR (fst nm + 1)
        * (item G (snd nm) (fst nm) * cos (INR (snd nm) * phi)
           + item H (snd nm) (fst nm) * sin (INR (snd nm) * phi))
        * item P (snd nm) (fst nm))%R) l Br,
     fold_left (fun s nm => (s + (Re / radius) ^ (fst nm + 2)
        * (item G (snd nm) (fst nm) * cos (INR (snd nm) * phi)
           + item H (snd nm) (fst nm) * sin (INR (snd nm) * phi))
        * item dP (snd nm) (fst nm))%R) l Bt,
     fold_left (fun s nm => (s + (Re / radius) ^ (fst nm + 2)
        * (- item G (snd nm) (fst nm) * sin (INR (snd nm) * phi)
           + item H (snd nm) (fst nm) * cos (INR (snd nm) * phi))
        * item P (snd nm) (fst nm) * INR (snd nm))%R) l Bp).
Proof.
  revert V Br Bt Bp. induction l as [|[n m] l IH]; intros V Br Bt Bp; [reflexivity|].
  cbn [fold_left step_total fst snd]. apply IH.
Qed.

(** Up to degree 14 [_spherical0] returns, with these numbers. *)
Lemma spherical0_eval self G H radius theta phi d :
  G_H self = Some (G, H) -> np.rect 15 15 G -> np.rect 15 15 H -> (d <= 14)%nat ->
  let P := fst (lpmn d d (cos theta)) in
  let dP := np.scale (-1 * sin theta) (snd (lpmn d d (cos theta))) in
  let q := (Re / radius)%R in
  _spherical0 lpmn self radius theta phi d
  = Some (reference_r d G H P q phi, reference_theta d G H dP q phi,
          reference_phi d G H P q phi (sin theta), reference_V d G H P q phi).
Proof.
  intros HGH HG HH Hd. cbv zeta. unfold _spherical0.
  destruct (lpmn_shape d (cos theta)) as [HP HdP].
  destruct (lpmn d d (cos theta)) as [P dP] eqn:El. cbn [fst snd] in HP, HdP |- *.
  rewrite HGH. cbn [bind fst snd].
  pose proof (scale_rect (-1 * sin theta) HdP) as HdP'.
  rewrite (@foldM_step_total G H P _ radius phi d (loop_nm d) _ HG HH HP HdP' Hd)
    by (intros n m; apply in_loop_nm).
  cbn [bind]. rewrite fold_left_step_total.
  rewrite !fold_left_acc, !sum_loop_nm. cbn [fst snd].
  unfold reference_r, reference_theta, reference_phi, reference_V.
  rewrite !Rplus_0_l. reflexivity.
Qed.

End Reference.


(** *** The two evaluations agree *)

Transparent schmidt_norm.

Lemma schmidt_norm_above_degree : order_within_degree schmidt_norm.
Proof.
  intros m n Hnm Hm. unfold item, schmidt_norm, np.arange.
  rewrite (nth_indep _ [] (map (fun n2 : nat =>
      (sqrt ((2 - (if (O =? 0)%nat then 1 else 0))
             * factorial (Z.of_nat n2 - Z.of_nat O)
             / factorial (Z.of_nat n2 + Z.of_nat O)) * (-1) ^ O)%R) (seq 0 15)))
    by (rewrite length_map, length_seq; exact Hm).
  rewrite (map_nth (fun m2 : nat => map (fun n2 : nat =>
      (sqrt ((2 - (if (m2 =? 0)%nat then 1 else 0))
             * factorial (Z.of_nat n2 - Z.of_nat m2)
             / factorial (Z.of_nat n2 + Z.of_nat m2)) * (-1) ^ m2)%R) (seq 0 15))
    (seq 0 15) O m).
  rewrite seq_nth by exact Hm. cbn [Nat.add].
  rewrite nth_map_seq by lia.
  assert (E : factorial (Z.of_nat n - Z.of_nat m) = 0%R).
  { unfold factorial. destruct (Z.ltb_spec (Z.of_nat n - Z.of_nat m) 0); [reflexivity | lia]. }
  rewrite E. unfold Rdiv. rewrite Rmult_0_r, Rmult_0_l, sqrt_0. ring.
Qed.

Opaque schmidt_norm.

Lemma normalized_above_degree a :
  np.rect 15 15 a -> order_within_degree (normalized a).
Proof.
  intros Ha m n Hnm Hm.
  rewrite (item_normalized Ha) by lia.
  rewrite (schmidt_norm_above_degree Hnm Hm). ring.
Qed.

(** The sum over all orders of the product arrays is the sum over the
    orders up to the degree of the products of the entries. *)
Lemma inner_sum k (G H X : np.ndarray) n (a b : nat -> R) c :
  np.rect 15 15 G -> np.rect 15 15 H -> np.rect k k X -> (k <= 15)%nat -> (n < k)%nat ->
  order_within_degree G -> order_within_degree H ->
  (msum_of k (zipw (zipw Rmult) (np.slice2 k G) X) (zipw (zipw Rmult) (np.slice2 k H) X)
     a b n * c)%R
  = sum_f (n + 1) (fun m => ((item G m n * a m + item H m n * b m) * item X m n * c)%R).
Proof.
  intros HG HH HX Hk Hn LG LH. unfold msum_of.
  pose proof (slice2_rect HG Hk) as Hgg. pose proof (slice2_rect HH Hk) as Hhh.
  rewrite sum_f_plus, sum_f_scale.
  assert (E : forall m, (m < k)%nat ->
    ((item (zipw (zipw Rmult) (np.slice2 k G) X) m n * a m
      + item (zipw (zipw Rmult) (np.slice2 k H) X) m n * b m) * c
     = (item G m n * a m + item H m n * b m) * item X m n * c)%R).
  { intros m Hm.
    rewrite (item_zipw2 Rmult Hgg HX Hm Hn), (item_zipw2 Rmult Hhh HX Hm Hn),
      !item_slice2 by assumption. ring. }
  rewrite (sum_f_ext _ _ E).
  apply sum_f_truncate; [lia|].
  intros m Hm1 Hm2. rewrite (LG m n), (LH m n) by lia. ring.
Qed.

Section Agreement.

Variables (G H P dP : np.ndarray) (d : nat) (q phi : R).

Hypothesis HG : np.rect 15 15 G.
Hypothesis HH : np.rect 15 15 H.
Hypothesis HP : np.rect (d + 1) (d + 1) P.
Hypothesis HdP : np.rect (d + 1) (d + 1) dP.
Hypothesis Hd : (d <= 14)%nat.
Hypothesis LG : order_within_degree G.
Hypothesis LH : order_within_degree H.

Lemma spherical_r_reference :
  spherical_r (d + 1) (np.slice2 (d + 1) G) (np.slice2 (d + 1) H) P q phi
  = reference_r d G H P q phi.
Proof.
  unfold spherical_r, reference_r, ref_sum. apply sum_f_ext. intros n Hn.
  rewrite (inner_sum _ _ _ HG HH HP) by (assumption || lia).
  apply sum_f_ext. intros m Hm. ring.
Qed.

Lemma spherical_theta_reference :
  spherical_theta (d + 1) (np.slice2 (d + 1) G) (np.slice2 (d + 1) H) dP q phi
  = reference_theta d G H dP q phi.
Proof.
  unfold spherical_theta, reference_theta, ref_sum. f_equal.
  apply sum_f_ext. intros n Hn.
  rewrite (inner_sum _ _ _ HG HH HdP) by (assumption || lia).
  apply sum_f_ext. intros m Hm. ring.
Qed.

Lemma spherical_V_reference :
  q <> 0%R ->
  spherical_V (d + 1) (np.slice2 (d + 1) G) (np.slice2 (d + 1) H) P q phi
  = reference_V d G H P q phi.
Proof.
  intros Hq. unfold spherical_V, reference_V, ref_sum.
  rewrite Rmult_comm. f_equal.
  apply sum_f_ext. intros n Hn.
  rewrite (inner_sum _ _ _ HG HH HP) by (assumption || lia).
  apply sum_f_ext. intros m Hm.
  replace (n + 2)%nat with (S (n + 1)) by lia. rewrite <- tech_pow_Rmult.
  field. exact Hq.
Qed.

Lemma spherical_phi_reference sth :
  spherical_phi (d + 1) (np.slice2 (d + 1) G) (np.slice2 (d + 1) H) P q phi sth
  = reference_phi d G H P q phi sth.
Proof.
  unfold spherical_phi, reference_phi, ref_sum. do 2 f_equal.
  apply sum_f_ext. intros n Hn.
  rewrite sum_f_opp.
  rewrite (@sum_f_ext (d + 1) (fun m => (- (item (zipw (zipw Rmult) (np.slice2 (d + 1) G) P) m n
                                       * (INR m * sin (INR m * phi))))%R)
                       (fun m => (item (zipw (zipw Rmult) (np.slice2 (d + 1) G) P) m n
                                    * (- (INR m * sin (INR m * phi))))%R))
    by (intros; ring).
  change (sum_f (d + 1) (fun m => (item (zipw (zipw Rmult) (np.slice2 (d + 1) G) P) m n
                                     * (- (INR m * sin (INR m * phi))))%R)
          + sum_f (d + 1) (fun m => (item (zipw (zipw Rmult) (np.slice2 (d + 1) H) P) m n
                                       * (INR m * cos (INR m * phi)))%R))%R
    with (msum_of (d + 1) (zipw (zipw Rmult) (np.slice2 (d + 1) G) P)
            (zipw (zipw Rmult) (np.slice2 (d + 1) H) P)
            (fun m => (- (INR m * sin (INR m * phi)))%R)
            (fun m => (INR m * cos (INR m * phi))%R) n).
  rewrite (inner_sum _ _ _ HG HH HP) by (assumption || lia).
  apply sum_f_ext. intros m Hm. ring.
Qed.

End Agreement.

Lemma clip_inside x lo hi : (lo <= x)%R -> (x <= hi)%R -> np.clip x lo hi = x.
Proof.
  intros H1 H2. unfold np.clip. rewrite (Rmax_left x lo H1). apply Rmin_left. exact H2.
Qed.

Lemma Re_over_radius r : (0 < r)%R -> Rabs (Re / r) = (Re / r)%R /\ (Re / r <> 0)%R.
Proof.
  intros Hr. assert (Hpos : (0 < Re / r)%R).
  { apply Rdiv_lt_0_compat; [unfold Re; lra | exact Hr]. }
  split; [apply Rabs_right; lra | lra].
Qed.

(** Reading the dictionary [spherical] builds. *)
Lemma spherical_fields (potential : bool) (V Br Bph Bth : R) :
  let fld := (if potential then [("V"%string, V)] else [])
             ++ [("r"%string, Br); ("phi"%string, Bph); ("theta"%string, Bth)] in
  sget "r" fld = Some Br /\ sget "theta" fld = Some Bth /\ sget "phi" fld = Some Bph
  /\ sget "V" fld = (if potential then Some V else None).
Proof. destruct potential; repeat split; reflexivity. Qed.


(** ** The claims about the field evaluation *)

(** A model the constructor returns reads normalised arrays of the table's
    shape, with no coefficient of an order above its degree. *)
Lemma configured_model now yr v self out :
  __init__ now yr v = Some (self, out) ->
  exists G H, G_H self = Some (G, H) /\ np.rect 15 15 G /\ np.rect 15 15 H
              /\ order_within_degree G /\ order_within_degree H.
Proof.
  rewrite init_unfold. intros Hinit.
  assert (Hwf : wf_table (coefficients (IgrfModel v table None None None)))
    by exact wf_table_table.
  destruct (@set_year_total now _ yr Hwf) as [s [out' [Hs [_ [a [b [HGH [Ha Hb]]]]]]]].
  rewrite Hs in Hinit. injection Hinit as <- _.
  exists (normalized a), (normalized b).
  split; [exact HGH|].
  split; [apply normalized_rect; exact Ha|].
  split; [apply normalized_rect; exact Hb|].
  split; apply normalized_above_degree; assumption.
Qed.

(** The recurrence [legendre_lpmn] has the shape of [lpmn]'s result. *)
Lemma legendre_lpmn_shape d z :
  np.rect (d + 1) (d + 1) (fst (legendre_lpmn d d z)) /\
  np.rect (d + 1) (d + 1) (snd (legendre_lpmn d d z)).
Proof.
  unfold legendre_lpmn, np.arange, np.rect. cbn [fst snd].
  rewrite !length_map, !length_seq, Nat.add_1_r.
  split; (split; [reflexivity|]); apply Forall_forall; intros row Hin;
    apply in_map_iff in Hin; destruct Hin as [i [<- _]];
    rewrite length_map, length_seq; reflexivity.
Qed.

(** The recurrence against the values the source quotes for
    [lpmn(n=3, m=3, z=0.2)[0][:,2]]: -0.44, -0.58787754, 2.88, 0. *)
Example legendre_column_2 :
  map (fun m => item (fst (legendre_lpmn 3 3 0.2)) m 2) [0; 1; 2; 3]%nat
  = [-0.44; - (0.6 * sqrt 0.96); 2.88; 0]%R.
Proof.
  assert (Hs : (sqrt (1 - 0.2 * 0.2) = sqrt 0.96)%R) by (f_equal; lra).
  assert (Hq : (sqrt 0.96 * sqrt 0.96 = 0.96)%R) by (apply sqrt_sqrt; lra).
  unfold legendre_lpmn, item, np.arange.
  cbn [fst map seq nth legendre_P Nat.ltb Nat.leb Nat.sub legendre_from
       legendre_diagonal snd Nat.add INR].
  rewrite Hs. repeat (f_equal; try (field_simplify; nra)).
Qed.

Lemma init_2000 now : __init__ now (Some 2000%Q) false = Some (model_2000, []).
Proof.
  rewrite init_unfold.
  destruct (entry_get wf_table_table in_year_keys_2000) as [He _].
  assert (E : (inject_Z 2000 == 2000)%Q) by reflexivity.
  exact (@set_year_alias now (IgrfModel false table None None None) 2000%Q 2000%Z
           (entry table 2000) wf_table_table in_year_keys_2000 E He).
Qed.

Section FieldClaims.

Variable lpmn : nat -> nat -> R -> np.ndarray * np.ndarray.

Hypothesis lpmn_shape : forall d z,
  np.rect (d + 1) (d + 1) (fst (lpmn d d z)) /\
  np.rect (d + 1) (d + 1) (snd (lpmn d d z)).

(** Both evaluations on a configured model, up to degree 14. *)
Lemma spherical_agrees now yr v self out r theta phi d (potential metadata : bool) :
  __init__ now yr v = Some (self, out) ->
  (0 < r)%R -> (1 / 1000000 <= theta)%R -> (theta <= PI - 1 / 1000000)%R ->
  (d <= 14)%nat ->
  exists Br Bth Bph V res,
    _spherical0 lpmn self r theta phi d = Some (Br, Bth, Bph, V) /\
    spherical lpmn self r theta phi d potential metadata = Some res /\
    sget "r" (field res) = Some Br /\
    sget "theta" (field res) = Some Bth /\
    sget "phi" (field res) = Some Bph /\
    sget "V" (field res) = (if potential then Some V else None).
Proof.
  intros Hinit Hr Hlo Hhi Hd.
  destruct (configured_model _ _ _ Hinit) as [G [H [HGH [HG [HH [LG LH]]]]]].
  pose proof (@spherical_eval lpmn lpmn_shape self G H r theta phi d potential metadata
                HGH HG HH Hd) as Hv.
  pose proof (@spherical0_eval lpmn lpmn_shape self G H r theta phi d HGH HG HH Hd) as Hr0.
  cbv zeta in Hv, Hr0.
  rewrite (clip_inside Hlo Hhi) in Hv.
  destruct (Re_over_radius Hr) as [Eq Hq]. rewrite Eq in Hv.
  destruct (lpmn_shape d (cos theta)) as [HP HdP].
  pose proof (scale_rect (-1 * sin theta) HdP) as HdP'.
  rewrite (spherical_r_reference _ _ HG HH HP Hd LG LH),
    (spherical_theta_reference _ _ HG HH HdP' Hd LG LH),
    (spherical_phi_reference _ _ HG HH HP Hd LG LH),
    (spherical_V_reference _ HG HH HP Hd LG LH Hq) in Hv.
  eexists _, _, _, _, _. split; [exact Hr0|]. split; [exact Hv|].
  destruct metadata; cbn [field]; apply spherical_fields.
Qed.

(** C5: on a configured model, for a radius r > 0, a colatitude in the
    clamped range and a degree up to 13, the vectorised [spherical] and the
    scalar double sum [_spherical0] return the same four real numbers
    [(Br, -Btheta, -Bphi/sin theta, V)] (over the reals, where no rounding
    separates them; [V] is in the dictionary when [potential] is set). *)
Theorem spherical_matches_reference now yr v self out r theta phi d
    (potential metadata : bool) :
  __init__ now yr v = Some (self, out) ->
  (0 < r)%R -> (1 / 1000000 <= theta)%R -> (theta <= PI - 1 / 1000000)%R ->
  (d <= 13)%nat ->
  exists Br Bth Bph V res,
    _spherical0 lpmn self r theta phi d = Some (Br, Bth, Bph, V) /\
    spherical lpmn self r theta phi d potential metadata = Some res /\
    sget "r" (field res) = Some Br /\
    sget "theta" (field res) = Some Bth /\
    sget "phi" (field res) = Some Bph /\
    sget "V" (field res) = (if potential then Some V else None).
Proof.
  intros Hinit Hr Hlo Hhi Hd.
  eapply spherical_agrees; try eassumption. lia.
Qed.

(** C4 (amended): on a configured model every degree up to 14 is used as it
    is requested: the evaluation returns, and each component is the sum over
    the degrees 0..d and the orders 0..n of the reference; from degree 15 on
    nothing is clamped and the evaluation raises. *)
Theorem degree_used_as_requested_or_raises now yr v self out r theta phi d
    (potential metadata : bool) :
  __init__ now yr v = Some (self, out) ->
  ((d <= 14)%nat ->
   exists G H res,
     G_H self = Some (G, H) /\
     spherical lpmn self r theta phi d potential metadata = Some res /\
     let th := np.clip theta (1 / 1000000) (PI - 1 / 1000000) in
     let P := fst (lpmn d d (cos th)) in
     let dP := np.scale (-1 * sin th) (snd (lpmn d d (cos th))) in
     let q := Rabs (Re / r) in
     sget "r" (field res) = Some (reference_r d G H P q phi) /\
     sget "theta" (field res) = Some (reference_theta d G H dP q phi) /\
     sget "phi" (field res) = Some (reference_phi d G H P q phi (sin th))) /\
  ((15 <= d)%nat ->
   spherical lpmn self r theta phi d potential metadata = None).
Proof.
  intros Hinit.
  destruct (configured_model _ _ _ Hinit) as [G [H [HGH [HG [HH [LG LH]]]]]].
  split.
  - intros Hd. exists G, H.
    pose proof (@spherical_eval lpmn lpmn_shape self G H r theta phi d potential metadata
                  HGH HG HH Hd) as Hv.
    cbv zeta in Hv |- *.
    set (th := np.clip theta (1 / 1000000) (PI - 1 / 1000000)) in *.
    destruct (lpmn_shape d (cos th)) as [HP HdP].
    pose proof (scale_rect (-1 * sin th) HdP) as HdP'.
    rewrite (spherical_r_reference _ _ HG HH HP Hd LG LH),
      (spherical_theta_reference _ _ HG HH HdP' Hd LG LH),
      (spherical_phi_reference _ _ HG HH HP Hd LG LH) in Hv.
    eexists. split; [exact HGH|]. split; [exact Hv|].
    destruct metadata; cbn [field];
      match goal with
      | |- context [(if potential then [(_, ?V)] else []) ++ [(_, ?a); (_, ?b); (_, ?c)]] =>
          destruct (spherical_fields potential V a b c) as [E1 [E2 [E3 _]]]
      end; cbv zeta in E1, E2, E3; rewrite E1, E2, E3; repeat split.
  - intros Hd. exact (@spherical_raises lpmn lpmn_shape self G H r theta phi d
                        potential metadata HGH HG HH Hd).
Qed.

End FieldClaims.

Lemma one_in_clamped_range : (1 / 1000000 <= 1)%R /\ (1 <= PI - 1 / 1000000)%R.
Proof. pose proof PI2_1. split; lra. Qed.

Lemma spherical_matches_reference_witness :
  exists Br Bth Bph V res,
    _spherical0 legendre_lpmn model_2000 6371200 1 0 13 = Some (Br, Bth, Bph, V) /\
    spherical legendre_lpmn model_2000 6371200 1 0 13 true true = Some res /\
    sget "r" (field res) = Some Br /\
    sget "theta" (field res) = Some Bth /\
    sget "phi" (field res) = Some Bph /\
    sget "V" (field res) = Some V.
Proof.
  apply (@spherical_matches_reference legendre_lpmn legendre_lpmn_shape
           2026 (Some 2000%Q) false model_2000 [] 6371200 1 0 13 true true).
  - apply init_2000.
  - lra.
  - exact (proj1 one_in_clamped_range).
  - exact (proj2 one_in_clamped_range).
  - lia.
Defined.

(** C4 (as stated, refuted): [igrfModel(2000).spherical(r, theta, phi,
    degree=15)] raises. *)
Lemma degree_15_counterexample :
  __init__ 2026 (Some 2000%Q) false = Some (model_2000, []) /\
  spherical legendre_lpmn model_2000 6371200 1 0 15 false true = None.
Proof.
  split; [apply init_2000|].
  destruct (configured_model _ _ _ (init_2000 2026)) as [G [H [HGH [HG [HH _]]]]].
  apply (@spherical_raises legendre_lpmn legendre_lpmn_shape model_2000 G H
           6371200 1 0 15 false true HGH HG HH).
  lia.
Qed.

Lemma degree_used_as_requested_or_raises_witness :
  ((14 <= 14)%nat ->
   exists G H res,
     G_H model_2000 = Some (G, H) /\
     spherical legendre_lpmn model_2000 6371200 1 0 14 false true = Some res /\
     let th := np.clip 1 (1 / 1000000) (PI - 1 / 1000000) in
     let P := fst (legendre_lpmn 14 14 (cos th)) in
     let dP := np.scale (-1 * sin th) (snd (legendre_lpmn 14 14 (cos th))) in
     let q := Rabs (Re / 6371200) in
     sget "r" (field res) = Some (reference_r 14 G H P q 0) /\
     sget "theta" (field res) = Some (reference_theta 14 G H dP q 0) /\
     sget "phi" (field res) = Some (reference_phi 14 G H P q 0 (sin th))) /\
  ((15 <= 14)%nat ->
   spherical legendre_lpmn model_2000 6371200 1 0 14 false true = None).
Proof.
  apply (@degree_used_as_requested_or_raises legendre_lpmn legendre_lpmn_shape
           2026 (Some 2000%Q) false model_2000 [] 6371200 1 0 14 false true).
  apply init_2000.
Defined.



(** ** Dictionaries with string keys *)

Lemma sget_sset {A : Type} (k k' : string) (v : A) (d : sdict A) :
  sget k (sset k' v d) = if String.eqb k' k then Some v else sget k d.
Proof.
  induction d as [|[k0 v0] d IH]; simpl; [reflexivity|].
  destruct (String.eqb_spec k0 k') as [->|Hne]; simpl.
  - destruct (String.eqb k' k); reflexivity.
  - rewrite IH. destruct (String.eqb_spec k0 k) as [->|_]; [|reflexivity].
    destruct (String.eqb_spec k' k) as [->|_]; [congruence | reflexivity].
Qed.

(** Straighten a lookup in an updated dictionary. *)
Ltac sget_simpl :=
  cbn [update fold_left fst snd];
  repeat (rewrite sget_sset; cbn [String.eqb Ascii.eqb Bool.eqb]).

Ltac sget_simpl_in H :=
  cbn [update fold_left fst snd] in H;
  repeat (rewrite sget_sset in H; cbn [String.eqb Ascii.eqb Bool.eqb] in H).

(** ** The claims about the coordinate front ends *)

(** C8 (as stated, refuted): with no coordinate at all the converter
    returns the position [r = theta = phi = 0]; nothing is raised. *)
Lemma incomplete_input_counterexample :
  convert_coordinates true false false []
  = ([error_unable_to_calculate_spherical;
      printed_triples [None; None; None] [None; None; None] [None; None; None]],
     Some [("r"%string, 0%R); ("theta"%string, 0%R); ("phi"%string, 0%R)]).
Proof. reflexivity. Qed.

(** C8 (amended): when none of the three triples is complete, the converter
    prints its error line and the three triples; asked for spherical
    coordinates only (the default) it then returns the zero position
    [r = theta = phi = 0] and raises nothing, asked for Cartesian
    coordinates as well it raises. It has no access to the coefficients of
    the model. *)
Theorem incomplete_input_prints_and_returns_zero (geographic_flag : bool)
    (kwargs : sdict (option R)) :
  let spher := map (fun name => pop name kwargs) ["r"; "theta"; "phi"]%string in
  let cart := map (fun name => pop name kwargs) ["x"; "y"; "z"]%string in
  let geog := map (fun name => pop name kwargs)
                ["height"; "latitude"; "longitude"]%string in
  complete spher = None -> complete cart = None -> complete geog = None ->
  convert_coordinates true false geographic_flag kwargs
  = ([error_unable_to_calculate_spherical; printed_triples spher cart geog],
     Some [("r"%string, 0%R); ("theta"%string, 0%R); ("phi"%string, 0%R)])
  /\ convert_coordinates true true geographic_flag kwargs
     = ([error_unable_to_calculate_spherical; printed_triples spher cart geog], None).
Proof.
  cbv zeta. intros Hs Hc Hg. unfold convert_coordinates.
  rewrite Hs, Hc, Hg. split; [reflexivity|].
  cbn [map] in Hs |- *.
  destruct (pop "r" kwargs), (pop "theta" kwargs), (pop "phi" kwargs);
    try reflexivity. discriminate Hs.
Qed.

Lemma incomplete_input_prints_and_returns_zero_witness :
  convert_coordinates true false false [("r"%string, Some 6371200%R)]
  = ([error_unable_to_calculate_spherical;
      printed_triples [Some 6371200%R; None; None] [None; None; None] [None; None; None]],
     Some [("r"%string, 0%R); ("theta"%string, 0%R); ("phi"%string, 0%R)])
  /\ convert_coordinates true true false [("r"%string, Some 6371200%R)]
     = ([error_unable_to_calculate_spherical;
         printed_triples [Some 6371200%R; None; None] [None; None; None] [None; None; None]],
        None).
Proof.
  apply (@incomplete_input_prints_and_returns_zero false [("r"%string, Some 6371200%R)]);
    reflexivity.
Defined.


(** Take a successful chain of binds apart. *)
Ltac invert_bind H :=
  repeat match type of H with
  | bind ?x _ = Some _ =>
      let E := fresh "E" in
      destruct x eqn:E; [cbn [bind] in H | discriminate H]
  end.

Lemma sin2_cos2_mult x : (sin x * sin x + cos x * cos x = 1)%R.
Proof. exact (sin2_cos2 x). Qed.

(** The magnitude of the vector [cartesian] builds is the magnitude of its
    first ingredient alone. *)
Lemma cartesian_vector_magnitude fr ftheta fphi :
  sqrt ((fr * sin ftheta * cos fphi) ^ 2 + (fr * sin ftheta * sin fphi) ^ 2
        + (fr * cos ftheta) ^ 2) = Rabs fr.
Proof.
  rewrite <- sqrt_Rsqr_abs. f_equal. unfold Rsqr.
  transitivity (fr * fr * ((sin ftheta * sin ftheta)
                           * (sin fphi * sin fphi + cos fphi * cos fphi)
                           + cos ftheta * cos ftheta))%R; [ring|].
  rewrite (sin2_cos2_mult fphi), Rmult_1_r, (sin2_cos2_mult ftheta). ring.
Qed.

(** The rotation into the local frame keeps the magnitude. *)
Lemma enu_vector_magnitude fr ftheta fphi psi :
  ((- ftheta * cos psi - fr * sin psi) ^ 2 + fphi ^ 2
   + (- (ftheta * sin psi - fr * cos psi)) ^ 2
   = fr ^ 2 + ftheta ^ 2 + fphi ^ 2)%R.
Proof.
  transitivity ((fr * fr + ftheta * ftheta) * (sin psi * sin psi + cos psi * cos psi)
                + fphi * fphi)%R; [ring|].
  rewrite sin2_cos2_mult. ring.
Qed.

Section Magnitude.

Variable lpmn : nat -> nat -> R -> np.ndarray * np.ndarray.

(** What a successful [geographic] leaves in the dictionary. *)
Lemma geographic_inv self height latitude longitude metadata potential kwargs out rg :
  geographic lpmn self height latitude longitude metadata potential kwargs
  = (out, Some rg) ->
  exists fr ftheta fphi psi,
    sget "r" (field rg) = Some fr /\
    sget "theta" (field rg) = Some ftheta /\
    sget "phi" (field rg) = Some fphi /\
    sget "north" (field rg) = Some (- ftheta * cos psi - fr * sin psi)%R /\
    sget "east" (field rg) = Some fphi /\
    sget "up" (field rg) = Some (- (ftheta * sin psi - fr * cos psi))%R /\
    sget "field" (field rg)
    = Some (sqrt ((- ftheta * cos psi - fr * sin psi) ^ 2 + fphi ^ 2
                  + (- (ftheta * sin psi - fr * cos psi)) ^ 2)).
Proof.
  unfold geographic, after_conversion. intros Hgeo.
  injection Hgeo as _ Hgeo.
  invert_bind Hgeo.
  sget_simpl_in E7. sget_simpl_in E8. sget_simpl_in E9.
  injection E7 as <-. injection E8 as <-. injection E9 as <-.
  injection Hgeo as <-. cbn [field].
  eexists _, _, _, _.
  repeat split; sget_simpl; try eassumption; reflexivity.
Qed.

(** What a successful [cartesian] leaves in the dictionary. *)
Lemma cartesian_inv self x y z metadata potential kwargs out rc :
  cartesian lpmn self x y z metadata potential kwargs = (out, Some rc) ->
  exists fr ftheta fphi,
    sget "r" (field rc) = Some fr /\
    sget "theta" (field rc) = Some ftheta /\
    sget "phi" (field rc) = Some fphi /\
    sget "x" (field rc) = Some (fr * sin ftheta * cos fphi)%R /\
    sget "y" (field rc) = Some (fr * sin ftheta * sin fphi)%R /\
    sget "z" (field rc) = Some (fr * cos ftheta)%R.
Proof.
  unfold cartesian, after_conversion. intros Hcar.
  injection Hcar as _ Hcar.
  invert_bind Hcar.
  injection Hcar as <-. cbn [field].
  eexists _, _, _.
  repeat split; sget_simpl; try eassumption; reflexivity.
Qed.

(** C2 (what the code computes): when [geographic] and [cartesian] hold the
    same spherical field [(Br, Btheta, Bphi)] of one point, the magnitude
    from north, east and up is [sqrt(Br^2 + Btheta^2 + Bphi^2)], but the
    magnitude from x, y and z is [|Br|]: [cartesian] feeds the field
    components [Btheta] and [Bphi] to [sin] and [cos] as if they were the
    angles of the position. The two agree only where [Btheta = Bphi = 0]. *)
Theorem cartesian_magnitude_is_radial_only self
    height latitude longitude x y z (md md' pot pot' : bool) kw kw' out out' rg rc :
  geographic lpmn self height latitude longitude md pot kw = (out, Some rg) ->
  cartesian lpmn self x y z md' pot' kw' = (out', Some rc) ->
  sget "r" (field rg) = sget "r" (field rc) ->
  sget "theta" (field rg) = sget "theta" (field rc) ->
  sget "phi" (field rg) = sget "phi" (field rc) ->
  exists Br Bth Bph north east up total bx by_ bz,
    sget "r" (field rc) = Some Br /\
    sget "theta" (field rc) = Some Bth /\
    sget "phi" (field rc) = Some Bph /\
    sget "north" (field rg) = Some north /\
    sget "east" (field rg) = Some east /\
    sget "up" (field rg) = Some up /\
    sget "field" (field rg) = Some total /\
    sget "x" (field rc) = Some bx /\
    sget "y" (field rc) = Some by_ /\
    sget "z" (field rc) = Some bz /\
    total = sqrt (north ^ 2 + east ^ 2 + up ^ 2) /\
    total = sqrt (Br ^ 2 + Bth ^ 2 + Bph ^ 2) /\
    sqrt (bx ^ 2 + by_ ^ 2 + bz ^ 2) = Rabs Br /\
    (total = sqrt (bx ^ 2 + by_ ^ 2 + bz ^ 2) <-> Bth = 0%R /\ Bph = 0%R).
Proof.
  intros Hgeo Hcar Er Et Ep.
  destruct (geographic_inv Hgeo)
    as [fr [ft [fp [psi [Gr [Gt [Gp [Gn [Ge [Gu Gf]]]]]]]]]].
  destruct (cartesian_inv Hcar) as [cr [ct [cp [Cr [Ct [Cp [Cx [Cy Cz]]]]]]]].
  assert (fr = cr) by congruence. assert (ft = ct) by congruence.
  assert (fp = cp) by congruence. subst cr ct cp.
  eexists fr, ft, fp, _, _, _, _, _, _, _.
  do 10 (split; [eassumption|]).
  split; [reflexivity|].
  split; [rewrite enu_vector_magnitude; reflexivity|].
  split; [apply cartesian_vector_magnitude|].
  rewrite cartesian_vector_magnitude, enu_vector_magnitude.
  assert (Hsq : sqrt (fr ^ 2) = Rabs fr).
  { rewrite <- sqrt_Rsqr_abs. f_equal. unfold Rsqr. ring. }
  rewrite <- Hsq. split.
  - intros E. apply sqrt_inj in E; nra.
  - intros [-> ->]. f_equal. ring.
Qed.

End Magnitude.

Lemma convert_spherical_kwargs r theta phi (extra : sdict (option R)) :
  (forall k v, In (k, v) extra -> v = None) ->
  map fst extra = ["height"; "latitude"; "longitude"]%string
  \/ map fst extra = ["x"; "y"; "z"]%string ->
  convert_coordinates true false false (update (spherical_kwargs r theta phi) extra)
  = ([], Some [("r"%string, r); ("theta"%string, theta); ("phi"%string, phi)]).
Proof.
  intros Hnone Hkeys.
  destruct extra as [|[k1 v1] [|[k2 v2] [|[k3 v3] [|? ?]]]];
    try (destruct Hkeys as [Hk|Hk]; discriminate Hk).
  rewrite (Hnone k1 v1), (Hnone k2 v2), (Hnone k3 v3) by (simpl; tauto).
  destruct Hkeys as [Hk|Hk]; injection Hk as -> -> ->; reflexivity.
Qed.

Section Point.

Variable lpmn : nat -> nat -> R -> np.ndarray * np.ndarray.

Lemma geographic_at_spherical_point self r th ph (md pot : bool) res fr ft fp pos :
  spherical lpmn self r th ph 14 pot true = Some res ->
  sget "r" (field res) = Some fr -> sget "theta" (field res) = Some ft ->
  sget "phi" (field res) = Some fp -> position res = Some pos ->
  exists rg,
    geographic lpmn self None None None md pot (spherical_kwargs r th ph)
    = ([], Some rg) /\
    sget "r" (field rg) = Some fr /\ sget "theta" (field rg) = Some ft /\
    sget "phi" (field rg) = Some fp.
Proof.
  intros Hs Hr Ht Hp Hpos. unfold geographic, after_conversion.
  rewrite convert_spherical_kwargs by (simpl; intuition congruence).
  cbn [fst snd bind sget String.eqb Ascii.eqb Bool.eqb].
  rewrite Hs. cbn [bind]. rewrite Ht, Hr, Hp. cbn [bind].
  sget_simpl. cbn [bind]. rewrite Hpos. cbn [bind].
  eexists. split; [reflexivity|]. cbn [field]. sget_simpl. auto.
Qed.

Lemma cartesian_at_spherical_point self r th ph (md pot : bool) res fr ft fp pos :
  spherical lpmn self r th ph 14 pot true = Some res ->
  sget "r" (field res) = Some fr -> sget "theta" (field res) = Some ft ->
  sget "phi" (field res) = Some fp -> position res = Some pos ->
  exists rc,
    cartesian lpmn self None None None md pot (spherical_kwargs r th ph)
    = ([], Some rc) /\
    sget "r" (field rc) = Some fr /\ sget "theta" (field rc) = Some ft /\
    sget "phi" (field rc) = Some fp.
Proof.
  intros Hs Hr Ht Hp Hpos. unfold cartesian, after_conversion.
  rewrite convert_spherical_kwargs by (simpl; intuition congruence).
  cbn [fst snd bind sget String.eqb Ascii.eqb Bool.eqb].
  rewrite Hs. cbn [bind]. rewrite Hr, Ht, Hp. cbn [bind].
  rewrite Hpos. cbn [bind].
  eexists. split; [reflexivity|]. cbn [field]. sget_simpl. auto.
Qed.

End Point.

Lemma front_ends_at_a_point :
  exists rg rc,
    geographic legendre_lpmn model_2000 None None None true false
      (spherical_kwargs 6371200 1 0) = ([], Some rg) /\
    cartesian legendre_lpmn model_2000 None None None true false
      (spherical_kwargs 6371200 1 0) = ([], Some rc) /\
    sget "r" (field rg) = sget "r" (field rc) /\
    sget "theta" (field rg) = sget "theta" (field rc) /\
    sget "phi" (field rg) = sget "phi" (field rc).
Proof.
  destruct (configured_model _ _ _ (init_2000 2026)) as [G [H [HGH [HG [HH _]]]]].
  assert (Hd : (14 <= 14)%nat) by lia.
  pose proof (@spherical_eval legendre_lpmn legendre_lpmn_shape model_2000 G H
                6371200 1 0 14 false true HGH HG HH Hd) as Hs.
  cbv zeta in Hs. cbn [app] in Hs.
  destruct (@geographic_at_spherical_point _ _ _ _ _ true _ _ _ _ _ _ Hs eq_refl eq_refl eq_refl eq_refl)
    as [rg [Hg [Gr [Gt Gp]]]].
  destruct (@cartesian_at_spherical_point _ _ _ _ _ true _ _ _ _ _ _ Hs eq_refl eq_refl eq_refl eq_refl)
    as [rc [Hc [Cr [Ct Cp]]]].
  exists rg, rc. split; [exact Hg|]. split; [exact Hc|].
  rewrite Gr, Gt, Gp, Cr, Ct, Cp. auto.
Qed.

Lemma cartesian_magnitude_is_radial_only_witness :
  let rg := returned (geographic legendre_lpmn model_2000 None None None true false
                        (spherical_kwargs 6371200 1 0)) in
  let rc := returned (cartesian legendre_lpmn model_2000 None None None true false
                        (spherical_kwargs 6371200 1 0)) in
  exists Br Bth Bph north east up total bx by_ bz,
    sget "r" (field rc) = Some Br /\
    sget "theta" (field rc) = Some Bth /\
    sget "phi" (field rc) = Some Bph /\
    sget "north" (field rg) = Some north /\
    sget "east" (field rg) = Some east /\
    sget "up" (field rg) = Some up /\
    sget "field" (field rg) = Some total /\
    sget "x" (field rc) = Some bx /\
    sget "y" (field rc) = Some by_ /\
    sget "z" (field rc) = Some bz /\
    total = sqrt (north ^ 2 + east ^ 2 + up ^ 2) /\
    total = sqrt (Br ^ 2 + Bth ^ 2 + Bph ^ 2) /\
    sqrt (bx ^ 2 + by_ ^ 2 + bz ^ 2) = Rabs Br /\
    (total = sqrt (bx ^ 2 + by_ ^ 2 + bz ^ 2) <-> Bth = 0%R /\ Bph = 0%R).
Proof.
  destruct front_ends_at_a_point as [rg [rc [Hg [Hc [Er [Et Ep]]]]]].
  unfold returned. rewrite Hg, Hc. cbn [snd].
  exact (@cartesian_magnitude_is_radial_only legendre_lpmn model_2000
           None None None None None None true true false false
           (spherical_kwargs 6371200 1 0) (spherical_kwargs 6371200 1 0)
           [] [] rg rc Hg Hc Er Et Ep).
Defined.


(** * Further properties of the code *)

(** ** [set_year] between two tabulated epochs *)

Lemma in_year_keys k :
  In k year_keys <-> exists i, (i < 25)%nat /\ k = (1900 + 5 * Z.of_nat i)%Z.
Proof.
  unfold year_keys. rewrite in_map_iff. split.
  - intros [i [E Hi]]. apply in_seq in Hi. exists i. split; [lia | congruence].
  - intros [i [Hi E]]. exists i. split; [congruence | apply in_seq; lia].
Qed.

Lemma fold_max_ge l x y : (y <= x)%Z \/ In y l -> (y <= fold_left Z.max l x)%Z.
Proof.
  revert x. induction l as [|a l IH]; intros x [H|H]; simpl.
  - exact H.
  - destruct H.
  - apply IH. left. lia.
  - destruct H as [->|H]; apply IH; [left; lia | right; exact H].
Qed.

Lemma fold_min_le l x y : (x <= y)%Z \/ In y l -> (fold_left Z.min l x <= y)%Z.
Proof.
  revert x. induction l as [|a l IH]; intros x [H|H]; simpl.
  - exact H.
  - destruct H.
  - apply IH. left. lia.
  - destruct H as [->|H]; apply IH; [left; lia | right; exact H].
Qed.

(** [np.max] and [np.min] return the element that bounds the others. *)
Lemma amax_spec l m :
  In m l -> (forall x, In x l -> (x <= m)%Z) -> amax l = Some m.
Proof.
  intros Hin Hub. destruct l as [|x l]; [destruct Hin|]. unfold amax. f_equal.
  pose proof (fold_max_in l x) as H1.
  assert (H2 : (m <= fold_left Z.max l x)%Z)
    by (apply fold_max_ge; destruct Hin as [->|Hin]; [left; lia | right; exact Hin]).
  pose proof (Hub _ H1). lia.
Qed.

Lemma amin_spec l m :
  In m l -> (forall x, In x l -> (m <= x)%Z) -> amin l = Some m.
Proof.
  intros Hin Hlb. destruct l as [|x l]; [destruct Hin|]. unfold amin. f_equal.
  pose proof (fold_min_in l x) as H1.
  assert (H2 : (fold_left Z.min l x <= m)%Z)
    by (apply fold_min_le; destruct Hin as [->|Hin]; [left; lia | right; exact Hin]).
  pose proof (Hlb _ H1). lia.
Qed.

(** Strictly between two neighbouring keys [k] and [k + 5] the bracket is
    that pair and the fraction is [(yr - k) / 5]. *)
Lemma select_span c k yr :
  wf_table c -> In k year_keys -> In (k + 5)%Z year_keys ->
  (inject_Z k < yr)%Q -> (yr < inject_Z (k + 5))%Q ->
  exists gc hc,
    interpolate ((yr - inject_Z k) / inject_Z 5)
      (cg (entry c k)) (cg (entry c (k + 5))) = Some gc /\
    interpolate ((yr - inject_Z k) / inject_Z 5)
      (ch (entry c k)) (ch (entry c (k + 5))) = Some hc /\
    select c yr = Some (Owned gc, Owned hc).
Proof.
  intros Hwf Hk Hk5 Hlo Hhi. pose proof Hwf as [Hkeys Hs].
  destruct (entry_get Hwf Hk) as [He0 [Hg0 Hh0]].
  destruct (entry_get Hwf Hk5) as [He1 [Hg1 Hh1]].
  set (dy := ((yr - inject_Z k) / inject_Z 5)%Q).
  destruct (interpolate_rect dy Hg0 Hg1) as [gc [Hgc _]].
  destruct (interpolate_rect dy Hh0 Hh1) as [hc [Hhc _]].
  exists gc, hc. split; [exact Hgc|]. split; [exact Hhc|].
  pose proof (proj1 (in_year_keys k) Hk) as [i [Hi Ei]].
  pose proof (proj1 (in_year_keys (k + 5)) Hk5) as [i5 [Hi5 Ei5]].
  assert (Hgap : forall x, In x year_keys -> (x <= k)%Z \/ (k + 5 <= x)%Z).
  { intros x Hx. apply in_year_keys in Hx. destruct Hx as [j [_ Ej]]. lia. }
  assert (Hle : forall x, In x year_keys ->
            Qle_bool (inject_Z x) yr = true <-> (x <= k)%Z).
  { intros x Hx. rewrite Qle_bool_iff. split.
    - intros Hq. destruct (Hgap x Hx) as [H|H]; [exact H|].
      exfalso. rewrite Zle_Qle in H. Lqa.lra.
    - intros H. rewrite Zle_Qle in H. Lqa.lra. }
  unfold select. rewrite Hkeys, sorted_year_keys.
  assert (Hex : existsb (fun k0 => key_eqb k0 yr) year_keys = false).
  { destruct (existsb (fun k0 => key_eqb k0 yr) year_keys) eqn:Ex; [|reflexivity].
    apply existsb_exists in Ex. destruct Ex as [x [Hx E]].
    apply key_eqb_spec in E. exfalso.
    destruct (Hgap x Hx) as [H|H]; rewrite Zle_Qle in H; Lqa.lra. }
  rewrite Hex.
  change (amin year_keys) with (Some 1900%Z).
  change (amax year_keys) with (Some 2020%Z).
  cbn [bind].
  assert (H1900 : (1900 <= k)%Z) by lia.
  assert (H2020 : (k + 5 <= 2020)%Z) by lia.
  rewrite Zle_Qle in H1900, H2020.
  rewrite (@clipQ_inside yr (inject_Z 1900) (inject_Z 2020)) by Lqa.lra.
  rewrite (@amax_spec (filter (fun k0 => Qle_bool (inject_Z k0) yr) year_keys) k).
  2:{ apply filter_In. split; [exact Hk|]. apply (Hle k Hk). lia. }
  2:{ intros x Hx. apply filter_In in Hx. destruct Hx as [Hx Hq].
      apply (Hle x Hx). exact Hq. }
  cbn [bind].
  assert (Hab : In (k + 5)%Z (filter (fun k0 => (k <? k0)%Z) year_keys)).
  { apply filter_In. split; [exact Hk5|]. apply Z.ltb_lt. lia. }
  destruct (filter (fun k0 => (k <? k0)%Z) year_keys) as [|a above] eqn:Eab;
    [destruct Hab|].
  cbn [length Nat.eqb].
  rewrite (@amin_spec (a :: above) (k + 5)%Z Hab).
  2:{ intros x Hx. rewrite <- Eab in Hx. apply filter_In in Hx.
      destruct Hx as [Hx Hlt]. apply Z.ltb_lt in Hlt.
      destruct (Hgap x Hx); lia. }
  cbn [bind].
  replace (k + 5 =? k)%Z with false by (symmetry; apply Z.eqb_neq; lia).
  rewrite He0, He1. cbn [bind snd].
  replace (k + 5 - k)%Z with 5%Z by lia. fold dy.
  rewrite Hgc, Hhc. reflexivity.
Qed.

Section SetYearSpan.

Variable now : Z.

Lemma set_year_span self k yr :
  wf_table (coefficients self) -> In k year_keys -> In (k + 5)%Z year_keys ->
  (inject_Z k < yr)%Q -> (yr < inject_Z (k + 5))%Q ->
  exists s G H,
    set_year now self (Some yr) = Some (s, []) /\
    coefficients s = coefficients self /\
    year s = Some yr /\
    G_H s = Some (G, H) /\
    forall i j, (i < 15)%nat -> (j < 15)%nat ->
      let c0 := entry (coefficients self) k in
      let c1 := entry (coefficients self) (k + 5) in
      let dy := Q2R ((yr - inject_Z k) / inject_Z 5) in
      item G i j
      = ((item (cg c0) i j + dy * (item (cg c1) i j - item (cg c0) i j))
         * item schmidt_norm i j)%R /\
      item H i j
      = ((item (ch c0) i j + dy * (item (ch c1) i j - item (ch c0) i j))
         * item schmidt_norm i j)%R.
Proof.
  intros Hwf Hk Hk5 Hlo Hhi.
  destruct (select_span Hwf Hk Hk5 Hlo Hhi) as [gc [hc [Hgc [Hhc Hsel]]]].
  destruct (entry_get Hwf Hk) as [_ [Hg0 Hh0]].
  destruct (entry_get Hwf Hk5) as [_ [Hg1 Hh1]].
  destruct (interpolate_rect ((yr - inject_Z k) / inject_Z 5) Hg0 Hg1)
    as [gc' [Hgc' [Hrg Hig]]].
  destruct (interpolate_rect ((yr - inject_Z k) / inject_Z 5) Hh0 Hh1)
    as [hc' [Hhc' [Hrh Hih]]].
  assert (gc' = gc) by congruence. subst gc'.
  assert (hc' = hc) by congruence. subst hc'.
  exists (IgrfModel (verbose self) (coefficients self) (Some yr)
            (Some (Owned (normalized gc))) (Some (Owned (normalized hc)))),
    (normalized gc), (normalized hc).
  split; [eapply set_year_owned; eassumption|].
  split; [reflexivity|]. split; [reflexivity|]. split; [reflexivity|].
  intros i j Hi Hj. cbv zeta.
  rewrite (item_normalized Hrg Hi Hj), (item_normalized Hrh Hi Hj),
    (Hig i j Hi Hj), (Hih i j Hi Hj).
  split; reflexivity.
Qed.

End SetYearSpan.

(** X1: strictly between two neighbouring tabulated epochs [k] and [k + 5]
    the constructor interpolates linearly: every coefficient the model
    reads is [c0 + (e - k)/5 * (c1 - c0)], with [c0] and [c1] the table's
    values for [k] and [k + 5], multiplied by [schmidt_norm]; the table
    itself is left as it was read. *)
Theorem epoch_between_neighbours_is_interpolated (now k : Z) (e : Q) (v : bool) :
  In k (keys table) -> In (k + 5)%Z (keys table) ->
  (inject_Z k < e)%Q -> (e < inject_Z (k + 5))%Q ->
  exists s G H,
    __init__ now (Some e) v = Some (s, []) /\
    coefficients s = table /\
    G_H s = Some (G, H) /\
    forall i j, (i < 15)%nat -> (j < 15)%nat ->
      let c0 := entry table k in
      let c1 := entry table (k + 5) in
      let t := Q2R ((e - inject_Z k) / 5) in
      item G i j
      = ((item (cg c0) i j + t * (item (cg c1) i j - item (cg c0) i j))
         * item schmidt_norm i j)%R /\
      item H i j
      = ((item (ch c0) i j + t * (item (ch c1) i j - item (ch c0) i j))
         * item schmidt_norm i j)%R.
Proof.
  intros Hk Hk5 Hlo Hhi. rewrite keys_table in Hk, Hk5. rewrite init_unfold.
  assert (Hwf : wf_table (coefficients (IgrfModel v table None None None)))
    by exact wf_table_table.
  destruct (@set_year_span now _ k e Hwf Hk Hk5 Hlo Hhi)
    as [s [G [H [Hs [Hc [_ [HGH Hij]]]]]]].
  exists s, G, H. split; [exact Hs|]. split; [exact Hc|]. split; [exact HGH|].
  exact Hij.
Qed.

Lemma epoch_between_neighbours_is_interpolated_witness :
  exists s G H,
    __init__ 2026 (Some (4023 # 2)) false = Some (s, []) /\
    coefficients s = table /\
    G_H s = Some (G, H) /\
    forall i j, (i < 15)%nat -> (j < 15)%nat ->
      let c0 := entry table 2010 in
      let c1 := entry table (2010 + 5) in
      let t := Q2R (((4023 # 2) - inject_Z 2010) / 5) in
      item G i j
      = ((item (cg c0) i j + t * (item (cg c1) i j - item (cg c0) i j))
         * item schmidt_norm i j)%R /\
      item H i j
      = ((item (ch c0) i j + t * (item (ch c1) i j - item (ch c0) i j))
         * item schmidt_norm i j)%R.
Proof.
  apply (@epoch_between_neighbours_is_interpolated 2026 2010 (4023 # 2) false).
  - rewrite keys_table, year_keys_eq. simpl. tauto.
  - rewrite keys_table, year_keys_eq. simpl. tauto.
  - reflexivity.
  - reflexivity.
Defined.

(** ** An instance used again after a tabulated epoch *)

Lemma entry_assign k gh a c k' :
  entry (assign k gh a c) k'
  = match dict_get (inject_Z k') c with
    | Some (k0, e) => if Z.eqb k0 k then with_field gh a e else e
    | None => Coeffs [] []
    end.
Proof.
  unfold entry. rewrite dict_get_assign.
  destruct (dict_get (inject_Z k') c) as [[k0 e]|]; reflexivity.
Qed.

(** X2: an instance built for a tabulated epoch [k] and then set to an
    epoch between [k] and [k + 5] does not interpolate from the table's
    values of [k]: the first call left the normalised array in the table,
    so the lower end of the interpolation is already multiplied by
    [schmidt_norm], and the result is multiplied once more. *)
Theorem reused_model_interpolates_from_normalized_entry (now k : Z) (e : Q) (v : bool) :
  In k (keys table) -> In (k + 5)%Z (keys table) ->
  (inject_Z k < e)%Q -> (e < inject_Z (k + 5))%Q ->
  exists s1 s2 G H,
    __init__ now (Some (inject_Z k)) v = Some (s1, []) /\
    set_year now s1 (Some e) = Some (s2, []) /\
    G_H s2 = Some (G, H) /\
    forall i j, (i < 15)%nat -> (j < 15)%nat ->
      let c0 := entry table k in
      let c1 := entry table (k + 5) in
      let t := Q2R ((e - inject_Z k) / 5) in
      let w := item schmidt_norm i j in
      item G i j
      = ((item (cg c0) i j * w + t * (item (cg c1) i j - item (cg c0) i j * w)) * w)%R /\
      item H i j
      = ((item (ch c0) i j * w + t * (item (ch c1) i j - item (ch c0) i j * w)) * w)%R.
Proof.
  intros Hk Hk5 Hlo Hhi. rewrite keys_table in Hk, Hk5. rewrite init_unfold.
  assert (Hwf : wf_table (coefficients (IgrfModel v table None None None)))
    by exact wf_table_table.
  destruct (entry_get wf_table_table Hk) as [He0 [Hg0 Hh0]].
  destruct (entry_get wf_table_table Hk5) as [He1 _].
  pose (c1 := assign k key_h (normalized (ch (entry table k)))
                (assign k key_g (normalized (cg (entry table k))) table)).
  pose (s1 := IgrfModel v c1 (Some (inject_Z k))
                (Some (Alias k key_g)) (Some (Alias k key_h))).
  assert (Hs1 : set_year now (IgrfModel v table None None None) (Some (inject_Z k))
                = Some (s1, [])).
  { apply (@set_year_alias now (IgrfModel v table None None None) (inject_Z k) k
             (entry table k) Hwf Hk); [reflexivity | exact He0]. }
  assert (Hwf1 : wf_table (coefficients s1)).
  { cbn [s1 coefficients]. unfold c1. apply wf_assign; [apply wf_assign|];
      [exact wf_table_table | apply normalized_rect; exact Hg0
       | apply normalized_rect; exact Hh0]. }
  destruct (@set_year_span now s1 k e Hwf1 Hk Hk5 Hlo Hhi)
    as [s2 [G [H [Hs2 [_ [_ [HGH Hij]]]]]]].
  exists s1, s2, G, H. split; [exact Hs1|]. split; [exact Hs2|].
  split; [exact HGH|].
  intros i j Hi Hj. cbv zeta.
  destruct (Hij i j Hi Hj) as [EG EH]. cbv zeta in EG, EH.
  cbn [s1 coefficients] in EG, EH. unfold c1 in EG, EH.
  rewrite !entry_assign, !dict_get_assign, He0, He1, Z.eqb_refl in EG, EH.
  replace (k + 5 =? k)%Z with false in EG, EH by (symmetry; apply Z.eqb_neq; lia).
  cbn [with_field cg ch] in EG, EH.
  rewrite (item_normalized Hg0 Hi Hj) in EG.
  rewrite (item_normalized Hh0 Hi Hj) in EH.
  split; [exact EG | exact EH].
Qed.

Lemma reused_model_interpolates_from_normalized_entry_witness :
  exists s1 s2 G H,
    __init__ 2026 (Some (inject_Z 2000)) false = Some (s1, []) /\
    set_year 2026 s1 (Some 2002%Q) = Some (s2, []) /\
    G_H s2 = Some (G, H) /\
    forall i j, (i < 15)%nat -> (j < 15)%nat ->
      let c0 := entry table 2000 in
      let c1 := entry table (2000 + 5) in
      let t := Q2R ((2002 - inject_Z 2000) / 5) in
      let w := item schmidt_norm i j in
      item G i j
      = ((item (cg c0) i j * w + t * (item (cg c1) i j - item (cg c0) i j * w)) * w)%R /\
      item H i j
      = ((item (ch c0) i j * w + t * (item (ch c1) i j - item (ch c0) i j * w)) * w)%R.
Proof.
  apply (@reused_model_interpolates_from_normalized_entry 2026 2000 2002%Q false).
  - rewrite keys_table, year_keys_eq. simpl. tauto.
  - rewrite keys_table, year_keys_eq. simpl. tauto.
  - reflexivity.
  - reflexivity.
Defined.

(** ** The constructor *)

(** X3: the constructor returns for every requested year, tabulated or
    not, inside the table or outside, and for [None]; the instance records
    the year as it was requested (not the clamped one) and reads two arrays
    of 15 rows and 15 columns. *)
Theorem constructor_returns_for_every_year (now : Z) (yr : option Q) (v : bool) :
  exists s out G H,
    __init__ now yr v = Some (s, out) /\
    year s = Some (match yr with Some e => e | None => inject_Z now end) /\
    out = (match yr with
           | Some _ => []
           | None => if v then [using_todays_date now] else []
           end) /\
    G_H s = Some (G, H) /\ np.rect 15 15 G /\ np.rect 15 15 H.
Proof.
  rewrite init_unfold.
  assert (Hwf : wf_table (coefficients (IgrfModel v table None None None)))
    by exact wf_table_table.
  destruct yr as [y|].
  - destruct (@set_year_total_some now _ y Hwf) as [s [Hs [_ [Hy [a [b [HGH [Ha Hb]]]]]]]].
    exists s, [], (normalized a), (normalized b).
    split; [exact Hs|]. split; [exact Hy|]. split; [reflexivity|].
    split; [exact HGH|]. split; apply normalized_rect; assumption.
  - destruct (@set_year_total_some now _ (inject_Z now) Hwf)
      as [s [Hs [_ [Hy [a [b [HGH [Ha Hb]]]]]]]].
    rewrite set_year_default, Hs. cbn [verbose].
    eexists s, _, (normalized a), (normalized b).
    split; [reflexivity|]. split; [exact Hy|]. split; [reflexivity|].
    split; [exact HGH|]. split; apply normalized_rect; assumption.
Qed.

(** ** [read_coefficients] on any table text *)

Module parser.
Import np np_facts.

Lemma put_length {A : Type} i (v : A) l l' : put i v l = Some l' -> length l' = length l.
Proof.
  revert i l'. induction l as [|x l IH]; intros [|i] l'; simpl; try discriminate.
  - intros E; injection E as <-. reflexivity.
  - destruct (put i v l) as [r|] eqn:E; simpl; [|discriminate].
    intros E'; injection E' as <-. simpl. rewrite (IH _ _ E). reflexivity.
Qed.

Lemma put_none {A : Type} i (v : A) l : (length l <= i)%nat -> put i v l = None.
Proof.
  revert i. induction l as [|x l IH]; intros [|i]; simpl; try reflexivity; try lia.
  intros H. rewrite IH by lia. reflexivity.
Qed.

Lemma put_Forall {A : Type} (P : A -> Prop) i v l l' :
  Forall P l -> P v -> put i v l = Some l' -> Forall P l'.
Proof.
  revert i l'. induction l as [|x l IH]; intros [|i] l' Hl Hv; simpl; try discriminate.
  - intros E; injection E as <-. inversion Hl; subst. constructor; assumption.
  - destruct (put i v l) as [r|] eqn:E; simpl; [|discriminate].
    intros E'; injection E' as <-. inversion Hl; subst.
    constructor; [assumption | eapply IH; eassumption].
Qed.

Lemma put_nth {A : Type} i (v : A) l l' d i' :
  put i v l = Some l' -> nth i' l' d = if (i =? i')%nat then v else nth i' l d.
Proof.
  revert i l' i'. induction l as [|x l IH]; intros [|i] l' i'; simpl; try discriminate.
  - intros E; injection E as <-. destruct i'; reflexivity.
  - destruct (put i v l) as [r|] eqn:E; simpl; [|discriminate].
    intros E'; injection E' as <-. destruct i' as [|i']; [reflexivity|].
    simpl. apply IH. exact E.
Qed.

(** [a[i,j] = v] keeps the shape, and raises outside it. *)
Lemma setitem_rect r c a i j v a' :
  rect r c a -> setitem a i j v = Some a' -> rect r c a'.
Proof.
  intros [Hl Hf]. unfold setitem.
  destruct (nth_error a i) as [row|] eqn:Er; simpl; [|discriminate].
  destruct (put j v row) as [row'|] eqn:Ep; simpl; [|discriminate].
  intros E. split.
  - rewrite (put_length _ _ _ E). exact Hl.
  - eapply put_Forall; [exact Hf | | exact E]. cbv beta.
    rewrite (put_length _ _ _ Ep).
    rewrite Forall_forall in Hf. apply Hf. eapply nth_error_In. exact Er.
Qed.

Lemma setitem_none r c a i j v :
  rect r c a -> (r <= i)%nat \/ (c <= j)%nat -> setitem a i j v = None.
Proof.
  intros [Hl Hf] Hij. unfold setitem.
  destruct (nth_error a i) as [row|] eqn:Er; simpl; [|reflexivity].
  assert (Hrow : length row = c).
  { rewrite Forall_forall in Hf. apply Hf. eapply nth_error_In. exact Er. }
  destruct Hij as [Hi|Hj].
  - assert (Hn : nth_error a i = None) by (apply nth_error_None; lia). congruence.
  - rewrite put_none by lia. reflexivity.
Qed.

Lemma item_setitem a i j v a' i' j' :
  setitem a i j v = Some a' ->
  item a' i' j' = if ((i =? i') && (j =? j'))%nat then v else item a i' j'.
Proof.
  unfold setitem, item.
  destruct (nth_error a i) as [row|] eqn:Er; simpl; [|discriminate].
  destruct (put j v row) as [row'|] eqn:Ep; simpl; [|discriminate].
  intros E. rewrite (put_nth _ _ _ [] i' E).
  destruct (Nat.eqb_spec i i') as [<-|Hne]; simpl; [|reflexivity].
  rewrite (put_nth _ _ _ 0%R j' Ep).
  rewrite (nth_error_nth _ _ [] Er). reflexivity.
Qed.

Lemma item_zeros i j : item (zeros 15 15) i j = 0%R.
Proof.
  unfold item, zeros.
  destruct (Nat.lt_ge_cases i 15) as [Hi|Hi].
  - rewrite (nth_indep _ [] (repeat 0%R 15)) by (rewrite repeat_length; exact Hi).
    rewrite nth_repeat. apply nth_repeat.
  - rewrite (@nth_overflow _ (repeat (repeat 0%R 15) 15) i [])
      by (rewrite repeat_length; exact Hi).
    destruct j; reflexivity.
Qed.

Lemma zeros_rect : rect 15 15 (zeros 15 15).
Proof. apply rectb_rect. reflexivity. Qed.

Lemma foldM_invariant {A S : Type} (f : S -> A -> option S) (P : S -> Prop) l :
  (forall s a s', P s -> f s a = Some s' -> P s') ->
  forall s s', P s -> foldM f l s = Some s' -> P s'.
Proof.
  intros Hf. induction l as [|a l IH]; intros s s' Hs; simpl.
  - intros E; injection E as <-. exact Hs.
  - destruct (f s a) as [s1|] eqn:E; simpl; [|discriminate].
    apply IH. eapply Hf; eassumption.
Qed.

(** A loop raises when one of its passes raises in every state the loop
    can be in. *)
Lemma foldM_in_none {A S : Type} (f : S -> A -> option S) (P : S -> Prop) l x :
  In x l -> (forall s, P s -> f s x = None) ->
  (forall s a s', P s -> f s a = Some s' -> P s') ->
  forall s, P s -> foldM f l s = None.
Proof.
  intros Hin Hx Hf. induction l as [|a l IH]; [destruct Hin|].
  intros s Hs. simpl. destruct Hin as [->|Hin].
  - rewrite (Hx s Hs). reflexivity.
  - destruct (f s a) as [s1|] eqn:E; simpl; [|reflexivity].
    apply (IH Hin). eapply Hf; eassumption.
Qed.

Lemma wf_entry_with_field gh a k e :
  wf_entry (k, e) -> rect 15 15 a -> wf_entry (k, with_field gh a e).
Proof. intros [Hg Hh] Ha. destruct gh; split; simpl in *; assumption. Qed.

Lemma wf_entry_field gh k e : wf_entry (k, e) -> rect 15 15 (field_of gh e).
Proof. intros [Hg Hh]. destruct gh; assumption. Qed.

Lemma dict_set_shape k e c :
  Forall wf_entry c -> wf_entry (k, e) -> Forall wf_entry (dict_set k e c).
Proof.
  intros Hc He. induction c as [|[k0 e0] c IH]; simpl.
  - constructor; [exact He | constructor].
  - inversion Hc; subst. destruct (Z.eqb k0 k); constructor; auto.
Qed.

Lemma empty_table_shape years : Forall wf_entry (empty_table years).
Proof.
  unfold empty_table.
  assert (H : forall l c, Forall wf_entry c ->
            Forall wf_entry (fold_left (fun c year =>
              dict_set year (Coeffs (zeros 15 15) (zeros 15 15)) c) l c)).
  { induction l as [|y l IH]; intros c Hc; simpl; [exact Hc|].
    apply IH. apply dict_set_shape; [exact Hc|]. split; exact zeros_rect. }
  apply H. constructor.
Qed.

Lemma store_shape y gh m n v c c' :
  Forall wf_entry c -> store y gh m n v c = Some c' -> Forall wf_entry c'.
Proof.
  revert c'. induction c as [|[k e] c IH]; intros c' Hc; simpl; [discriminate|].
  inversion Hc; subst. destruct (Z.eqb k y).
  - destruct (setitem (field_of gh e) m n v) as [a|] eqn:E; simpl; [|discriminate].
    intros E'; injection E' as <-. constructor; [|assumption].
    apply wf_entry_with_field; [assumption|].
    eapply setitem_rect; [|exact E]. eapply wf_entry_field. eassumption.
  - destruct (store y gh m n v c) as [r|] eqn:E; simpl; [|discriminate].
    intros E'; injection E' as <-. constructor; [assumption | apply IH; auto].
Qed.

Lemma store_none y gh m n v c :
  Forall wf_entry c -> (15 <= n)%nat \/ (15 <= m)%nat -> store y gh m n v c = None.
Proof.
  intros Hc Hnm. induction c as [|[k e] c IH]; simpl; [reflexivity|].
  inversion Hc; subst. destruct (Z.eqb k y).
  - rewrite (@setitem_none 15 15 (field_of gh e) m n v); [reflexivity| |tauto].
    eapply wf_entry_field. eassumption.
  - rewrite IH by assumption. reflexivity.
Qed.

Lemma read_line_shape years c line c' :
  Forall wf_entry c -> read_line years c line = Some c' -> Forall wf_entry c'.
Proof.
  destruct line as [|gh n m val]; simpl.
  - intros Hc E; injection E as <-. exact Hc.
  - intros Hc. apply foldM_invariant; [|exact Hc].
    intros s [i y] s' Hs. simpl.
    destruct (nth_error val i) as [v|]; simpl; [|discriminate].
    apply store_shape. exact Hs.
Qed.

Lemma fill_table_shape t years c :
  fill_table t years = Some c -> Forall wf_entry c.
Proof.
  unfold fill_table. apply foldM_invariant; [|apply empty_table_shape].
  intros s a s'. apply read_line_shape.
Qed.

Lemma shape_eqb_rect_inv r c a b :
  shape_eqb a b = true -> rect r c b -> rect r c a.
Proof.
  unfold shape_eqb. intros E [Hl Hf]. apply andb_prop in E. destruct E as [E1 E2].
  apply Nat.eqb_eq in E1. split; [congruence|].
  clear Hl. revert b E1 E2 Hf. induction a as [|x a IH]; intros [|y b] E1 E2 Hf;
    simpl in *; try discriminate; constructor.
  - apply andb_prop in E2. destruct E2 as [E2 _]. apply Nat.eqb_eq in E2.
    inversion Hf; subst. exact E2.
  - apply andb_prop in E2. destruct E2 as [_ E2]. inversion Hf; subst.
    apply (IH b); [congruence | exact E2 | assumption].
Qed.

Lemma iadd_rect a b x : rect 15 15 a -> iadd a b = Some x -> rect 15 15 x.
Proof.
  intros Ha. unfold iadd, inplace.
  destruct (add a b) as [r|]; simpl; [|discriminate].
  destruct (shape_eqb r a) eqn:E; [|discriminate].
  intros E'; injection E' as <-. eapply shape_eqb_rect_inv; eassumption.
Qed.

Lemma assign_shape k gh a c :
  Forall wf_entry c -> rect 15 15 a -> Forall wf_entry (assign k gh a c).
Proof.
  intros Hc Ha. induction c as [|[k0 e0] c IH]; simpl; [constructor|].
  inversion Hc; subst. destruct (Z.eqb k0 k); constructor; auto.
  apply wf_entry_with_field; assumption.
Qed.

Lemma add_previous_shape years c gh c' :
  Forall wf_entry c -> add_previous years c gh = Some c' -> Forall wf_entry c'.
Proof.
  intros Hc. unfold add_previous.
  destruct (last1 years) as [y1|]; simpl; [|discriminate].
  destruct (last2 years) as [y2|]; simpl; [|discriminate].
  destruct (dict_get y1 c) as [[k1 e1]|] eqn:E1; simpl; [|discriminate].
  destruct (dict_get y2 c) as [[k2 e2]|] eqn:E2; simpl; [|discriminate].
  destruct (iadd (field_of gh e1) (field_of gh e2)) as [a|] eqn:Ea; simpl; [|discriminate].
  intros E; injection E as <-. apply assign_shape; [exact Hc|].
  eapply iadd_rect; [|exact Ea]. eapply (@wf_entry_field gh k1).
  rewrite Forall_forall in Hc. apply Hc. apply (dict_get_key _ _ E1).
Qed.

Lemma read_years_length t years :
  read_years t = Some years -> length years = (length (header t) - 3)%nat /\ years <> [].
Proof.
  assert (Hu : forall (f : string -> string) l l',
            update_last f l = Some l' -> length l' = length l /\ l <> []).
  { intros f. induction l as [|a l IH]; intros l'; simpl; [discriminate|].
    destruct l as [|b l].
    - intros E; injection E as <-. split; [reflexivity | discriminate].
    - destruct (update_last f (b :: l)) as [r|] eqn:E; simpl; [|discriminate].
      intros E'; injection E' as <-. destruct (IH _ eq_refl) as [Hl _].
      split; [simpl; rewrite Hl; reflexivity | discriminate]. }
  assert (Hm : forall (l : list string) l', mapM float l = Some l' -> length l' = length l).
  { induction l as [|a l IH]; intros l'; simpl.
    - intros E; injection E as <-. reflexivity.
    - destruct (float a); simpl; [|discriminate].
      destruct (mapM float l) as [r|]; simpl; [|discriminate].
      intros E; injection E as <-. simpl. rewrite (IH _ eq_refl). reflexivity. }
  unfold read_years.
  destruct (update_last _ (skipn 3 (header t))) as [l1|] eqn:E1; simpl; [|discriminate].
  destruct (update_last _ l1) as [l2|] eqn:E2; simpl; [|discriminate].
  intros E3. destruct (Hu _ _ _ E1) as [H1 N1]. destruct (Hu _ _ _ E2) as [H2 N2].
  pose proof (Hm _ _ E3) as H3. rewrite length_skipn in H1.
  split; [lia|]. intros ->. simpl in H3. destruct l2; [|discriminate].
  simpl in H2. destruct l1; [congruence | discriminate].
Qed.

End parser.

(** The entry of epoch 2000 is one of the table's. *)
Lemma entry_2000_in_table : In (2000%Z, entry table 2000) table.
Proof.
  do 20 right. left. reflexivity.
Qed.

(** X4: whatever the text, a table [read_coefficients] returns holds two
    arrays of 15 rows and 15 columns for every epoch. *)
Theorem read_coefficients_arrays_are_15_by_15 (t : coeff_text) (c : dict) :
  read_coefficients t = Some c ->
  forall k e, In (k, e) c -> np.rect 15 15 (cg e) /\ np.rect 15 15 (ch e).
Proof.
  unfold read_coefficients.
  destruct (read_years t) as [years|]; simpl; [|discriminate].
  destruct (fill_table t years) as [c0|] eqn:Ef; simpl; [|discriminate].
  destruct (add_previous years c0 key_g) as [c1|] eqn:E1; simpl; [|discriminate].
  destruct (add_previous years c1 key_h) as [c2|] eqn:E2; simpl; [|discriminate].
  intros E; injection E as <-. intros k e Hin.
  pose proof (parser.fill_table_shape _ _ Ef) as H0.
  pose proof (parser.add_previous_shape _ _ H0 E1) as H1.
  pose proof (parser.add_previous_shape _ _ H1 E2) as H2.
  rewrite Forall_forall in H2. exact (H2 _ Hin).
Qed.

Lemma read_coefficients_arrays_are_15_by_15_witness :
  np.rect 15 15 (cg (entry table 2000)) /\ np.rect 15 15 (ch (entry table 2000)).
Proof.
  apply (@read_coefficients_arrays_are_15_by_15 coeff table
           read_coefficients_coeff 2000%Z (entry table 2000)).
  exact entry_2000_in_table.
Defined.

(** X5: a row of the text whose degree or order is 15 or more makes
    [read_coefficients] raise (the [IndexError] of the assignment
    [c[year][gh][m,n] = ...]), wherever the row stands. *)
Theorem row_outside_the_arrays_raises (t : coeff_text) gh n m val :
  In (Row gh n m val) (body t) -> (15 <= n)%nat \/ (15 <= m)%nat ->
  read_coefficients t = None.
Proof.
  intros Hin Hnm. unfold read_coefficients.
  destruct (read_years t) as [years|] eqn:Ey; simpl; [|reflexivity].
  destruct (parser.read_years_length _ Ey) as [_ Hne].
  assert (Hf : fill_table t years = None).
  { unfold fill_table.
    apply (@parser.foldM_in_none _ _ (read_line years) (Forall wf_entry)
             (body t) (Row gh n m val) Hin).
    - intros s Hs. destruct years as [|y ys]; [congruence|].
      destruct val as [|v val']; [reflexivity|]. simpl.
      rewrite (parser.store_none _ gh v Hs Hnm). reflexivity.
    - intros s a s'. apply parser.read_line_shape.
    - apply parser.empty_table_shape. }
  rewrite Hf. reflexivity.
Qed.

Lemma row_outside_the_arrays_raises_witness :
  read_coefficients (CoeffText (header coeff) [Row key_g 15 0 (repeat 0%R 25)]) = None.
Proof.
  apply (@row_outside_the_arrays_raises
           (CoeffText (header coeff) [Row key_g 15 0 (repeat 0%R 25)])
           key_g 15 0 (repeat 0%R 25)).
  - left. reflexivity.
  - left. lia.
Defined.

(** X6: a row with fewer values than the header has epochs makes
    [read_coefficients] raise (the [IndexError] of [val[indx]]). *)
Theorem short_row_raises (t : coeff_text) gh n m val :
  In (Row gh n m val) (body t) -> (length val < length (header t) - 3)%nat ->
  read_coefficients t = None.
Proof.
  intros Hin Hlen. unfold read_coefficients.
  destruct (read_years t) as [years|] eqn:Ey; simpl; [|reflexivity].
  destruct (parser.read_years_length _ Ey) as [Hl _].
  assert (Hidx : forall (l : list Z) s i, (i < length l)%nat ->
            exists y, In ((s + i)%nat, y) (combine (seq s (length l)) l)).
  { induction l as [|y l IH]; intros s i Hi; simpl in Hi; [lia|].
    destruct i as [|i].
    - exists y. left. rewrite Nat.add_0_r. reflexivity.
    - destruct (IH (S s) i) as [y' Hy']; [lia|]. exists y'. right.
      simpl. replace (s + S i)%nat with (S s + i)%nat by lia. exact Hy'. }
  assert (Hf : fill_table t years = None).
  { unfold fill_table.
    apply (@parser.foldM_in_none _ _ (read_line years) (fun _ => True)
             (body t) (Row gh n m val) Hin); [|trivial|trivial].
    intros s _. simpl.
    destruct (Hidx (map int years) O (length val)) as [y Hy];
      [rewrite length_map; lia|].
    rewrite length_map in Hy.
    apply (@parser.foldM_in_none _ _ _ (fun _ => True) _ _ Hy); [|trivial|trivial].
    intros s0 _. simpl.
    replace (nth_error val (length val)) with (@None R)
      by (symmetry; apply nth_error_None; lia).
    reflexivity. }
  rewrite Hf. reflexivity.
Qed.

Lemma short_row_raises_witness :
  read_coefficients (CoeffText (header coeff) [Row key_g 1 0 [1%R; 2%R]]) = None.
Proof.
  apply (@short_row_raises (CoeffText (header coeff) [Row key_g 1 0 [1%R; 2%R]])
           key_g 1 0 [1%R; 2%R]).
  - left. reflexivity.
  - simpl. lia.
Defined.

(** X7: a header with fewer than two epoch columns makes
    [read_coefficients] raise: with none [years[-1]] does not exist, with
    one [years[-2]] does not. *)
Theorem header_needs_two_epochs (t : coeff_text) :
  (length (header t) < 5)%nat -> read_coefficients t = None.
Proof.
  intros Hlen. unfold read_coefficients.
  destruct (read_years t) as [years|] eqn:Ey; simpl; [|reflexivity].
  destruct (parser.read_years_length _ Ey) as [Hl Hne].
  destruct (fill_table t years) as [c|]; simpl; [|reflexivity].
  destruct years as [|y [|y' ys]]; [congruence | | simpl in Hl; lia].
  reflexivity.
Qed.

Lemma header_needs_two_epochs_witness :
  read_coefficients (CoeffText ["g/h"; "n"; "m"; "2015.0"]%string []) = None.
Proof.
  apply (@header_needs_two_epochs (CoeffText ["g/h"; "n"; "m"; "2015.0"]%string [])).
  simpl. lia.
Defined.

(** X8: the label of the next generation's last column, [2020-25], is not
    one of the two labels the parser rewrites: the conversion of the header
    to floats raises, whatever the other labels and the rows are (the
    source's comment: "this will fail in 2020"). *)
Theorem next_generation_label_raises (labels : list string) (lines : list text_line) :
  read_coefficients (CoeffText (labels ++ ["2020-25"%string]) lines) = None.
Proof.
  assert (Hu : forall (f : string -> string) l x,
            update_last f (l ++ [x]) = Some (l ++ [f x])).
  { intros f. induction l as [|a l IH]; intros x; [reflexivity|].
    simpl. rewrite IH. destruct (l ++ [x]) eqn:E; [|reflexivity].
    destruct l; discriminate. }
  assert (Hm : forall l x, float x = None -> mapM float (l ++ [x]) = None).
  { induction l as [|a l IH]; intros x Hx; simpl.
    - rewrite Hx. reflexivity.
    - destruct (float a); simpl; [|reflexivity]. rewrite (IH _ Hx). reflexivity. }
  unfold read_coefficients, read_years. cbn [header].
  destruct labels as [|a [|b [|c l]]]; try reflexivity.
  change (skipn 3 ((a :: b :: c :: l) ++ ["2020-25"%string]))
    with (l ++ ["2020-25"%string]).
  rewrite Hu. cbn [bind]. rewrite Hu. cbn [bind].
  rewrite Hm; reflexivity.
Qed.

(** *** Coefficients the text does not list *)

Module unlisted.
Import np np_facts.

Section Zero.

Variables (gh : GH) (n m : nat).

Hypothesis Hn : (n < 15)%nat.
Hypothesis Hm : (m < 15)%nat.

Lemma dict_set_zero k e c :
  Forall (zero_at gh n m) c -> (zero_at gh n m) (k, e) -> Forall (zero_at gh n m) (dict_set k e c).
Proof.
  intros Hc He. induction c as [|[k0 e0] c IH]; simpl.
  - constructor; [exact He | constructor].
  - inversion Hc; subst. destruct (Z.eqb k0 k); constructor; auto.
Qed.

Lemma empty_table_zero years : Forall (zero_at gh n m) (empty_table years).
Proof.
  unfold empty_table.
  assert (H : forall l c, Forall (zero_at gh n m) c ->
            Forall (zero_at gh n m) (fold_left (fun c year =>
              dict_set year (Coeffs (zeros 15 15) (zeros 15 15)) c) l c)).
  { induction l as [|y l IH]; intros c Hc; simpl; [exact Hc|].
    apply IH. apply dict_set_zero; [exact Hc|]. split.
    - split; exact parser.zeros_rect.
    - destruct gh; simpl; apply parser.item_zeros. }
  apply H. constructor.
Qed.

Lemma store_zero y gh' m' n' v c c' :
  GH_eqb gh gh' && (n =? n')%nat && (m =? m')%nat = false ->
  Forall (zero_at gh n m) c -> store y gh' m' n' v c = Some c' -> Forall (zero_at gh n m) c'.
Proof.
  intros Hne. revert c'. induction c as [|[k e] c IH]; intros c' Hc; simpl; [discriminate|].
  inversion Hc as [|? ? [Hwf Hz] Hc']; subst. destruct (Z.eqb k y).
  - destruct (setitem (field_of gh' e) m' n' v) as [a|] eqn:E; simpl; [|discriminate].
    intros E'; injection E' as <-. constructor; [|assumption].
    assert (Ha : rect 15 15 a).
    { eapply parser.setitem_rect; [|exact E]. eapply parser.wf_entry_field. exact Hwf. }
    split; [apply parser.wf_entry_with_field; assumption|].
    cbn [snd] in Hz |- *.
    destruct gh, gh'; cbn [field_of with_field cg ch GH_eqb andb] in *; try exact Hz;
      rewrite (parser.item_setitem _ _ _ _ m n E);
      destruct (Nat.eqb_spec m' m) as [->|Hmm]; destruct (Nat.eqb_spec n' n) as [->|Hnn];
      cbn [andb]; try exact Hz; rewrite !Nat.eqb_refl in Hne; discriminate Hne.
  - destruct (store y gh' m' n' v c) as [r|] eqn:E; simpl; [|discriminate].
    intros E'; injection E' as <-. constructor; [split; assumption | apply IH; auto].
Qed.

Lemma read_line_zero years c line c' :
  lists gh n m line = false ->
  Forall (zero_at gh n m) c -> read_line years c line = Some c' -> Forall (zero_at gh n m) c'.
Proof.
  destruct line as [|gh' n' m' val]; simpl.
  - intros _ Hc E; injection E as <-. exact Hc.
  - intros Hne Hc. apply parser.foldM_invariant; [|exact Hc].
    intros s [i y] s' Hs. simpl.
    destruct (nth_error val i) as [v|]; simpl; [|discriminate].
    apply store_zero; assumption.
Qed.

Lemma foldM_read_lines years lines c c' :
  existsb (lists gh n m) lines = false ->
  Forall (zero_at gh n m) c -> foldM (read_line years) lines c = Some c' -> Forall (zero_at gh n m) c'.
Proof.
  revert c. induction lines as [|line lines IH]; intros c Hex Hc; simpl.
  - intros E; injection E as <-. exact Hc.
  - simpl in Hex. apply orb_false_elim in Hex. destruct Hex as [H1 H2].
    destruct (read_line years c line) as [c1|] eqn:E; simpl; [|discriminate].
    apply IH; [exact H2|]. eapply read_line_zero; eassumption.
Qed.

Lemma iadd_item a b x i j :
  rect 15 15 a -> rect 15 15 b -> iadd a b = Some x -> (i < 15)%nat -> (j < 15)%nat ->
  item x i j = (item a i j + item b i j)%R.
Proof.
  intros Ha Hb. unfold iadd, inplace, add. rewrite (ew2_rect Rplus Ha Hb). simpl.
  destruct (shape_eqb _ a); [|discriminate].
  intros E Hi Hj; injection E as <-. apply (item_zipw2 Rplus Ha Hb Hi Hj).
Qed.

Lemma assign_zero k gh' a c :
  Forall (zero_at gh n m) c -> rect 15 15 a -> (gh' = gh -> item a m n = 0%R) ->
  Forall (zero_at gh n m) (assign k gh' a c).
Proof.
  intros Hc Ha Hz. induction c as [|[k0 e0] c IH]; simpl; [constructor|].
  inversion Hc as [|? ? [Hwf H0] Hc']; subst.
  destruct (Z.eqb k0 k).
  - constructor; [|exact Hc'].
    split; [apply parser.wf_entry_with_field; assumption|].
    cbn [snd] in H0 |- *.
    destruct gh, gh'; cbn [field_of with_field cg ch] in *;
      try exact H0; apply Hz; reflexivity.
  - constructor; [split; assumption | apply IH; exact Hc'].
Qed.

Lemma add_previous_zero years c gh' c' :
  Forall (zero_at gh n m) c -> add_previous years c gh' = Some c' -> Forall (zero_at gh n m) c'.
Proof.
  intros Hc. unfold add_previous.
  destruct (last1 years) as [y1|]; simpl; [|discriminate].
  destruct (last2 years) as [y2|]; simpl; [|discriminate].
  destruct (dict_get y1 c) as [[k1 e1]|] eqn:E1; simpl; [|discriminate].
  destruct (dict_get y2 c) as [[k2 e2]|] eqn:E2; simpl; [|discriminate].
  destruct (iadd (field_of gh' e1) (field_of gh' e2)) as [a|] eqn:Ea; simpl; [|discriminate].
  intros E; injection E as <-.
  pose proof Hc as Hc'. rewrite Forall_forall in Hc'.
  destruct (Hc' _ (proj2 (dict_get_key _ _ E1))) as [W1 Z1].
  destruct (Hc' _ (proj2 (dict_get_key _ _ E2))) as [W2 Z2].
  pose proof (@parser.wf_entry_field gh' _ _ W1) as R1.
  pose proof (@parser.wf_entry_field gh' _ _ W2) as R2.
  apply assign_zero; [exact Hc | exact (@parser.iadd_rect _ _ _ R1 Ea) |].
  intros ->. rewrite (iadd_item R1 R2 Ea Hm Hn).
  cbn [snd] in Z1, Z2. rewrite Z1, Z2. ring.
Qed.

End Zero.

End unlisted.

(** X9: a coefficient the text has no row for is zero in every epoch of
    the table [read_coefficients] returns (the arrays start as zeros, rows
    write only their own entry, and the final addition adds zero to zero);
    in the embedded table these are the degree 0, the orders above the
    degree and the [h] of order 0. *)
Theorem unlisted_coefficients_are_zero (t : coeff_text) (c : dict) gh n m :
  read_coefficients t = Some c ->
  existsb (lists gh n m) (body t) = false ->
  (n < 15)%nat -> (m < 15)%nat ->
  forall k e, In (k, e) c -> item (field_of gh e) m n = 0%R.
Proof.
  unfold read_coefficients. intros Hread Hex Hn Hm.
  destruct (read_years t) as [years|]; simpl in Hread; [|discriminate].
  destruct (fill_table t years) as [c0|] eqn:Ef; simpl in Hread; [|discriminate].
  destruct (add_previous years c0 key_g) as [c1|] eqn:E1; simpl in Hread; [|discriminate].
  destruct (add_previous years c1 key_h) as [c2|] eqn:E2; simpl in Hread; [|discriminate].
  injection Hread as <-. intros k e Hin.
  assert (H0 : Forall (zero_at gh n m) c0).
  { unfold fill_table in Ef.
    eapply unlisted.foldM_read_lines; [exact Hex | | exact Ef].
    apply unlisted.empty_table_zero. }
  pose proof (unlisted.add_previous_zero Hn Hm _ _ H0 E1) as H1.
  pose proof (unlisted.add_previous_zero Hn Hm _ _ H1 E2) as H2.
  rewrite Forall_forall in H2. exact (proj2 (H2 _ Hin)).
Qed.

Lemma unlisted_coefficients_are_zero_witness :
  item (field_of key_g (entry table 2000)) 0 0 = 0%R.
Proof.
  apply (@unlisted_coefficients_are_zero coeff table key_g 0 0
           read_coefficients_coeff) with (k := 2000%Z).
  - reflexivity.
  - lia.
  - lia.
  - exact entry_2000_in_table.
Defined.

(** ** [convert_coordinates] *)

Local Open Scope R_scope.

Lemma arctan2_right y x : 0 < x -> arctan2 y x = atan (y / x).
Proof. intros H. unfold arctan2. destruct (Rlt_dec 0 x); [reflexivity | contradiction]. Qed.

Lemma arctan2_upper_left y x : x < 0 -> 0 <= y -> arctan2 y x = atan (y / x) + PI.
Proof.
  intros Hx Hy. unfold arctan2.
  destruct (Rlt_dec 0 x); [lra|]. destruct (Rlt_dec x 0); [|contradiction].
  destruct (Rle_dec 0 y); [reflexivity | contradiction].
Qed.

Lemma arctan2_lower_left y x : x < 0 -> y < 0 -> arctan2 y x = atan (y / x) - PI.
Proof.
  intros Hx Hy. unfold arctan2.
  destruct (Rlt_dec 0 x); [lra|]. destruct (Rlt_dec x 0); [|contradiction].
  destruct (Rle_dec 0 y); [lra | reflexivity].
Qed.

Lemma arctan2_up y : 0 < y -> arctan2 y 0 = PI / 2.
Proof.
  intros Hy. unfold arctan2.
  destruct (Rlt_dec 0 0); [lra|]. destruct (Rlt_dec 0 y); [reflexivity | contradiction].
Qed.

Lemma arctan2_down y : y < 0 -> arctan2 y 0 = - (PI / 2).
Proof.
  intros Hy. unfold arctan2.
  destruct (Rlt_dec 0 0); [lra|]. destruct (Rlt_dec 0 y); [lra|].
  destruct (Rlt_dec y 0); [reflexivity | contradiction].
Qed.

(** [np.arctan2] recovers the angle of a point of the plane. *)
Lemma arctan2_polar rho phi :
  0 < rho -> - PI < phi <= PI -> arctan2 (rho * sin phi) (rho * cos phi) = phi.
Proof.
  intros Hrho [Hlo Hhi]. pose proof PI_RGT_0 as Hpi.
  destruct (Rtotal_order phi (- (PI / 2))) as [H1|[H1|H1]].
  - (* the third quadrant *)
    assert (Hc : 0 < cos (phi + PI)) by (apply cos_gt_0; lra).
    assert (Hs : 0 < sin (phi + PI)) by (apply sin_gt_0; lra).
    rewrite neg_cos in Hc. rewrite neg_sin in Hs.
    rewrite arctan2_lower_left by nra.
    replace (rho * sin phi / (rho * cos phi)) with (tan (phi + PI)).
    + rewrite atan_tan by lra. ring.
    + unfold tan. rewrite neg_sin, neg_cos. field. split; lra.
  - subst phi. rewrite cos_neg, sin_neg, cos_PI2, sin_PI2.
    replace (rho * 0) with 0 by ring. apply arctan2_down. lra.
  - destruct (Rtotal_order phi (PI / 2)) as [H2|[H2|H2]].
    + assert (Hc : 0 < cos phi) by (apply cos_gt_0; lra).
      rewrite arctan2_right by nra.
      replace (rho * sin phi / (rho * cos phi)) with (tan phi)
        by (unfold tan; field; split; lra).
      apply atan_tan. lra.
    + subst phi. rewrite cos_PI2, sin_PI2.
      replace (rho * 0) with 0 by ring. apply arctan2_up. lra.
    + (* the second quadrant *)
      assert (Hc : 0 < cos (phi - PI)) by (apply cos_gt_0; lra).
      assert (Hs : 0 <= sin phi) by (apply sin_ge_0; lra).
      assert (Ec : cos phi = - cos (phi - PI))
        by (replace phi with (phi - PI + PI) at 1 by ring; apply neg_cos).
      assert (Es : sin phi = - sin (phi - PI))
        by (replace phi with (phi - PI + PI) at 1 by ring; apply neg_sin).
      rewrite arctan2_upper_left by nra.
      replace (rho * sin phi / (rho * cos phi)) with (tan (phi - PI)).
      * rewrite atan_tan by lra. ring.
      * unfold tan. rewrite Ec, Es. field. split; lra.
Qed.

(** X10: spherical coordinates converted to Cartesian ones (the call with
    [cartesian=True]) and converted back (the call with [x], [y], [z]) are
    the coordinates one started from, for a point off the axis with its
    longitude in [(-pi, pi]]. *)
Theorem spherical_to_cartesian_and_back (r theta phi : R) :
  0 < r -> 0 < theta < PI -> - PI < phi <= PI ->
  exists x y z,
    convert_coordinates true true false (spherical_kwargs r theta phi)
    = ([], Some [("r", r); ("theta", theta); ("phi", phi);
                 ("x", x); ("y", y); ("z", z)]%string) /\
    x = r * sin theta * cos phi /\ y = r * sin theta * sin phi /\ z = r * cos theta /\
    convert_coordinates true false false
      [("x", Some x); ("y", Some y); ("z", Some z)]%string
    = ([], Some [("r", r); ("theta", theta); ("phi", phi)]%string).
Proof.
  intros Hr [Ht0 Ht1] Hphi.
  exists (r * sin theta * cos phi), (r * sin theta * sin phi), (r * cos theta).
  split; [reflexivity|]. do 3 (split; [reflexivity|]).
  assert (Hst : 0 < sin theta) by (apply sin_gt_0; assumption).
  assert (Hnorm : sqrt ((r * sin theta * cos phi) ^ 2 + (r * sin theta * sin phi) ^ 2
                        + (r * cos theta) ^ 2) = r).
  { rewrite <- (sqrt_Rsqr r) at 4 by lra. f_equal. unfold Rsqr.
    transitivity (r * r * ((sin theta * sin theta)
                           * (sin phi * sin phi + cos phi * cos phi)
                           + cos theta * cos theta)); [ring|].
    rewrite (sin2_cos2_mult phi), Rmult_1_r, (sin2_cos2_mult theta). ring. }
  unfold convert_coordinates.
  cbn [map pop sget String.eqb Ascii.eqb Bool.eqb complete update fold_left sset fst snd].
  rewrite Hnorm.
  replace (r * cos theta / r) with (cos theta) by (field; lra).
  rewrite acos_cos by lra.
  rewrite (arctan2_polar (rho := r * sin theta)) by (try nra; exact Hphi).
  reflexivity.
Qed.

Lemma spherical_to_cartesian_and_back_witness :
  exists x y z,
    convert_coordinates true true false (spherical_kwargs 6371200 1 0)
    = ([], Some [("r", 6371200); ("theta", 1); ("phi", 0);
                 ("x", x); ("y", y); ("z", z)]%string) /\
    x = 6371200 * sin 1 * cos 0 /\ y = 6371200 * sin 1 * sin 0 /\ z = 6371200 * cos 1 /\
    convert_coordinates true false false
      [("x", Some x); ("y", Some y); ("z", Some z)]%string
    = ([], Some [("r", 6371200); ("theta", 1); ("phi", 0)]%string).
Proof.
  pose proof PI_RGT_0. pose proof PI2_1.
  apply (@spherical_to_cartesian_and_back 6371200 1 0); lra.
Defined.

(** *** Geodetic input *)

Lemma latitude_in_radians latitude :
  -90 < latitude < 90 -> - (PI / 2) < latitude * dtor < PI / 2.
Proof.
  intros [H1 H2]. pose proof PI_RGT_0 as Hpi. unfold dtor.
  split; nra.
Qed.

Lemma prime_vertical_pos latitude : -90 < latitude < 90 -> 0 < prime_vertical latitude.
Proof.
  intros Hlat. destruct (latitude_in_radians Hlat) as [H1 H2].
  assert (Hc : 0 < cos (latitude * dtor)) by (apply cos_gt_0; assumption).
  unfold prime_vertical. apply Rdiv_lt_0_compat; [unfold a2; lra|].
  apply sqrt_lt_R0.
  assert (Ha : 0 < a2 * cos (latitude * dtor) ^ 2).
  { apply Rmult_lt_0_compat; [unfold a2; lra | apply pow_lt; exact Hc]. }
  assert (Hb : 0 <= b2 * sin (latitude * dtor) ^ 2).
  { apply Rmult_le_pos; [unfold b2; lra | apply pow2_ge_0]. }
  lra.
Qed.

(** X11: for a geodetic position with a latitude strictly between the
    poles and a height that is not negative, the converter returns the
    point of the WGS-84 ellipsoid model: with [N] the radius of curvature
    and [beta] the geocentric latitude it computes, [r cos beta] is the
    distance [(N + h) cos(lat)] from the axis and [r sin beta] the height
    [(b2/a2 N + h) sin(lat)] above the equatorial plane; [theta] is the
    colatitude [pi/2 - beta], [phi] the longitude in radians and [psi] the
    difference between the two latitudes. *)
Theorem geodetic_input_gives_the_ellipsoid_point (height latitude longitude : R) :
  -90 < latitude < 90 -> 0 <= height ->
  let alpha := latitude * dtor in
  let N := prime_vertical latitude in
  let beta := geocentric_latitude height latitude in
  exists r,
    convert_coordinates true false false
      [("height", Some height); ("latitude", Some latitude);
       ("longitude", Some longitude)]%string
    = ([], Some [("psi", alpha - beta); ("r", r); ("theta", PI / 2 - beta);
                 ("phi", longitude * dtor)]%string) /\
    0 < r /\ - (PI / 2) < beta < PI / 2 /\
    r * cos beta = (N + height) * cos alpha /\
    r * sin beta = (b2 / a2 * N + height) * sin alpha.
Proof.
  intros Hlat Hh. cbv zeta.
  destruct (latitude_in_radians Hlat) as [H1 H2].
  pose proof (prime_vertical_pos Hlat) as HN.
  set (alpha := latitude * dtor) in *.
  set (N := prime_vertical latitude) in *.
  set (beta := geocentric_latitude height latitude).
  assert (Hc : 0 < cos alpha) by (apply cos_gt_0; assumption).
  assert (Hb : - (PI / 2) < beta < PI / 2).
  { unfold beta, geocentric_latitude.
    match goal with |- _ < atan ?x < _ => pose proof (atan_bound x) end. lra. }
  assert (Hcb : 0 < cos beta) by (apply cos_gt_0; lra).
  exists ((N + height) * cos alpha / cos beta).
  split; [reflexivity|].
  split; [apply Rdiv_lt_0_compat; [apply Rmult_lt_0_compat; lra | exact Hcb]|].
  split; [exact Hb|].
  split; [field; lra|].
  assert (Ht : tan beta = (b2 / a2 * N + height) / (N + height) * (sin alpha / cos alpha))
    by apply tan_atan.
  unfold tan in Ht.
  assert (Hs : sin beta = (b2 / a2 * N + height) / (N + height) * (sin alpha / cos alpha)
                          * cos beta).
  { rewrite <- Ht. field. lra. }
  rewrite Hs. field. repeat split; first [lra | unfold a2; lra].
Qed.

Lemma geodetic_input_gives_the_ellipsoid_point_witness :
  let alpha := 45 * dtor in
  let N := prime_vertical 45 in
  let beta := geocentric_latitude 1000 45 in
  exists r,
    convert_coordinates true false false
      [("height", Some 1000); ("latitude", Some 45);
       ("longitude", Some 30)]%string
    = ([], Some [("psi", alpha - beta); ("r", r); ("theta", PI / 2 - beta);
                 ("phi", 30 * dtor)]%string) /\
    0 < r /\ - (PI / 2) < beta < PI / 2 /\
    r * cos beta = (N + 1000) * cos alpha /\
    r * sin beta = (b2 / a2 * N + 1000) * sin alpha.
Proof.
  apply (@geodetic_input_gives_the_ellipsoid_point 1000 45 30); lra.
Defined.

(** *** Keywords the converter does not know *)

Lemma sget_app {A : Type} (name k : string) (v : A) (d : sdict A) :
  k <> name -> sget name (d ++ [(k, v)]) = sget name d.
Proof.
  intros Hne. induction d as [|[k0 v0] d IH]; simpl.
  - destruct (String.eqb_spec k name); [contradiction | reflexivity].
  - destruct (String.eqb k0 name); [reflexivity | exact IH].
Qed.

(** X12: a keyword that is none of the nine coordinate names changes
    nothing: the converter collects the names left over ([err]) and never
    looks at them; the flag [geographic] is not read either. *)
Theorem unknown_keywords_are_ignored (spherical_flag cartesian_flag geographic_flag : bool)
    (kwargs : sdict (option R)) (k : string) (v : option R) :
  ~ In k ["r"; "theta"; "phi"; "x"; "y"; "z"; "height"; "latitude"; "longitude"]%string ->
  convert_coordinates spherical_flag cartesian_flag geographic_flag (kwargs ++ [(k, v)])
  = convert_coordinates spherical_flag cartesian_flag false kwargs.
Proof.
  intros Hk. unfold convert_coordinates, pop. cbn [map].
  rewrite !sget_app by (intros ->; apply Hk; simpl; tauto).
  reflexivity.
Qed.

Lemma unknown_keywords_are_ignored_witness :
  convert_coordinates true false true
    (spherical_kwargs 6371200 1 0 ++ [("altitude"%string, Some 1000)])
  = convert_coordinates true false false (spherical_kwargs 6371200 1 0).
Proof.
  apply (@unknown_keywords_are_ignored true false true (spherical_kwargs 6371200 1 0)
           "altitude"%string (Some 1000)).
  simpl. intuition discriminate.
Defined.

Local Close Scope R_scope.

(** ** The quantities [geographic] derives, and [fdi] *)

Local Open Scope R_scope.

Lemma atan_nonpos x : x <= 0 -> atan x <= 0.
Proof.
  intros [H | ->]; [|rewrite atan_0; lra].
  pose proof (atan_increasing _ _ H) as Hi. rewrite atan_0 in Hi. lra.
Qed.

Lemma atan_pos x : 0 < x -> 0 < atan x.
Proof. intros H. pose proof (atan_increasing _ _ H) as Hi. rewrite atan_0 in Hi. exact Hi. Qed.

(** The range of [np.arctan2]. *)
Lemma arctan2_bound y x : - PI < arctan2 y x <= PI.
Proof.
  pose proof PI_RGT_0 as Hpi. pose proof (atan_bound (y / x)) as Hb.
  unfold arctan2.
  destruct (Rlt_dec 0 x) as [Hx|Hx]; [lra|].
  destruct (Rlt_dec x 0) as [Hx'|Hx'].
  - destruct (Rle_dec 0 y) as [Hy|Hy].
    + assert (Hq : y / x <= 0).
      { unfold Rdiv. replace 0 with (y * 0) by ring.
        apply Rmult_le_compat_l; [exact Hy|].
        left. apply Rinv_lt_0_compat. exact Hx'. }
      pose proof (atan_nonpos Hq). lra.
    + assert (Hq : 0 < y / x).
      { unfold Rdiv. replace (y * / x) with ((- y) * (- / x)) by ring.
        apply Rmult_lt_0_compat; [lra|].
        pose proof (Rinv_lt_0_compat x Hx'). lra. }
      pose proof (atan_pos Hq). lra.
  - destruct (Rlt_dec 0 y); [lra|]. destruct (Rlt_dec y 0); lra.
Qed.

Lemma arctan2_bound_right y x : 0 <= x -> - (PI / 2) <= arctan2 y x <= PI / 2.
Proof.
  intros Hx. pose proof PI_RGT_0 as Hpi. pose proof (atan_bound (y / x)) as Hb.
  unfold arctan2.
  destruct (Rlt_dec 0 x) as [Hx0|Hx0]; [lra|].
  destruct (Rlt_dec x 0) as [Hx'|Hx']; [lra|].
  destruct (Rlt_dec 0 y); [lra|]. destruct (Rlt_dec y 0); lra.
Qed.

Lemma in_degrees a b : - (b * dtor) <= a <= b * dtor -> - b <= a / dtor <= b.
Proof.
  intros [H1 H2]. pose proof PI_RGT_0 as Hpi.
  assert (Hd : 0 < dtor) by (unfold dtor; lra).
  assert (Hi : 0 < / dtor) by (apply Rinv_0_lt_compat; exact Hd).
  split.
  - replace (- b) with (- (b * dtor) * / dtor) by (field; lra).
    unfold Rdiv. apply Rmult_le_compat_r; lra.
  - replace b with (b * dtor * / dtor) by (field; lra).
    unfold Rdiv. apply Rmult_le_compat_r; lra.
Qed.

Section Derived.

Variable lpmn : nat -> nat -> R -> np.ndarray * np.ndarray.

Lemma geographic_derived self height latitude longitude metadata potential kwargs out rg :
  geographic lpmn self height latitude longitude metadata potential kwargs
  = (out, Some rg) ->
  exists north east up,
    sget "north" (field rg) = Some north /\
    sget "east" (field rg) = Some east /\
    sget "up" (field rg) = Some up /\
    sget "horizontal" (field rg) = Some (sqrt (north ^ 2 + east ^ 2)) /\
    sget "field" (field rg) = Some (sqrt (north ^ 2 + east ^ 2 + up ^ 2)) /\
    sget "declination" (field rg) = Some (arctan2 east north / dtor) /\
    sget "inclination" (field rg)
    = Some (arctan2 up (sqrt (north ^ 2 + east ^ 2)) / dtor).
Proof.
  unfold geographic, after_conversion. intros Hgeo.
  injection Hgeo as _ Hgeo.
  invert_bind Hgeo.
  sget_simpl_in E7. sget_simpl_in E8. sget_simpl_in E9.
  injection E7 as <-. injection E8 as <-. injection E9 as <-.
  injection Hgeo as <-. cbn [field].
  eexists _, _, _.
  repeat split; sget_simpl; reflexivity.
Qed.

(** X13: the quantities [geographic] derives from north, east and up fit
    together: the horizontal intensity is [sqrt(north^2 + east^2)], the
    total field is [sqrt(horizontal^2 + up^2)] and not less than the
    horizontal intensity, the inclination lies between -90 and 90 degrees
    and the declination between -180 and 180 degrees. *)
Theorem geographic_derived_quantities_fit self height latitude longitude
    (md pot : bool) kw out rg :
  geographic lpmn self height latitude longitude md pot kw = (out, Some rg) ->
  exists north east up horizontal total inclination declination,
    sget "north" (field rg) = Some north /\
    sget "east" (field rg) = Some east /\
    sget "up" (field rg) = Some up /\
    sget "horizontal" (field rg) = Some horizontal /\
    sget "field" (field rg) = Some total /\
    sget "inclination" (field rg) = Some inclination /\
    sget "declination" (field rg) = Some declination /\
    horizontal = sqrt (north ^ 2 + east ^ 2) /\
    total = sqrt (horizontal ^ 2 + up ^ 2) /\
    0 <= horizontal <= total /\
    -90 <= inclination <= 90 /\
    -180 <= declination <= 180.
Proof.
  intros Hgeo.
  destruct (geographic_derived Hgeo) as [n [e [u [Hn [He [Hu [Hh [Hf [Hd Hi]]]]]]]]].
  assert (Hsq : 0 <= n ^ 2 + e ^ 2) by (pose proof (pow2_ge_0 n); pose proof (pow2_ge_0 e); lra).
  assert (Hu2 : 0 <= u ^ 2) by apply pow2_ge_0.
  eexists n, e, u, _, _, _, _.
  do 7 (split; [eassumption|]).
  split; [reflexivity|].
  split; [rewrite pow2_sqrt by exact Hsq; reflexivity|].
  split; [split; [apply sqrt_pos | apply sqrt_le_1; lra]|].
  split.
  - apply in_degrees.
    pose proof (@arctan2_bound_right u (sqrt (n ^ 2 + e ^ 2)) (sqrt_pos _)).
    unfold dtor. lra.
  - apply in_degrees. pose proof (arctan2_bound e n). unfold dtor. lra.
Qed.

(** The dictionary of a field [spherical] returns has no entry ['x']. *)
Lemma spherical_has_no_x self r theta phi d (potential metadata : bool) res :
  spherical lpmn self r theta phi d potential metadata = Some res ->
  sget "x" (field res) = None.
Proof.
  unfold spherical.
  destruct (lpmn d d (cos (np.clip theta (1 / 1000000) (PI - 1 / 1000000)))) as [P dP].
  intros Hs. invert_bind Hs.
  match goal with
  | Ev : (if potential then _ else _) = Some ?fld |- _ =>
      assert (Hfld : sget "x" fld = None);
        [destruct potential;
           [invert_bind Ev; injection Ev as <-; reflexivity
           | injection Ev as <-; reflexivity]|]
  end.
  destruct metadata; injection Hs as <-; cbn [field]; sget_simpl; exact Hfld.
Qed.

(** X14: [fdi] never returns: whatever the keywords, either the conversion
    or [geographic] raises, or the lookup of ['x'] in the field that
    [geographic] returned does (that dictionary holds north, east and up,
    not x, y and z). *)
Theorem fdi_always_raises self (spherical_flag cartesian_flag geographic_flag : bool)
    (kwargs : sdict (option R)) :
  snd (fdi lpmn self spherical_flag cartesian_flag geographic_flag kwargs) = None.
Proof.
  unfold fdi.
  destruct (snd (convert_coordinates spherical_flag cartesian_flag geographic_flag kwargs))
    as [coords|]; [|reflexivity].
  cbn [snd].
  destruct (geographic lpmn self None None None true false
              (map (fun kv => (fst kv, Some (snd kv))) coords)) as [out [rg|]] eqn:Hgeo;
    [|reflexivity].
  cbn [snd bind].
  assert (Hx : sget "x" (field rg) = None).
  { unfold geographic, after_conversion in Hgeo.
    injection Hgeo as _ Hgeo. invert_bind Hgeo.
    injection Hgeo as <-. cbn [field]. sget_simpl.
    eapply spherical_has_no_x. eassumption. }
  rewrite Hx. reflexivity.
Qed.

End Derived.

Lemma geographic_derived_quantities_fit_witness :
  let rg := returned (geographic legendre_lpmn model_2000 None None None true false
                        (spherical_kwargs 6371200 1 0)) in
  exists north east up horizontal total inclination declination,
    sget "north" (field rg) = Some north /\
    sget "east" (field rg) = Some east /\
    sget "up" (field rg) = Some up /\
    sget "horizontal" (field rg) = Some horizontal /\
    sget "field" (field rg) = Some total /\
    sget "inclination" (field rg) = Some inclination /\
    sget "declination" (field rg) = Some declination /\
    horizontal = sqrt (north ^ 2 + east ^ 2) /\
    total = sqrt (horizontal ^ 2 + up ^ 2) /\
    0 <= horizontal <= total /\
    -90 <= inclination <= 90 /\
    -180 <= declination <= 180.
Proof.
  destruct front_ends_at_a_point as [rg [rc [Hg _]]].
  unfold returned. rewrite Hg. cbn [snd].
  exact (@geographic_derived_quantities_fit legendre_lpmn model_2000
           None None None true false (spherical_kwargs 6371200 1 0) [] rg Hg).
Defined.

Local Close Scope R_scope.

(** ** [spherical]: the pole, the sign of the radius, the longitude *)

Local Open Scope R_scope.

Lemma clip_range_ordered : 1 / 1000000 <= PI - 1 / 1000000.
Proof. pose proof PI2_1. lra. Qed.

Lemma clip_idempotent x lo hi :
  lo <= hi -> np.clip (np.clip x lo hi) lo hi = np.clip x lo hi.
Proof.
  intros H. apply clip_inside; unfold np.clip.
  - apply Rmin_glb; [apply Rmax_r | exact H].
  - apply Rmin_r.
Qed.

Lemma clip_at_zero : np.clip 0 (1 / 1000000) (PI - 1 / 1000000) = 1 / 1000000.
Proof.
  pose proof clip_range_ordered. unfold np.clip.
  rewrite Rmax_right by lra. apply Rmin_left. lra.
Qed.

Lemma clip_at_pi : np.clip PI (1 / 1000000) (PI - 1 / 1000000) = PI - 1 / 1000000.
Proof.
  pose proof clip_range_ordered. unfold np.clip.
  rewrite Rmax_left by lra. apply Rmin_right. lra.
Qed.

Lemma Rabs_Re_over_opp r : Rabs (Re / - r) = Rabs (Re / r).
Proof.
  destruct (Req_dec r 0) as [->|Hr]; [rewrite Ropp_0; reflexivity|].
  replace (Re / - r) with (- (Re / r)) by (field; exact Hr). apply Rabs_Ropp.
Qed.

Lemma map_cos_turn phi (l : list nat) :
  map cos (map (fun m => INR m * (phi + 2 * PI)) l)
  = map cos (map (fun m => INR m * phi) l).
Proof.
  rewrite !map_map. apply map_ext. intros m.
  replace (INR m * (phi + 2 * PI)) with (INR m * phi + 2 * INR m * PI) by ring.
  apply cos_period.
Qed.

Lemma map_sin_turn phi (l : list nat) :
  map sin (map (fun m => INR m * (phi + 2 * PI)) l)
  = map sin (map (fun m => INR m * phi) l).
Proof.
  rewrite !map_map. apply map_ext. intros m.
  replace (INR m * (phi + 2 * PI)) with (INR m * phi + 2 * INR m * PI) by ring.
  apply sin_period.
Qed.

(** Both sides run the same steps: go through them together. *)
Ltac same_steps :=
  repeat match goal with
  | |- context [bind ?x _] => destruct x; cbn [bind option_map]; [|reflexivity]
  end.

Section Symmetries.

Variable lpmn : nat -> nat -> R -> np.ndarray * np.ndarray.

(** X15: [spherical] evaluates at the colatitude clipped to
    [[1e-6, pi - 1e-6]]: a colatitude outside this range gives the result
    of the nearer end of it, position included; at the poles [theta = 0]
    and [theta = pi] the field is the field at [1e-6] and at [pi - 1e-6]. *)
Theorem colatitude_is_clipped_at_the_poles self r theta phi d (potential metadata : bool) :
  spherical lpmn self r theta phi d potential metadata
  = spherical lpmn self r (np.clip theta (1 / 1000000) (PI - 1 / 1000000)) phi d
      potential metadata
  /\ spherical lpmn self r 0 phi d potential metadata
     = spherical lpmn self r (1 / 1000000) phi d potential metadata
  /\ spherical lpmn self r PI phi d potential metadata
     = spherical lpmn self r (PI - 1 / 1000000) phi d potential metadata.
Proof.
  assert (Hclip : forall th,
    spherical lpmn self r th phi d potential metadata
    = spherical lpmn self r (np.clip th (1 / 1000000) (PI - 1 / 1000000)) phi d
        potential metadata).
  { intros th. unfold spherical.
    rewrite (clip_idempotent th clip_range_ordered). reflexivity. }
  split; [apply Hclip|]. split.
  - rewrite (Hclip 0), (Hclip (1 / 1000000)), clip_at_zero.
    rewrite <- clip_at_zero at 2. rewrite clip_idempotent by exact clip_range_ordered.
    rewrite clip_at_zero. reflexivity.
  - rewrite (Hclip PI), (Hclip (PI - 1 / 1000000)), clip_at_pi.
    rewrite <- clip_at_pi at 2. rewrite clip_idempotent by exact clip_range_ordered.
    rewrite clip_at_pi. reflexivity.
Qed.

(** X16: [spherical] takes the absolute value of [Re/r]: the field, and the
    potential, computed for [-r] are those computed for [r]; a negative
    radius is accepted without a word. *)
Theorem field_is_even_in_the_radius self r theta phi d (potential metadata : bool) :
  option_map field (spherical lpmn self (- r) theta phi d potential metadata)
  = option_map field (spherical lpmn self r theta phi d potential metadata).
Proof.
  unfold spherical. rewrite Rabs_Re_over_opp.
  destruct (lpmn d d (cos (np.clip theta (1 / 1000000) (PI - 1 / 1000000)))) as [P dP].
  same_steps. destruct metadata; reflexivity.
Qed.

(** X17: the field [spherical] computes has the period [2 pi] in the
    longitude. *)
Theorem field_is_periodic_in_the_longitude self r theta phi d (potential metadata : bool) :
  option_map field (spherical lpmn self r theta (phi + 2 * PI) d potential metadata)
  = option_map field (spherical lpmn self r theta phi d potential metadata).
Proof.
  unfold spherical. rewrite !map_cos_turn, !map_sin_turn.
  destruct (lpmn d d (cos (np.clip theta (1 / 1000000) (PI - 1 / 1000000)))) as [P dP].
  same_steps. destruct metadata; reflexivity.
Qed.

End Symmetries.

Local Close Scope R_scope.

(** ** The year a result reports *)

Section ReportedYear.

Variable lpmn : nat -> nat -> R -> np.ndarray * np.ndarray.

Hypothesis lpmn_shape : forall d z,
  np.rect (d + 1) (d + 1) (fst (lpmn d d z)) /\
  np.rect (d + 1) (d + 1) (snd (lpmn d d z)).

(** X18: for a year beyond the last key of the table the model evaluates
    the coefficients stored under 2020, and the result says so nowhere:
    field and position are those of [igrfModel(2020)], but the year in the
    entry ['_'] is the year that was requested. *)
Theorem year_beyond_the_table_is_reported_as_requested (now : Z) (e : Q) (v : bool)
    (r theta phi : R) (d : nat) (potential : bool) :
  (2020 < e)%Q -> (d <= 14)%nat ->
  exists s s0 res res0,
    __init__ now (Some e) v = Some (s, []) /\
    __init__ now (Some 2020%Q) v = Some (s0, []) /\
    spherical lpmn s r theta phi d potential true = Some res /\
    spherical lpmn s0 r theta phi d potential true = Some res0 /\
    field res = field res0 /\ position res = position res0 /\
    option_map meta_year (underscore res) = Some (Some e) /\
    option_map meta_year (underscore res0) = Some (Some 2020%Q).
Proof.
  intros He Hd. rewrite !init_unfold.
  assert (Hwf : wf_table (coefficients (IgrfModel v table None None None)))
    by exact wf_table_table.
  destruct (entry_get wf_table_table in_year_keys_2020) as [_ [Hg Hh]].
  destruct (@set_year_above now _ e Hwf He) as [s [Hs [_ HGH]]].
  assert (E : (inject_Z 2020 == 2020)%Q) by reflexivity.
  destruct (@set_year_tabulated now _ 2020%Z 2020%Q Hwf in_year_keys_2020 E)
    as [s0 [Hs0 [_ [_ HGH0]]]].
  cbn [coefficients] in HGH, HGH0.
  assert (Hy : year s = Some e).
  { destruct (@set_year_total_some now _ e Hwf) as [s' [Hs' [_ [Hy _]]]]. congruence. }
  assert (Hy0 : year s0 = Some 2020%Q).
  { destruct (@set_year_total_some now _ 2020%Q Hwf) as [s' [Hs' [_ [Hy0 _]]]]. congruence. }
  pose proof (@spherical_eval lpmn lpmn_shape s _ _ r theta phi d potential true
                HGH (normalized_rect Hg) (normalized_rect Hh) Hd) as Hr.
  pose proof (@spherical_eval lpmn lpmn_shape s0 _ _ r theta phi d potential true
                HGH0 (normalized_rect Hg) (normalized_rect Hh) Hd) as Hr0.
  cbv zeta in Hr, Hr0.
  eexists s, s0, _, _.
  split; [exact Hs|]. split; [exact Hs0|]. split; [exact Hr|]. split; [exact Hr0|].
  cbn [field position underscore option_map meta_year]. rewrite Hy, Hy0.
  repeat split; reflexivity.
Qed.

End ReportedYear.

Lemma year_beyond_the_table_is_reported_as_requested_witness :
  exists s s0 res res0,
    __init__ 2026 (Some 2026%Q) false = Some (s, []) /\
    __init__ 2026 (Some 2020%Q) false = Some (s0, []) /\
    spherical legendre_lpmn s 6371200 1 0 14 false true = Some res /\
    spherical legendre_lpmn s0 6371200 1 0 14 false true = Some res0 /\
    field res = field res0 /\ position res = position res0 /\
    option_map meta_year (underscore res) = Some (Some 2026%Q) /\
    option_map meta_year (underscore res0) = Some (Some 2020%Q).
Proof.
  apply (@year_beyond_the_table_is_reported_as_requested legendre_lpmn legendre_lpmn_shape
           2026 2026%Q false 6371200 1 0 14 false).
  - reflexivity.
  - lia.
Defined.

(** ** The evaluations [_spherical1], [_spherical2] and [_spherical3] *)

Module grids.
Import np np_facts sums.

Local Open Scope R_scope.

Lemma tabulate_rect k (g : nat -> nat -> R) : rect k k (tabulate k g).
Proof.
  unfold tabulate, rect. rewrite length_map, length_seq. split; [reflexivity|].
  apply Forall_forall. intros row Hin. apply in_map_iff in Hin.
  destruct Hin as [i [<- _]]. rewrite length_map, length_seq. reflexivity.
Qed.

Lemma item_tabulate k (g : nat -> nat -> R) i j :
  (i < k)%nat -> (j < k)%nat -> item (tabulate k g) i j = g i j.
Proof.
  intros Hi Hj. unfold item, tabulate.
  rewrite (nth_indep _ [] (map (fun j0 => g O j0) (seq 0 k)))
    by (rewrite length_map, length_seq; exact Hi).
  rewrite (map_nth (fun i0 => map (fun j0 => g i0 j0) (seq 0 k)) (seq 0 k) O i).
  rewrite seq_nth by exact Hi. simpl. apply nth_map_seq. exact Hj.
Qed.

(** A square array is the table of its entries. *)
Lemma rect_tabulate k (a : ndarray) : rect k k a -> a = tabulate k (item a).
Proof.
  intros Ha. apply (rect_ext Ha (tabulate_rect k (item a))).
  intros i j Hi Hj. rewrite item_tabulate by assumption. reflexivity.
Qed.

Lemma map_map_tabulate {A B : Type} (h : A -> B) k (g : nat -> nat -> A) :
  map (map h) (tabulate k g) = tabulate k (fun i j => h (g i j)).
Proof.
  unfold tabulate. rewrite map_map. apply map_ext. intros i. apply map_map.
Qed.

Lemma meshgrid_arange k :
  meshgrid (arange k) (arange k)
  = (tabulate k (fun _ j => j), tabulate k (fun i _ => i)).
Proof.
  unfold meshgrid, arange, tabulate. f_equal.
  apply map_ext. intros _. symmetry. apply map_id.
Qed.

Lemma mapM_combine_map {X A B C : Type} (h : A -> B -> option C)
    (F : X -> A) (G : X -> B) (l : list X) :
  mapM (fun p => h (fst p) (snd p)) (combine (map F l) (map G l))
  = mapM (fun x => h (F x) (G x)) l.
Proof.
  induction l as [|x l IH]; simpl; [reflexivity|]. rewrite IH. reflexivity.
Qed.

Lemma broadcast_map {X A B C : Type} (op : A -> B -> C)
    (F : X -> A) (G : X -> B) (l : list X) :
  broadcast (fun x y => Some (op x y)) (map F l) (map G l)
  = Some (map (fun x => op (F x) (G x)) l).
Proof.
  rewrite broadcast_same by (rewrite !length_map; reflexivity).
  rewrite (mapM_combine_map (fun x y => Some (op x y))).
  apply (mapM_total (fun x => op (F x) (G x))).
Qed.

Lemma broadcast2_tabulate {A B C : Type} (op : A -> B -> C) k
    (f : nat -> nat -> A) (g : nat -> nat -> B) :
  broadcast (broadcast (fun x y => Some (op x y))) (tabulate k f) (tabulate k g)
  = Some (tabulate k (fun i j => op (f i j) (g i j))).
Proof.
  unfold tabulate.
  rewrite broadcast_same by (rewrite !length_map; reflexivity).
  rewrite (mapM_combine_map (broadcast (fun x y => Some (op x y)))).
  rewrite (@mapM_ext_in _ _ _
             (fun i => Some (map (fun j => op (f i j) (g i j)) (seq 0 k))))
    by (intros i _; apply broadcast_map).
  apply (mapM_total (fun i => map (fun j => op (f i j) (g i j)) (seq 0 k))).
Qed.

Lemma ew2_tabulate (op : R -> R -> R) k (f g : nat -> nat -> R) :
  ew2 op (tabulate k f) (tabulate k g)
  = Some (tabulate k (fun i j => op (f i j) (g i j))).
Proof. exact (broadcast2_tabulate op k f g). Qed.

Lemma imul_tabulate k (f g : nat -> nat -> R) :
  imul (tabulate k f) (tabulate k g) = Some (tabulate k (fun i j => f i j * g i j)).
Proof.
  unfold imul, inplace, mul. rewrite ew2_tabulate. cbn [bind].
  rewrite (shape_eqb_rect (tabulate_rect k _) (tabulate_rect k f)). reflexivity.
Qed.

Lemma scale_tabulate s k (g : nat -> nat -> R) :
  scale s (tabulate k g) = tabulate k (fun i j => s * g i j).
Proof. apply (map_map_tabulate (Rmult s)). Qed.

Lemma sum1_app (x y : list R) : sum1 (x ++ y) = sum1 x + sum1 y.
Proof.
  unfold sum1. induction x as [|a x IH]; simpl; [ring|]. rewrite IH. ring.
Qed.

Lemma sum1_map_seq k (f : nat -> R) : sum1 (map f (seq 0 k)) = sum_f k f.
Proof. reflexivity. Qed.

Lemma sum_tabulate k (g : nat -> nat -> R) :
  sum (tabulate k g) = sum_f k (fun i => sum_f k (fun j => g i j)).
Proof.
  assert (H : forall l cols,
    sum1 (concat (map (fun i => map (fun j => g i j) cols) l))
    = fold_right Rplus 0 (map (fun i => sum1 (map (fun j => g i j) cols)) l)).
  { intros l cols. induction l as [|i l IH]; [reflexivity|].
    cbn [map concat fold_right]. rewrite sum1_app, IH. reflexivity. }
  apply H.
Qed.

Lemma sum_f_swap k1 k2 (g : nat -> nat -> R) :
  sum_f k1 (fun i => sum_f k2 (fun j => g i j))
  = sum_f k2 (fun j => sum_f k1 (fun i => g i j)).
Proof.
  assert (Z : forall k, sum_f k (fun _ => 0) = 0).
  { induction k as [|k IH]; [reflexivity|]. rewrite sum_f_S, IH. ring. }
  induction k1 as [|k1 IH].
  - symmetry. transitivity (sum_f k2 (fun _ => 0)); [|apply Z].
    apply sum_f_ext. intros; reflexivity.
  - rewrite sum_f_S, IH, sum_f_plus. apply sum_f_ext. intros j _.
    rewrite sum_f_S. reflexivity.
Qed.

(** The sum over a whole array of terms that vanish above the diagonal is
    the sum the double loop visits: degrees [n], orders [m <= n]. *)
Lemma sum_tabulate_triangle d (t : nat -> nat -> R) :
  (forall m n, (n < m)%nat -> (m < d + 1)%nat -> t m n = 0) ->
  sum (tabulate (d + 1) t) = ref_sum d (fun n m => t m n).
Proof.
  intros Hz. rewrite sum_tabulate, sum_f_swap. unfold ref_sum.
  apply sum_f_ext. intros n Hn. apply sum_f_truncate; [lia|].
  intros m Hm1 Hm2. apply Hz; lia.
Qed.

Lemma concat_tabulate {A : Type} k (g : nat -> nat -> A) :
  concat (tabulate k g) = map (fun c => g (fst c) (snd c)) (cells k).
Proof.
  assert (H : forall l cols,
    concat (map (fun i => map (fun j => g i j) cols) l)
    = map (fun c => g (fst c) (snd c))
        (flat_map (fun i => map (fun j : nat => (i, j)) cols) l)).
  { intros l cols. induction l as [|i l IH]; [reflexivity|].
    cbn [map concat flat_map]. rewrite map_app, IH, map_map. reflexivity. }
  apply H.
Qed.

Lemma sum1_cells k (t : nat * nat -> R) :
  sum1 (map t (cells k)) = sum_f k (fun i => sum_f k (fun j => t (i, j))).
Proof.
  rewrite <- (sum_tabulate k (fun i j => t (i, j))). unfold sum.
  rewrite concat_tabulate. f_equal. apply map_ext. intros [i j]. reflexivity.
Qed.

Lemma combine_map {X A B : Type} (F : X -> A) (G : X -> B) (l : list X) :
  combine (map F l) (map G l) = map (fun x => (F x, G x)) l.
Proof. induction l as [|x l IH]; simpl; [reflexivity|]. rewrite IH. reflexivity. Qed.

Lemma filter_map_swap {X Y : Type} (h : X -> Y) (p : Y -> bool) (l : list X) :
  filter p (map h l) = map h (filter (fun x => p (h x)) l).
Proof.
  induction l as [|x l IH]; simpl; [reflexivity|].
  destruct (p (h x)); simpl; rewrite IH; reflexivity.
Qed.

(** [a[w]] for two tables: the entries of the index pairs where [w] holds. *)
Lemma bool_index_tabulate {A : Type} k (g : nat -> nat -> A) (w : nat -> nat -> bool) :
  bool_index (tabulate k g) (tabulate k w)
  = Some (map (fun c => g (fst c) (snd c))
            (filter (fun c => w (fst c) (snd c)) (cells k))).
Proof.
  unfold bool_index.
  assert (Hshape : (length (tabulate k g) =? length (tabulate k w))%nat
                   && forallb (fun p => (length (fst p) =? length (snd p))%nat)
                        (combine (tabulate k g) (tabulate k w)) = true).
  { unfold tabulate. rewrite !length_map, Nat.eqb_refl. simpl.
    rewrite combine_map. apply forallb_forall. intros p Hin.
    apply in_map_iff in Hin. destruct Hin as [i [<- _]]. simpl.
    rewrite !length_map. apply Nat.eqb_refl. }
  rewrite Hshape. rewrite !concat_tabulate, combine_map.
  rewrite (filter_map_swap (fun c => (w (fst c) (snd c), g (fst c) (snd c))) fst).
  rewrite map_map. reflexivity.
Qed.

Lemma ew1_map {X : Type} (op : R -> R -> R) (f g : X -> R) (l : list X) :
  ew1 op (map f l) (map g l) = Some (map (fun x => op (f x) (g x)) l).
Proof. apply broadcast_map. Qed.

Lemma imul1_map {X : Type} (f g : X -> R) (l : list X) :
  imul1 (map f l) (map g l) = Some (map (fun x => f x * g x) l).
Proof.
  unfold imul1. rewrite ew1_map. cbn [bind]. rewrite !length_map, Nat.eqb_refl.
  reflexivity.
Qed.

(** Entries that are zero where the mask is off can be left out of a sum. *)
Lemma sum1_filter {X : Type} (w : X -> bool) (t : X -> R) (l : list X) :
  (forall x, w x = false -> t x = 0) ->
  sum1 (map t (filter w l)) = sum1 (map t l).
Proof.
  intros Hz. induction l as [|x l IH]; [reflexivity|].
  simpl. destruct (w x) eqn:E; simpl.
  - unfold sum1 in *. simpl. rewrite IH. reflexivity.
  - unfold sum1 in *. simpl. rewrite IH, (Hz x E). ring.
Qed.

Lemma ne_false x y : ne x y = false -> x = y.
Proof. unfold ne. destruct (Req_dec_T x y); [trivial | discriminate]. Qed.

End grids.

Import grids.

Local Open Scope R_scope.

Lemma ref_sum_ext d (t t' : nat -> nat -> R) :
  (forall n m, (m <= n)%nat -> (n <= d)%nat -> t n m = t' n m) ->
  ref_sum d t = ref_sum d t'.
Proof.
  intros E. unfold ref_sum. apply sums.sum_f_ext. intros n Hn.
  apply sums.sum_f_ext. intros m Hm. apply E; lia.
Qed.

(** The sum over the selected index pairs of terms that vanish where the
    mask is off and above the diagonal. *)
Lemma sum1_selected d (w : nat * nat -> bool) (t : nat * nat -> R) :
  (forall c, w c = false -> t c = 0) ->
  (forall m n, (n < m)%nat -> (m < d + 1)%nat -> t (m, n) = 0) ->
  np.sum1 (map t (filter w (cells (d + 1)))) = ref_sum d (fun n m => t (m, n)).
Proof.
  intros Hw Hz. rewrite (sum1_filter w t _ Hw), sum1_cells.
  rewrite <- sum_tabulate. apply (sum_tabulate_triangle d (fun m n => t (m, n)) Hz).
Qed.

Lemma bind_Some {A B : Type} (a : A) (k : A -> option B) : bind (Some a) k = k a.
Proof. reflexivity. Qed.

(** One step of a chain of binds whose first computation has returned. *)
Ltac returned_step := rewrite bind_Some; cbv beta.

(** A computation of the chain on tables, or on vectors over the same
    index pairs, and the steps it enables. *)
Ltac first_step :=
  progress (
    try match goal with
        | |- context [np.ew2 ?op (tabulate ?k ?f) (tabulate ?k ?g)] =>
            rewrite (ew2_tabulate op k f g)
        end;
    try match goal with
        | |- context [np.imul (tabulate ?k ?f) (tabulate ?k ?g)] =>
            rewrite (imul_tabulate k f g)
        end;
    try match goal with
        | |- context [np.ew1 ?op (map ?f ?l) (map ?g ?l)] =>
            rewrite (ew1_map op f g l)
        end;
    try match goal with
        | |- context [np.imul1 (map ?f ?l) (map ?g ?l)] =>
            rewrite (imul1_map f g l)
        end;
    rewrite ?bind_Some; cbv beta).

(** Compare two results component by component. *)
Ltac componentwise :=
  repeat match goal with
  | |- Some _ = Some _ => f_equal
  | |- (_, _) = (_, _) => f_equal
  | |- (- _ = - _)%R => f_equal
  | |- (_ / ?s = _ / ?s)%R => f_equal
  | |- (_ * Re = _ * Re)%R => f_equal
  end.

Section VariantsEval.

Variable lpmn : nat -> nat -> R -> np.ndarray * np.ndarray.

Hypothesis lpmn_shape : forall d z,
  np.rect (d + 1) (d + 1) (fst (lpmn d d z)) /\
  np.rect (d + 1) (d + 1) (snd (lpmn d d z)).

(** [_spherical1] returns the four numbers of [_spherical0] at degree 14. *)
Lemma spherical1_eval self G H radius theta phi d :
  G_H self = Some (G, H) -> np.rect 15 15 G -> np.rect 15 15 H ->
  order_within_degree G -> order_within_degree H ->
  let P := fst (lpmn 14 14 (cos theta)) in
  let dP := np.scale (-1 * sin theta) (snd (lpmn 14 14 (cos theta))) in
  let q := Re / radius in
  _spherical1 lpmn self radius theta phi d
  = Some (reference_r 14 G H P q phi, reference_theta 14 G H dP q phi,
          reference_phi 14 G H P q phi (sin theta), reference_V 14 G H P q phi).
Proof.
  intros HGH HG HH LG LH. cbv zeta. unfold _spherical1.
  destruct (lpmn_shape 14 (cos theta)) as [HP HdP].
  destruct (lpmn 14 14 (cos theta)) as [P dP]. cbn [fst snd] in HP, HdP |- *.
  change (14 + 1)%nat with 15%nat in HP, HdP |- *.
  rewrite HGH. cbn [bind fst snd].
  set (R1 := reference_r 14 G H P (Re / radius) phi).
  set (R2 := reference_theta 14 G H (np.scale (-1 * sin theta) dP) (Re / radius) phi).
  set (R3 := reference_phi 14 G H P (Re / radius) phi (sin theta)).
  set (R4 := reference_V 14 G H P (Re / radius) phi).
  rewrite meshgrid_arange.
  rewrite (rect_tabulate HG), (rect_tabulate HH), (rect_tabulate HP), (rect_tabulate HdP).
  cbv beta iota zeta.
  rewrite !map_map_tabulate, scale_tabulate.
  unfold np.mul, np.add.
  repeat first_step.
  subst R1 R2 R3 R4.
  unfold reference_r, reference_theta, reference_phi, reference_V.
  change 15%nat with (14 + 1)%nat.
  componentwise;
    (rewrite sum_tabulate_triangle
       by (intros m n Hnm Hm; rewrite (LG m n), (LH m n) by lia; ring));
    apply ref_sum_ext; intros n m Hm Hn.
  - reflexivity.
  - rewrite (@item_scale _ 15 15 dP m n HdP) by lia. reflexivity.
  - reflexivity.
  - reflexivity.
Qed.

(** [_spherical2] returns them too, where the radius is not zero. *)
Lemma spherical2_eval self G H radius theta phi d :
  G_H self = Some (G, H) -> np.rect 15 15 G -> np.rect 15 15 H ->
  order_within_degree G -> order_within_degree H -> radius <> 0 ->
  let P := fst (lpmn 14 14 (cos theta)) in
  let dP := np.scale (-1 * sin theta) (snd (lpmn 14 14 (cos theta))) in
  let q := Re / radius in
  _spherical2 lpmn self radius theta phi d
  = Some (reference_r 14 G H P q phi, reference_theta 14 G H dP q phi,
          reference_phi 14 G H P q phi (sin theta), reference_V 14 G H P q phi).
Proof.
  intros HGH HG HH LG LH Hr. cbv zeta. unfold _spherical2.
  destruct (lpmn_shape 14 (cos theta)) as [HP HdP].
  destruct (lpmn 14 14 (cos theta)) as [P dP]. cbn [fst snd] in HP, HdP |- *.
  change (14 + 1)%nat with 15%nat in HP, HdP |- *.
  set (R1 := reference_r 14 G H P (Re / radius) phi).
  set (R2 := reference_theta 14 G H (np.scale (-1 * sin theta) dP) (Re / radius) phi).
  set (R3 := reference_phi 14 G H P (Re / radius) phi (sin theta)).
  set (R4 := reference_V 14 G H P (Re / radius) phi).
  rewrite meshgrid_arange.
  rewrite (rect_tabulate HP), (rect_tabulate HdP).
  cbv beta iota zeta.
  rewrite !map_map_tabulate, scale_tabulate.
  first_step.
  rewrite HGH. returned_step. cbn [fst snd].
  rewrite (rect_tabulate HG), (rect_tabulate HH).
  rewrite !map_map_tabulate.
  unfold np.mul, np.add.
  repeat first_step.
  rewrite scale_tabulate.
  subst R1 R2 R3 R4.
  unfold reference_r, reference_theta, reference_phi, reference_V.
  change 15%nat with (14 + 1)%nat.
  componentwise;
    (rewrite sum_tabulate_triangle
       by (intros m n Hnm Hm; rewrite (LG m n), (LH m n) by lia; ring));
    apply ref_sum_ext; intros n m Hm Hn.
  - rewrite plus_INR. simpl. ring.
  - rewrite (@item_scale _ 15 15 dP m n HdP) by lia. ring.
  - ring.
  - replace (n + 2)%nat with (S (n + 1)) by lia. rewrite <- tech_pow_Rmult.
    field. split; [exact Hr | unfold Re; lra].
Qed.

(** [_spherical3] returns them as well: an entry the mask leaves out
    carries two coefficients that are zero. *)
Lemma spherical3_eval self G H radius theta phi d :
  G_H self = Some (G, H) -> np.rect 15 15 G -> np.rect 15 15 H ->
  order_within_degree G -> order_within_degree H -> radius <> 0 ->
  let P := fst (lpmn 14 14 (cos theta)) in
  let dP := np.scale (-1 * sin theta) (snd (lpmn 14 14 (cos theta))) in
  let q := Re / radius in
  _spherical3 lpmn self radius theta phi d
  = Some (reference_r 14 G H P q phi, reference_theta 14 G H dP q phi,
          reference_phi 14 G H P q phi (sin theta), reference_V 14 G H P q phi).
Proof.
  intros HGH HG HH LG LH Hr. cbv zeta. unfold _spherical3.
  destruct (lpmn_shape 14 (cos theta)) as [HP HdP].
  destruct (lpmn 14 14 (cos theta)) as [P dP]. cbn [fst snd] in HP, HdP |- *.
  change (14 + 1)%nat with 15%nat in HP, HdP |- *.
  set (R1 := reference_r 14 G H P (Re / radius) phi).
  set (R2 := reference_theta 14 G H (np.scale (-1 * sin theta) dP) (Re / radius) phi).
  set (R3 := reference_phi 14 G H P (Re / radius) phi (sin theta)).
  set (R4 := reference_V 14 G H P (Re / radius) phi).
  rewrite HGH. cbn [bind fst snd].
  rewrite (rect_tabulate HG), (rect_tabulate HH), (rect_tabulate HP), (rect_tabulate HdP).
  rewrite meshgrid_arange. cbv beta iota zeta.
  unfold np.ne0, np.lor. rewrite !map_map_tabulate.
  rewrite (broadcast2_tabulate orb). returned_step.
  repeat (rewrite bool_index_tabulate; returned_step).
  remember (filter (fun c : nat * nat =>
              np.ne (item G (fst c) (snd c)) 0 || np.ne (item H (fst c) (snd c)) 0)
              (cells 15)) as sel eqn:Esel.
  rewrite !map_map.
  repeat first_step.
  rewrite ?map_map.
  subst R1 R2 R3 R4 sel.
  unfold reference_r, reference_theta, reference_phi, reference_V.
  set (w := fun c : nat * nat =>
              np.ne (item G (fst c) (snd c)) 0 || np.ne (item H (fst c) (snd c)) 0).
  assert (Hw : forall c, w c = false ->
            item G (fst c) (snd c) = 0 /\ item H (fst c) (snd c) = 0).
  { intros c Hc. unfold w in Hc. apply orb_false_elim in Hc.
    destruct Hc as [Hg Hh]. split; apply ne_false; assumption. }
  change 15%nat with (14 + 1)%nat.
  componentwise;
    (match goal with
     | |- np.sum1 (map ?t _) = _ =>
         transitivity (ref_sum 14 (fun n m => t (m, n)));
           [apply (sum1_selected 14 w t);
              [intros c Hc; destruct (Hw c Hc) as [Eg Eh]; rewrite Eg, Eh; ring
              |intros m n Hnm Hm; cbn [fst snd]; rewrite (LG m n), (LH m n) by lia; ring]
           |]
     end);
    apply ref_sum_ext; intros n m Hm Hn; cbn [fst snd].
  - rewrite plus_INR. simpl. ring.
  - rewrite (@item_scale _ 15 15 dP m n HdP) by lia. ring.
  - ring.
  - replace (n + 2)%nat with (S (n + 1)) by lia. rewrite <- tech_pow_Rmult.
    field. split; [exact Hr | unfold Re; lra].
Qed.

End VariantsEval.

Section VariantsAgree.

Variable lpmn : nat -> nat -> R -> np.ndarray * np.ndarray.

Hypothesis lpmn_shape : forall d z,
  np.rect (d + 1) (d + 1) (fst (lpmn d d z)) /\
  np.rect (d + 1) (d + 1) (snd (lpmn d d z)).

(** X19: on a model the constructor returned, [_spherical1] returns the
    four numbers [_spherical0] returns for the degree 14, whatever degree it
    is called with (its first line overwrites the argument): the sums over
    the whole 15 by 15 arrays add only zeros to the sums of the double
    loop, the coefficients of an order above the degree being zero. *)
Theorem spherical1_is_the_reference_at_degree_14 now yr v self out radius theta phi d :
  __init__ now yr v = Some (self, out) ->
  exists Br Bth Bph V,
    _spherical0 lpmn self radius theta phi 14 = Some (Br, Bth, Bph, V) /\
    _spherical1 lpmn self radius theta phi d = Some (Br, Bth, Bph, V).
Proof.
  intros Hinit.
  destruct (configured_model _ _ _ Hinit) as [G [H [HGH [HG [HH [LG LH]]]]]].
  assert (Hd : (14 <= 14)%nat) by lia.
  eexists _, _, _, _. split.
  - exact (@spherical0_eval lpmn lpmn_shape self G H radius theta phi 14 HGH HG HH Hd).
  - exact (@spherical1_eval lpmn lpmn_shape self G H radius theta phi d HGH HG HH LG LH).
Qed.

(** X20: away from the centre of the Earth [_spherical2], which shares the
    factors and updates [P] and [tmp] in place, returns the four numbers of
    [_spherical0] at degree 14 as well, whatever degree it is called
    with. *)
Theorem spherical2_is_the_reference_at_degree_14 now yr v self out radius theta phi d :
  __init__ now yr v = Some (self, out) -> radius <> 0%R ->
  exists Br Bth Bph V,
    _spherical0 lpmn self radius theta phi 14 = Some (Br, Bth, Bph, V) /\
    _spherical2 lpmn self radius theta phi d = Some (Br, Bth, Bph, V).
Proof.
  intros Hinit Hr.
  destruct (configured_model _ _ _ Hinit) as [G [H [HGH [HG [HH [LG LH]]]]]].
  assert (Hd : (14 <= 14)%nat) by lia.
  eexists _, _, _, _. split.
  - exact (@spherical0_eval lpmn lpmn_shape self G H radius theta phi 14 HGH HG HH Hd).
  - exact (@spherical2_eval lpmn lpmn_shape self G H radius theta phi d HGH HG HH LG LH Hr).
Qed.

(** X21: [_spherical3], which keeps only the entries where [g] or [h] is
    not zero, returns the same four numbers too: what the mask leaves out
    contributes nothing to any of the sums. *)
Theorem spherical3_is_the_reference_at_degree_14 now yr v self out radius theta phi d :
  __init__ now yr v = Some (self, out) -> radius <> 0%R ->
  exists Br Bth Bph V,
    _spherical0 lpmn self radius theta phi 14 = Some (Br, Bth, Bph, V) /\
    _spherical3 lpmn self radius theta phi d = Some (Br, Bth, Bph, V).
Proof.
  intros Hinit Hr.
  destruct (configured_model _ _ _ Hinit) as [G [H [HGH [HG [HH [LG LH]]]]]].
  assert (Hd : (14 <= 14)%nat) by lia.
  eexists _, _, _, _. split.
  - exact (@spherical0_eval lpmn lpmn_shape self G H radius theta phi 14 HGH HG HH Hd).
  - exact (@spherical3_eval lpmn lpmn_shape self G H radius theta phi d HGH HG HH LG LH Hr).
Qed.

End VariantsAgree.

Lemma spherical1_is_the_reference_at_degree_14_witness :
  exists Br Bth Bph V,
    _spherical0 legendre_lpmn model_2000 6371200 1 0 14 = Some (Br, Bth, Bph, V) /\
    _spherical1 legendre_lpmn model_2000 6371200 1 0 13 = Some (Br, Bth, Bph, V).
Proof.
  apply (@spherical1_is_the_reference_at_degree_14 legendre_lpmn legendre_lpmn_shape
           2026 (Some 2000%Q) false model_2000 [] 6371200 1 0 13).
  apply init_2000.
Defined.

Lemma spherical2_is_the_reference_at_degree_14_witness :
  exists Br Bth Bph V,
    _spherical0 legendre_lpmn model_2000 6371200 1 0 14 = Some (Br, Bth, Bph, V) /\
    _spherical2 legendre_lpmn model_2000 6371200 1 0 13 = Some (Br, Bth, Bph, V).
Proof.
  apply (@spherical2_is_the_reference_at_degree_14 legendre_lpmn legendre_lpmn_shape
           2026 (Some 2000%Q) false model_2000 [] 6371200 1 0 13).
  - apply init_2000.
  - lra.
Defined.

Lemma spherical3_is_the_reference_at_degree_14_witness :
  exists Br Bth Bph V,
    _spherical0 legendre_lpmn model_2000 6371200 1 0 14 = Some (Br, Bth, Bph, V) /\
    _spherical3 legendre_lpmn model_2000 6371200 1 0 13 = Some (Br, Bth, Bph, V).
Proof.
  apply (@spherical3_is_the_reference_at_degree_14 legendre_lpmn legendre_lpmn_shape
           2026 (Some 2000%Q) false model_2000 [] 6371200 1 0 13).
  - apply init_2000.
  - lra.
Defined.

Local Close Scope R_scope.
